(** * Open-Sora-Plan, [examples/rec_video_vae.py]

    A shallow embedding of the chunked reconstruction driver
    ([process_in_chunks]), the frame sampler ([read_video],
    [RealVideoDataset._load_video]), the shape normaliser
    ([_format_video_shape]), the video emitter ([custom_to_video]) and
    the dataset ([RealVideoDataset]: its listing, length and items),
    followed by the properties established for them.

    Conventions.
    - Python integers are unbounded: they are [Z].
    - A tensor is seen along the one axis the code slices and concatenates
      (the time axis, [dim=2] of a [(B, C, T, H, W)] batch): it is a list of
      frames.  Everything the code does on the other axes is element-wise.
    - Exceptions are values of [exn]; a loop that Python would run unboundedly
      is run with fuel and reports [OutOfFuel]. *)

From Stdlib Require Import ZArith List Bool Lia QArith Qround Qabs Qminmax Qpower Lqa Sorted.
From Stdlib Require Floats.SpecFloat.
From Stdlib Require Import Permutation.
From Stdlib Require String Ascii Sorting.Mergesort Orders.
Import ListNotations.

#[local] Open Scope Z_scope.

(** ** Python slicing on one axis *)

Module PySlice.

(** [slice.indices]: a negative bound counts from the end, and every bound
    is clamped to [0 .. len]. *)
Definition norm_index (len i : Z) : Z :=
  if i <? 0 then Z.max (len + i) 0 else Z.min i len.

(** Length of [x[lo:hi]] on an axis of length [len]; [None] is an omitted
    bound. *)
Definition bounds (len : Z) (lo hi : option Z) : Z * Z :=
  (match lo with None => 0 | Some i => norm_index len i end,
   match hi with None => len | Some j => norm_index len j end).

(** [x[lo:hi]] *)
Definition slice {X : Type} (lo hi : option Z) (x : list X) : list X :=
  let '(a, b) := bounds (Z.of_nat (length x)) lo hi in
  firstn (Z.to_nat (b - a)) (skipn (Z.to_nat a) x).

End PySlice.

(** ** Outcomes *)

Inductive exn : Set :=
| AssertionError      (* a failed [assert] *)
| RuntimeError        (* torch: shapes that do not broadcast, [cat] of no tensor *)
| ValueError          (* numpy: a negative number of samples *)
| ZeroDivisionError.

(** ** The chunked codec driver: [process_in_chunks] *)

Module Driver.
Import PySlice.

(** Arithmetic of tensor elements, as far as the driver uses it:
    [x * k] and [x / k] with a Python integer [k], and [x + y]. *)
Class TensorArith (A : Type) := {
  t_mul : A -> Z -> A;
  t_div : A -> Z -> A;
  t_add : A -> A -> A
}.

(** Exact arithmetic on rationals stands for the arithmetic of reals. *)
#[export] Instance Q_arith : TensorArith Q := {
  t_mul x k := (x * inject_Z k)%Q;
  t_div x k := (x / inject_Z k)%Q;
  t_add x y := (x + y)%Q
}.

(** [output_chunks[-1]]: the buffer split into its last entry and the
    entries before it. *)
Fixpoint unsnoc {X : Type} (l : list X) : option (list X * X) :=
  match l with
  | [] => None
  | x :: l' =>
      match unsnoc l' with
      | None => Some ([], x)
      | Some (init, z) => Some (x :: init, z)
      end
  end.

(** What the run did, besides its result: the windows handed to the codec,
    oldest first, and for each blend the half-open range of output
    positions that received blended frames, with those frames.  The trace
    is bookkeeping; no decision of the driver reads it. *)
Record trace (A : Type) := {
  codec_calls : list (list A);
  blend_spans : list (nat * nat);
  blend_frames : list (list A)
}.
Arguments codec_calls {A} _.
Arguments blend_spans {A} _.
Arguments blend_frames {A} _.

Inductive outcome (A : Type) :=
| Returned (out : list A) (tr : trace A)
| Raised (e : exn) (tr : trace A)
| OutOfFuel (tr : trace A).
Arguments Returned {A} _ _.
Arguments Raised {A} _ _.
Arguments OutOfFuel {A} _.

Definition trace_of {A} (o : outcome A) : trace A :=
  match o with Returned _ tr | Raised _ tr | OutOfFuel tr => tr end.

Section Driver.
Context {A : Type} `{TensorArith A}.

(** [x * p / q], element by element. *)
Definition scale (x : list A) (p q : Z) : list A :=
  map (fun a => t_div (t_mul a p) q) x.

(** One blended element: [previous * 1 / 4 + current * 3 / 4]. *)
Definition blend (previous current : A) : A :=
  t_add (t_div (t_mul previous 1) 4) (t_div (t_mul current 3) 4).

Fixpoint zip_add (x y : list A) : list A :=
  match x, y with
  | a :: x', b :: y' => t_add a b :: zip_add x' y'
  | _, _ => []
  end.

(** [x + y] for two tensors that agree on every axis but time: equal
    lengths add frame by frame, a length of one is broadcast, anything
    else is torch's size-mismatch error. *)
Definition tensor_add (x y : list A) : exn + list A :=
  if (length x =? length y)%nat then inr (zip_add x y)
  else match x, y with
       | [a], _ => inr (map (fun b => t_add a b) y)
       | _, [b] => inr (map (fun a => t_add a b) x)
       | _, _ => inl RuntimeError
       end.

Record loop_state := {
  start : Z;
  output_chunks : list (list A);
  log : trace A
}.

Section Run.
Variable model : list A -> list A.   (* decode (encode chunk).sample() *)
Variable video_data : list A.
Variables chunk_size overlap : Z.

Definition num_frames : Z := Z.of_nat (length video_data).

(** Lines 56-58: the window of the iteration that begins at [start]. *)
Definition window_end (start : Z) : Z :=
  let end_ := Z.min (start + chunk_size) num_frames in
  if start + chunk_size + overlap <? num_frames then end_ + overlap else end_.

(** Lines 67-74: the overlap tensor and the rewritten last entry. *)
Definition overlap_step (recon_chunk : list A) : Z :=
  Z.min overlap (Z.of_nat (length recon_chunk)).

Definition overlap_tensor (last_chunk recon_chunk : list A) : exn + list A :=
  let step := overlap_step recon_chunk in
  tensor_add (scale (slice (Some (- step)) None last_chunk) 1 4)
             (scale (slice None (Some step) recon_chunk) 3 4).

(** Lines 56-81: the body of the [while] loop. *)
Definition loop_body (st : loop_state) : exn * trace A + loop_state :=
  let end_ := window_end (start st) in
  let chunk := slice (Some (start st)) (Some end_) video_data in
  let recon_chunk := model chunk in
  let calls := codec_calls (log st) ++ [chunk] in
  match unsnoc (output_chunks st) with
  | Some (earlier, last_chunk) =>
      match overlap_tensor last_chunk recon_chunk with
      | inl e =>
          inl (e, {| codec_calls := calls;
                     blend_spans := blend_spans (log st);
                     blend_frames := blend_frames (log st) |})
      | inr blended =>
          let kept := slice None (Some (- overlap)) last_chunk in
          let lo := (length (concat earlier) + length kept)%nat in
          inr {| start := start st + chunk_size;
                 output_chunks :=
                   earlier
                     ++ [kept ++ blended;
                         if end_ <? num_frames
                         then slice (Some overlap) None recon_chunk
                         else recon_chunk];
                 log := {| codec_calls := calls;
                           blend_spans :=
                             blend_spans (log st)
                               ++ [(lo, (lo + length blended)%nat)];
                           blend_frames := blend_frames (log st) ++ [blended] |} |}
      end
  | None =>
      inr {| start := start st + chunk_size;
             output_chunks := [recon_chunk];
             log := {| codec_calls := calls;
                       blend_spans := blend_spans (log st);
                       blend_frames := blend_frames (log st) |} |}
  end.

(** Lines 55-81: [while start < num_frames]. *)
Fixpoint while_loop (fuel : nat) (st : loop_state)
  : option (exn * trace A + loop_state) :=
  match fuel with
  | O => None
  | S fuel' =>
      if start st <? num_frames then
        match loop_body st with
        | inl err => Some (inl err)
        | inr st' => while_loop fuel' st'
        end
      else Some (inr st)
  end.

Definition initial : loop_state :=
  {| start := 0;
     output_chunks := [];
     log := {| codec_calls := []; blend_spans := []; blend_frames := [] |} |}.

(** The states at the head of the loop, in order, for as long as the fuel
    lasts; the last one is where a run that was cut short stands. *)
Fixpoint trajectory (fuel : nat) (st : loop_state) : list loop_state :=
  st :: match fuel with
        | O => []
        | S fuel' =>
            if start st <? num_frames then
              match loop_body st with
              | inl _ => []
              | inr st' => trajectory fuel' st'
              end
            else []
        end.

Definition reached (fuel : nat) (st : loop_state) : loop_state :=
  last (trajectory fuel st) st.

(** Lines 50-82. *)
Definition process_in_chunks (fuel : nat) : outcome A :=
  if negb ((chunk_size + overlap - 1) mod 4 =? 0) then
    Raised AssertionError (log initial)
  else
    match while_loop fuel initial with
    | None => OutOfFuel (log (reached fuel initial))
    | Some (inl (e, tr)) => Raised e tr
    | Some (inr st) =>
        match output_chunks st with
        | [] => Raised RuntimeError (log st)      (* torch.cat of no tensor *)
        | _ => Returned (concat (output_chunks st)) (log st)
        end
    end.

End Run.

(** *** Notions the properties are stated with *)

(** The last [k] elements, and all but the last [k]. *)
Definition last_n {X : Type} (k : nat) (l : list X) : list X :=
  skipn (length l - k) l.

Definition drop_last {X : Type} (k : nat) (l : list X) : list X :=
  firstn (length l - k) l.

Fixpoint map2 {X Y W : Type} (f : X -> Y -> W) (x : list X) (y : list Y) : list W :=
  match x, y with
  | a :: x', b :: y' => f a b :: map2 f x' y'
  | _, _ => []
  end.

(** The seam as the specification words it: the last [overlap_step]
    frames of [previous] are blended with the first [overlap_step] frames
    of the reconstructed chunk, and the blended frames take the place of
    that tail. *)
Definition seam_as_claimed (overlap : Z) (previous recon_chunk : list A) : list A :=
  let step := Z.to_nat (Z.min overlap (Z.of_nat (length recon_chunk))) in
  drop_last step previous
    ++ map2 blend (last_n step previous) (firstn step recon_chunk).

(** Output positions that no later iteration can write: the frames of every
    buffer entry but the last. *)
Definition settled (st : loop_state) : nat :=
  match unsnoc (output_chunks st) with
  | Some (earlier, _) => length (concat earlier)
  | None => O
  end.

(** A run that is one codec pass over the whole input, returned as it is. *)
Definition single_pass (model : list A -> list A) (video_data : list A)
    (chunk_size overlap : Z) (fuel : nat) : Prop :=
  process_in_chunks model video_data chunk_size overlap fuel
    = Returned (model video_data)
        {| codec_calls := [video_data]; blend_spans := []; blend_frames := [] |}
  /\ Forall (fun st => (length (output_chunks st) < 2)%nat)
        (trajectory model video_data chunk_size overlap fuel initial).

End Driver.

(** Codec invocations and blends of a run that returned. *)
Definition run_counts {A} (o : outcome A) : option (nat * nat) :=
  match o with
  | Returned _ tr => Some (length (codec_calls tr), length (blend_spans tr))
  | _ => None
  end.

Definition output_length {A} (o : outcome A) : option nat :=
  match o with
  | Returned out _ => Some (length out)
  | _ => None
  end.

(** The frames of [out] at the positions of a span. *)
Definition frames_at {X : Type} (span : nat * nat) (out : list X) : list X :=
  firstn (snd span - fst span) (skipn (fst span) out).

(** Every span of the trace holds, in [out], the frames its blend made. *)
Definition blends_in_place {A} (out : list A) (tr : trace A) : Prop :=
  Forall2 (fun span frames => frames_at span out = frames)
          (blend_spans tr) (blend_frames tr).

(** No output position lies in the spans of two different blends. *)
Definition spans_disjoint (spans : list (nat * nat)) : Prop :=
  forall i j a b p,
    i <> j -> nth_error spans i = Some a -> nth_error spans j = Some b ->
    ~ ((fst a <= p < snd a)%nat /\ (fst b <= p < snd b)%nat).

(** Spans laid out one after the other, all of them below [bound]. *)
Inductive chained : list (nat * nat) -> nat -> Prop :=
| chained_nil : forall bound, chained [] bound
| chained_snoc : forall spans bound lo hi bound',
    chained spans bound -> (bound <= lo)%nat -> (lo <= hi)%nat -> (hi <= bound')%nat ->
    chained (spans ++ [(lo, hi)]) bound'.

(** What a run looks like when the frames are not looked into: how it
    ended, the lengths of the windows, and the spans. *)
Inductive verdict : Set :=
| VReturned (n : nat)
| VRaised (e : exn)
| VOutOfFuel.

Definition trace_shape {A} (tr : trace A) : list nat * list (nat * nat) :=
  (map (@length A) (codec_calls tr), blend_spans tr).

Definition shape_of {A} (o : outcome A) : verdict * (list nat * list (nat * nat)) :=
  match o with
  | Returned out tr => (VReturned (length out), trace_shape tr)
  | Raised e tr => (VRaised e, trace_shape tr)
  | OutOfFuel tr => (VOutOfFuel, trace_shape tr)
  end.

Definition state_shape {A} (st : @loop_state A)
  : Z * list nat * (list nat * list (nat * nat)) :=
  (start st, map (@length A) (output_chunks st), trace_shape (log st)).

(** Frames with nothing in them: what is left of a run is its shape. *)
#[export] Instance unit_arith : TensorArith unit := {
  t_mul _ _ := tt;
  t_div _ _ := tt;
  t_add _ _ := tt
}.

Definition blank (n : nat) : list unit := repeat tt n.

(** Frames numbered from zero, as rationals. *)
Definition numbered (n : nat) : list Q :=
  map (fun i => inject_Z (Z.of_nat i)) (seq 0 n).

End Driver.

(** ** Double-precision arithmetic

    Python floats and numpy's [float64] are IEEE-754 binary64 numbers, and
    every basic operation returns the exact result rounded to the nearest
    representable number, ties to the even significand.  A finite float is
    a rational; an operation is the exact operation on [Q] followed by
    [RN].  Overflow is left out: [float(n)] raises [OverflowError] from
    [n = 2^1024 - 2^970] on, and the properties keep the integers they
    convert below that. *)

Module Float64.
#[local] Open Scope Q_scope.

(** Nearest integer, ties to even. *)
Definition round_half_even (x : Q) : Z :=
  let f := Qfloor x in
  match Qcompare (x - inject_Z f) (1 # 2) with
  | Lt => f
  | Gt => (f + 1)%Z
  | Eq => if Z.even f then f else (f + 1)%Z
  end.

Definition pow2 (e : Z) : Q := Qpower 2 e.

(** Binary exponent of a positive rational: [2^e <= x < 2^(e+1)]. *)
Definition binade (x : Q) : Z :=
  let e0 := (Z.log2 (Qnum x) - Z.log2 (Zpos (Qden x)))%Z in
  if Qle_bool (pow2 e0) x then e0 else (e0 - 1)%Z.

(** Exponent of the last place of the 53-bit significand at magnitude [x];
    below [2^-1022] the numbers are subnormal and the exponent stays at
    [-1074]. *)
Definition ulp_exp (x : Q) : Z := Z.max (binade x - 52) (-1074).

Definition RN_pos (x : Q) : Q :=
  let e := ulp_exp x in
  inject_Z (round_half_even (x / pow2 e)) * pow2 e.

(** Round to nearest, ties to even. *)
Definition RN (x : Q) : Q :=
  match Qcompare x 0 with
  | Eq => 0
  | Gt => RN_pos x
  | Lt => - RN_pos (- x)
  end.

Definition fadd (x y : Q) : Q := RN (x + y).
Definition fsub (x y : Q) : Q := RN (x - y).
Definition fmul (x y : Q) : Q := RN (x * y).
Definition fdiv (x y : Q) : Q := RN (x / y).

(** [float(n)] *)
Definition float_of_int (n : Z) : Q := RN (inject_Z n).

(** [a / b] on Python integers: the correctly rounded quotient. *)
Definition truediv (a b : Z) : exn + Q :=
  if (b =? 0)%Z then inl ZeroDivisionError
  else inr (RN (inject_Z a / inject_Z b)).

(** [int(x)]: truncation towards zero. *)
Definition int_of_float (x : Q) : Z :=
  if Qle_bool 0 x then Qfloor x else Qceiling x.

(** *** Notions the properties are stated with *)

(** The non-negative numbers of the format, zero and subnormal numbers
    included: a significand below [2^53] at an exponent of at least
    [-1074]. *)
Definition representable (x : Q) : Prop :=
  exists m e : Z, (0 <= m < 2 ^ 53)%Z /\ (-1074 <= e)%Z /\ x == inject_Z m * pow2 e.

(** The Standard Library's executable specification of binary64, to
    compare [RN] with: a float as a rational, and an integer as a float. *)
Definition SF2Q (f : SpecFloat.spec_float) : Q :=
  match f with
  | SpecFloat.S754_finite s m e =>
      (if s then - inject_Z (Zpos m) else inject_Z (Zpos m)) * pow2 e
  | _ => 0
  end.

Definition b64 (n : Z) : SpecFloat.spec_float :=
  SpecFloat.binary_normalize 53 1024 n 0 false.

(** What the proofs use of a rounding: it is monotone on the non-negative
    numbers and leaves the numbers of the format as they are. *)
Definition rounding (rho : Q -> Q) : Prop :=
  (forall x y, 0 <= x -> x <= y -> rho x <= rho y)
  /\ (forall x, representable x -> rho x == x).

End Float64.

(** ** The frame sampler: [read_video] and [RealVideoDataset._load_video] *)

Module Sampler.
Import Float64.

Fixpoint set_last {X : Type} (l : list X) (v : X) : list X :=
  match l with
  | [] => []
  | [_] => [v]
  | x :: l' => x :: set_last l' v
  end.

(** [np.arange(0, num)] as floats. *)
Definition arange (num : Z) : list Q :=
  map (fun i => inject_Z (Z.of_nat i)) (seq 0 (Z.to_nat num)).

(** [np.linspace(start, stop, num, dtype=int)] on Python integers
    (numpy/_core/function_base.py, [endpoint=True]): the samples are
    computed in [float64] as [arange(num) * step + start], the last one is
    overwritten with [stop], and the array is floored and cast. *)
Definition linspace (start stop num : Z) : exn + list Z :=
  if num <? 0 then inl ValueError
  else
    let div := num - 1 in
    let start_f := float_of_int start in
    let stop_f := float_of_int stop in
    let delta := fsub stop_f start_f in
    let y := arange num in
    let y :=
      if 0 <? div then
        let step := fdiv delta (inject_Z div) in
        if Qeq_bool step 0
        then map (fun i => fmul (fdiv i (inject_Z div)) delta) y
        else map (fun i => fmul i step) y
      else map (fun i => fmul i delta) y in
    let y := map (fun v => fadd v start_f) y in
    let y := if 1 <? num then set_last y stop_f else y in
    inr (map Qfloor y).

(** Lines 114-128 and 169-183, the same in both functions: the range
    [s .. e - 1] to sample and the number of samples.  The [print] of the
    second branch has no effect on the result. *)
Definition sampling_plan (total_frames num_frames sample_rate : Z)
  : exn + (Z * Z * Z) :=
  let sample_frames_len := sample_rate * num_frames in
  if total_frames >? sample_frames_len then
    let s := 0 in
    let e := s + sample_frames_len in
    inr (s, e, num_frames)
  else
    let s := 0 in
    let e := total_frames in
    match truediv total_frames sample_frames_len with
    | inl err => inl err
    | inr ratio =>
        inr (s, e, int_of_float (fmul ratio (float_of_int num_frames)))
    end.

(** Lines 130 and 185: [frame_id_list]. *)
Definition frame_id_list (total_frames num_frames sample_rate : Z)
  : exn + list Z :=
  match sampling_plan total_frames num_frames sample_rate with
  | inl err => inl err
  | inr (s, e, num_frames') => linspace s (e - 1) num_frames'
  end.

Definition read_video := frame_id_list.
Definition _load_video := frame_id_list.

(** Indices within [0 .. bound - 1], each smaller than all that follow. *)
Definition in_range_increasing (bound : Z) (ids : list Z) : Prop :=
  Forall (fun i => 0 <= i < bound) ids /\ StronglySorted Z.lt ids.

End Sampler.

(** ** The shape normaliser: [_format_video_shape] *)

Module Shape.

(** A [(C, T, H, W)] tensor: its shape and its elements by index. *)
Record video (A : Type) := {
  channels : nat;
  time : nat;
  height : nat;
  width : nat;
  pixel : nat -> nat -> nat -> nat -> A
}.
Arguments channels {A} _.
Arguments time {A} _.
Arguments height {A} _.
Arguments width {A} _.
Arguments pixel {A} _ _ _ _ _.

(** Length of [x[:stop]] on an axis of length [len]. *)
Definition prefix_len (len : nat) (stop : Z) : nat :=
  let '(a, b) := PySlice.bounds (Z.of_nat len) None (Some stop) in
  Z.to_nat (b - a).

Definition _format_video_shape {A} (v : video A)
    (time_compress spatial_compress : Z) : exn + video A :=
  if (time_compress =? 0) || (spatial_compress =? 0) then inl ZeroDivisionError
  else
    let time := Z.of_nat (time v) in
    let height := Z.of_nat (height v) in
    let width := Z.of_nat (width v) in
    let new_time :=
      if negb ((time - 1) mod time_compress =? 0)
      then time - 1 - (time - 1) mod time_compress
      else time in
    let new_height :=
      if negb (height mod spatial_compress =? 0)
      then height - height mod spatial_compress
      else height in
    let new_width :=
      if negb (width mod spatial_compress =? 0)
      then width - width mod spatial_compress
      else width in
    (* video[:, :new_time, :new_height, :new_width] *)
    inr {| channels := channels v;
           time := prefix_len (Shape.time v) new_time;
           height := prefix_len (Shape.height v) new_height;
           width := prefix_len (Shape.width v) new_width;
           pixel := pixel v |}.

End Shape.

(** ** The video emitter: [custom_to_video] *)

Module Emitter.
#[local] Open Scope Q_scope.

(** [torch.clamp(x, lo, hi)] on one element. *)
Definition clamp (x lo hi : Q) : Q := Qmin (Qmax x lo) hi.

(** [astype(np.uint8)] on one element: the fraction is dropped, and a
    value outside the type wraps around. *)
Definition astype_uint8 (x : Q) : Z := (Float64.int_of_float x mod 256)%Z.

Section Emit.
(** Rounding of the tensor's floating-point format (half, single or
    double precision, depending on the caller). *)
Variable rnd : Q -> Q.

(** Lines 103-106 on one element. *)
Definition to_pixel (x : Q) : Z :=
  let x := clamp x (-1) 1 in
  let x := rnd (rnd (x + 1) / 2) in
  astype_uint8 (rnd (255 * x)).

(** The array handed to [array_to_video]; [permute] only reorders. *)
Definition custom_to_video (x : list Q) : list Z := map to_pixel x.
End Emit.

End Emitter.

(** ** Notions for whole runs of the driver *)

Module Runs.
Import PySlice Driver.

(** The window of iteration [k], counted from zero:
    [video_data[start:end]] with [start = k * chunk_size]. *)
Definition window {A} (video_data : list A) (chunk_size overlap : Z) (k : nat) : list A :=
  slice (Some (Z.of_nat k * chunk_size))
        (Some (window_end video_data chunk_size overlap (Z.of_nat k * chunk_size)))
        video_data.

(** Iterations of the loop for a positive [chunk_size]: the least [n] with
    [n * chunk_size >= num_frames]. *)
Definition iterations {A} (video_data : list A) (chunk_size : Z) : nat :=
  Z.to_nat ((num_frames video_data + chunk_size - 1) / chunk_size).

(** Frames returned for [T] input frames by a codec that keeps the number
    of frames, when [2 * overlap <= chunk_size]. *)
Definition returned_frames (T chunk_size overlap : Z) : Z :=
  if T <=? chunk_size then T
  else
    let m := (T - 1) mod chunk_size + 1 in   (* frames of the last window *)
    if overlap <? m then T + overlap else T - (overlap - m).

(** Every element lies in [[lo, hi]]. *)
Definition within (lo hi : Q) (x : list Q) : Prop :=
  Forall (fun v => (lo <= v <= hi)%Q) x.

(** Frames in the buffer. *)
Definition frames_buffered {A} (st : @loop_state A) : Z :=
  Z.of_nat (length (concat (output_chunks st))).

Section Invariants.
Context {A : Type}.
Variable video_data : list A.
Variables chunk_size overlap : Z.

(** The state at the head of the loop after [k] iterations. *)
Definition after_windows (k : nat) (st : @loop_state A) : Prop :=
  start st = Z.of_nat k * chunk_size
  /\ codec_calls (log st) = map (window video_data chunk_size overlap) (seq 0 k)
  /\ length (blend_spans (log st)) = pred k
  /\ (k = 0%nat <-> output_chunks st = [])
  /\ (k <= iterations video_data chunk_size)%nat.

(** The buffer at the head of the loop after [k >= 1] iterations, when
    [1 <= overlap] and [2 * overlap <= chunk_size]. *)
Definition buffer_filled (k : nat) (st : @loop_state A) : Prop :=
  (1 <= k)%nat
  /\ start st = Z.of_nat k * chunk_size
  /\ exists earlier last_chunk,
       output_chunks st = earlier ++ [last_chunk]
       /\ if start st <? num_frames video_data
          then frames_buffered st
               = start st
                 + (if start st + overlap <? num_frames video_data then overlap else 0)
               /\ overlap <= Z.of_nat (length last_chunk)
          else frames_buffered st
               = returned_frames (num_frames video_data) chunk_size overlap.

End Invariants.
End Runs.

(** ** Notions for rounding errors and for the value before the cast *)

Module Margins.

(** Half a unit in the last place of a double at magnitude one: [2^-53]. *)
Definition eps : Q := 1 # 9007199254740992.

(** Lines 103-106 on one element, up to the cast to [uint8]. *)
Definition before_cast (rnd : Q -> Q) (x : Q) : Q :=
  rnd (255 * rnd (rnd (Emitter.clamp x (-1) 1 + 1) / 2))%Q.

End Margins.

(** ** The dataset: [RealVideoDataset] *)

Module Dataset.
Import String Ascii.
#[local] Open Scope string_scope.

(** [IndexError], raised by indexing a string or a list out of range. *)
Inductive lookup_error : Set := IndexError.

(** [name[0]] *)
Definition first_char (name : string) : lookup_error + string :=
  match name with
  | EmptyString => inl IndexError
  | String c _ => inr (String c EmptyString)
  end.

(** [path.endswith("/")] *)
Fixpoint endswith_sep (path : string) : bool :=
  match path with
  | EmptyString => false
  | String c EmptyString => Ascii.eqb c "/"
  | String _ rest => endswith_sep rest
  end.

(** [b.startswith("/")] *)
Definition startswith_sep (b : string) : bool :=
  match b with
  | String c _ => Ascii.eqb c "/"
  | EmptyString => false
  end.

(** [os.path.join(a, b)] (posixpath). *)
Definition join (a b : string) : string :=
  if startswith_sep b then b
  else if (String.eqb a "" || endswith_sep a)%bool then a ++ b
  else a ++ "/" ++ b.

(** [p.rfind("/")] scanning from position [i], with [found] the last
    position seen so far ([-1] for none). *)
Fixpoint rfind_sep (p : string) (i found : Z) : Z :=
  match p with
  | EmptyString => found
  | String c rest => rfind_sep rest (i + 1) (if Ascii.eqb c "/" then i else found)
  end.

(** [p[i:]] for [i >= 0] *)
Fixpoint drop (i : nat) (p : string) : string :=
  match i, p with
  | O, _ => p
  | S i', String _ rest => drop i' rest
  | S _, EmptyString => EmptyString
  end.

(** [os.path.basename(p)] (posixpath). *)
Definition basename (p : string) : string :=
  let i := rfind_sep p 0 (-1) + 1 in
  drop (Z.to_nat i) p.

(** Strings in the order of [str.__lt__], for [list.sort]. *)
Module PathOrder <: Orders.TotalLeBool.
Definition t := string.
Definition leb := String.leb.
Lemma leb_total : forall a b, leb a b = true \/ leb b a = true.
Proof. exact String.leb_total. Qed.
End PathOrder.

Module PathSort := Mergesort.Sort PathOrder.

(** Lines 194-198: the loop over the directory listing. *)
Fixpoint collect (folder_path prefix : string) (listing : list string)
    (folder : list string) : lookup_error + list string :=
  match listing with
  | [] => inr folder
  | name :: rest =>
      match first_char name with
      | inl e => inl e
      | inr c =>
          if String.eqb c prefix
          then collect folder_path prefix rest folder
          else collect folder_path prefix rest (folder ++ [join folder_path name])
      end
  end.

(** Lines 193-200; [listing] is what [os.listdir(folder_path)] returned. *)
Definition _combine_without_prefix (listing : list string)
    (folder_path prefix : string) : lookup_error + list string :=
  match collect folder_path prefix listing [] with
  | inl e => inl e
  | inr folder => inr (PathSort.sort folder)
  end.

Record RealVideoDataset := {
  real_video_files : list string;
  num_frames : Z;
  sample_rate : Z;
  crop_size : option Z;
  short_size : Z
}.

(** Lines 138-151. *)
Definition __init__ (listing : list string) (real_video_dir : string)
    (num_frames sample_rate : Z) (crop_size : option Z) (resolution : Z)
  : lookup_error + RealVideoDataset :=
  match _combine_without_prefix listing real_video_dir "." with
  | inl e => inl e
  | inr files =>
      inr {| real_video_files := files;
             num_frames := num_frames;
             sample_rate := sample_rate;
             crop_size := crop_size;
             short_size := resolution |}
  end.

Definition __len__ (self : RealVideoDataset) : Z :=
  Z.of_nat (List.length (real_video_files self)).

(** [l[i]] on a list: a negative index counts from the end. *)
Definition list_index {X : Type} (l : list X) (i : Z) : lookup_error + X :=
  let n := Z.of_nat (List.length l) in
  let j := if (i <? 0)%Z then i + n else i in
  if ((j <? 0)%Z || (n <=? j)%Z)%bool then inl IndexError
  else match nth_error l (Z.to_nat j) with
       | Some x => inr x
       | None => inl IndexError
       end.

(** Lines 156-162; [_load_video] is the decoding and preprocessing of one
    file. *)
Definition __getitem__ {V : Type} (_load_video : string -> V)
    (self : RealVideoDataset) (index : Z) : lookup_error + (V * string) :=
  if (index >=? __len__ self)%Z then inl IndexError
  else
    match list_index (real_video_files self) index with
    | inl e => inl e
    | inr real_video_file =>
        inr (_load_video real_video_file, basename real_video_file)
    end.

(** *** Notions the properties are stated with *)

(** A name that the listing loop keeps: its first character is not the
    prefix. *)
Definition visible (prefix name : string) : bool :=
  match first_char name with
  | inr c => negb (String.eqb c prefix)
  | inl _ => false
  end.

Fixpoint has_sep (s : string) : bool :=
  match s with
  | EmptyString => false
  | String c rest => (Ascii.eqb c "/" || has_sep rest)%bool
  end.

End Dataset.

(** * Properties *)

(** ** Slicing *)

Module PySliceFacts.
Import PySlice.

Lemma norm_index_range len i : 0 <= len -> 0 <= norm_index len i <= len.
Proof. unfold norm_index; destruct (Z.ltb_spec i 0); lia. Qed.

(** The length of a slice depends on the length of the axis alone. *)
Lemma slice_length {X} lo hi (x : list X) :
  length (slice lo hi x) =
  Z.to_nat (snd (bounds (Z.of_nat (length x)) lo hi)
            - fst (bounds (Z.of_nat (length x)) lo hi)).
Proof.
  unfold slice, bounds; cbn [fst snd].
  set (len := Z.of_nat (length x)).
  assert (Hlen : 0 <= len) by (subst len; lia).
  set (a := match lo with None => 0 | Some i => norm_index len i end).
  set (b := match hi with None => len | Some j => norm_index len j end).
  assert (Ha : 0 <= a <= len)
    by (subst a; destruct lo; [apply norm_index_range; lia | lia]).
  assert (Hb : 0 <= b <= len)
    by (subst b; destruct hi; [apply norm_index_range; lia | lia]).
  rewrite length_firstn, length_skipn. subst len. lia.
Qed.

(** [x[0:len(x)]] is [x]. *)
Lemma slice_whole {X} (x : list X) :
  slice (Some 0) (Some (Z.of_nat (length x))) x = x.
Proof.
  unfold slice, bounds, norm_index.
  destruct (Z.ltb_spec (Z.of_nat (length x)) 0); [lia|].
  cbn. rewrite Z.min_id, Z.min_l by lia.
  rewrite Z.sub_0_r, Nat2Z.id. apply firstn_all.
Qed.

(** [x[-k:]] for [1 <= k <= len(x)]: the last [k] elements. *)
Lemma slice_last {X} k (x : list X) :
  1 <= k <= Z.of_nat (length x) ->
  slice (Some (- k)) None x = skipn (length x - Z.to_nat k) x.
Proof.
  intros Hk. unfold slice, bounds, norm_index.
  destruct (Z.ltb_spec (- k) 0); [|lia].
  rewrite Z.max_l by lia.
  replace (Z.to_nat (Z.of_nat (length x) + - k))
    with (length x - Z.to_nat k)%nat by lia.
  apply firstn_all2. rewrite length_skipn. lia.
Qed.

(** [x[:-k]] for [1 <= k]: all but the last [k] elements. *)
Lemma slice_but_last {X} k (x : list X) :
  1 <= k ->
  slice None (Some (- k)) x = firstn (length x - Z.to_nat k) x.
Proof.
  intros Hk. unfold slice, bounds, norm_index.
  destruct (Z.ltb_spec (- k) 0); [|lia].
  cbn [skipn Z.to_nat]. f_equal. lia.
Qed.

(** [x[:k]] for [0 <= k]: the first [k] elements. *)
Lemma slice_first {X} k (x : list X) :
  0 <= k -> slice None (Some k) x = firstn (Z.to_nat k) x.
Proof.
  intros Hk. unfold slice, bounds, norm_index.
  destruct (Z.ltb_spec k 0); [lia|].
  cbn [skipn Z.to_nat]. rewrite Z.sub_0_r.
  destruct (Z.min_spec k (Z.of_nat (length x))) as [[? ->]|[? ->]]; [reflexivity|].
  rewrite Nat2Z.id, firstn_all. symmetry. apply firstn_all2. lia.
Qed.

End PySliceFacts.

(** ** The driver *)

Module DriverFacts.
Import PySlice PySliceFacts Driver.

Lemma unsnoc_snoc {X} (l : list X) (x : X) : unsnoc (l ++ [x]) = Some (l, x).
Proof. induction l as [|y l IH]; cbn; [reflexivity | now rewrite IH]. Qed.

Lemma unsnoc_inv {X} (l init : list X) (x : X) :
  unsnoc l = Some (init, x) -> l = init ++ [x].
Proof.
  revert init; induction l as [|y l IH]; cbn; intros init E; [discriminate|].
  destruct (unsnoc l) as [[i z]|] eqn:El.
  - inversion E; subst. cbn. f_equal. now apply IH.
  - inversion E; subst. destruct l; [reflexivity|].
    cbn in El. destruct (unsnoc l) as [[? ?]|]; discriminate.
Qed.

Lemma unsnoc_nil_inv {X} (l : list X) : unsnoc l = None -> l = [].
Proof.
  destruct l as [|y l]; cbn; [reflexivity|].
  destruct (unsnoc l) as [[? ?]|]; discriminate.
Qed.

Section Facts.
Context {A : Type} `{TensorArith A}.
Variable model : list A -> list A.
Variable video_data : list A.
Variables chunk_size overlap : Z.

#[local] Abbreviation body := (loop_body model video_data chunk_size overlap).
#[local] Abbreviation loop := (while_loop model video_data chunk_size overlap).
#[local] Abbreviation T := (num_frames video_data).

(** More fuel does not change a run that ended. *)
Lemma while_loop_more_fuel fuel extra st r :
  loop fuel st = Some r -> loop (fuel + extra) st = Some r.
Proof.
  revert st; induction fuel as [|fuel IH]; cbn; intros st E; [discriminate|].
  destruct (start st <? T); [|exact E].
  destruct (body st) as [err|st']; [exact E | now apply IH].
Qed.

(** Every iteration hands one window to the codec. *)
Lemma loop_body_calls st st' :
  body st = inr st' ->
  length (codec_calls (log st')) = S (length (codec_calls (log st))).
Proof.
  unfold loop_body. intros E.
  destruct (unsnoc (output_chunks st)) as [[earlier last_chunk]|].
  - destruct (overlap_tensor _ _ _); inversion E; subst; cbn.
    rewrite length_app; cbn; lia.
  - inversion E; subst; cbn. rewrite length_app; cbn; lia.
Qed.

(** The loop raises nothing but torch's size-mismatch error. *)
Lemma tensor_add_raises (x y : list A) e : tensor_add x y = inl e -> e = RuntimeError.
Proof.
  unfold tensor_add. destruct (length x =? length y)%nat; [discriminate|].
  destruct x as [|a [|a' x]]; destruct y as [|b [|b' y]]; intros E;
    inversion E; reflexivity.
Qed.

Lemma loop_body_raises st e tr : body st = inl (e, tr) -> e = RuntimeError.
Proof.
  unfold loop_body, overlap_tensor. intros E.
  destruct (unsnoc (output_chunks st)) as [[earlier last_chunk]|]; [|discriminate].
  destruct (tensor_add _ _) as [e'|blended] eqn:Et; inversion E; subst.
  eapply tensor_add_raises; eauto.
Qed.

Lemma while_loop_raises fuel st e tr :
  loop fuel st = Some (inl (e, tr)) -> e = RuntimeError.
Proof.
  revert st; induction fuel as [|fuel IH]; cbn; intros st E; [discriminate|].
  destruct (start st <? T); [|discriminate].
  destruct (body st) as [[e' tr']|st'] eqn:Eb.
  - inversion E; subst. eapply loop_body_raises; eauto.
  - eapply IH; eauto.
Qed.

Lemma last_nonempty_default {X} (x : X) (l : list X) (d d' : X) :
  last (x :: l) d = last (x :: l) d'.
Proof.
  revert x; induction l as [|y l IH]; intros x; [reflexivity|].
  cbn [last]. apply IH.
Qed.

Lemma reached_step fuel st :
  reached model video_data chunk_size overlap (S fuel) st =
    if start st <? T then
      match body st with
      | inl _ => st
      | inr st' => reached model video_data chunk_size overlap fuel st'
      end
    else st.
Proof.
  unfold reached. cbn [trajectory].
  destruct (start st <? T); [|reflexivity].
  destruct (body st) as [err|st']; [reflexivity|].
  destruct fuel; cbn [trajectory last]; [reflexivity | apply last_nonempty_default].
Qed.

Lemma process_in_chunks_more_fuel fuel extra r :
  loop fuel initial = Some r ->
  process_in_chunks model video_data chunk_size overlap (fuel + extra)
  = process_in_chunks model video_data chunk_size overlap fuel.
Proof.
  intros E. unfold process_in_chunks.
  now rewrite (while_loop_more_fuel fuel extra _ _ E), E.
Qed.

(** Adding the scaled tensors frame by frame is blending frame by frame. *)
Lemma zip_add_scale (x y : list A) :
  zip_add (scale x 1 4) (scale y 3 4) = map2 blend x y.
Proof.
  revert y; induction x as [|a x IH]; intros [|b y]; cbn; try reflexivity.
  unfold blend at 1. f_equal. apply IH.
Qed.

(** The overlap tensor when nothing is broadcast: the last [step] frames of
    the previous entry blended with the first [step] frames of the chunk. *)
Lemma overlap_tensor_blend (previous recon_chunk : list A) :
  1 <= overlap_step overlap recon_chunk <= Z.of_nat (length previous) ->
  overlap_tensor overlap previous recon_chunk
  = inr (map2 blend
           (last_n (Z.to_nat (overlap_step overlap recon_chunk)) previous)
           (firstn (Z.to_nat (overlap_step overlap recon_chunk)) recon_chunk)).
Proof.
  intros Hstep. unfold overlap_tensor.
  set (step := overlap_step overlap recon_chunk) in *.
  assert (Hrecon : step <= Z.of_nat (length recon_chunk))
    by (subst step; unfold overlap_step; lia).
  rewrite slice_last, slice_first by lia.
  unfold tensor_add, scale. rewrite !length_map, length_skipn, length_firstn.
  replace (length previous - (length previous - Z.to_nat step) =?
           Nat.min (Z.to_nat step) (length recon_chunk))%nat with true
    by (symmetry; apply Nat.eqb_eq; lia).
  f_equal. apply zip_add_scale.
Qed.

(** Each iteration moves the cursor by [chunk_size]. *)
Lemma loop_body_start st st' : body st = inr st' -> start st' = start st + chunk_size.
Proof.
  unfold loop_body. intros E.
  destruct (unsnoc (output_chunks st)) as [[earlier last_chunk]|].
  - destruct (overlap_tensor _ _ _); inversion E; subst; reflexivity.
  - inversion E; subst; reflexivity.
Qed.

(** With a positive [chunk_size] the loop ends: fuel beyond the number of
    frames left is never used up. *)
Lemma while_loop_terminates fuel st :
  1 <= chunk_size ->
  (Z.to_nat (T - start st) < fuel)%nat ->
  loop fuel st <> None.
Proof.
  intros Hcs. revert st; induction fuel as [|fuel IH]; intros st Hfuel; [lia|].
  cbn [while_loop].
  destruct (Z.ltb_spec (start st) T) as [Hlt|Hge]; [|discriminate].
  destruct (body st) as [err|st'] eqn:E; [discriminate|].
  apply IH. rewrite (loop_body_start _ _ E). lia.
Qed.

Lemma process_in_chunks_terminates fuel :
  1 <= chunk_size ->
  (length video_data < fuel)%nat ->
  forall tr, process_in_chunks model video_data chunk_size overlap fuel <> OutOfFuel tr.
Proof.
  intros Hcs Hfuel tr. unfold process_in_chunks.
  destruct (negb _); [discriminate|].
  pose proof (while_loop_terminates fuel initial Hcs) as W.
  destruct (loop fuel initial) as [[[e tr']|st]|].
  - discriminate.
  - destruct (output_chunks st); discriminate.
  - exfalso. apply W; [|reflexivity].
    cbn [start initial]. unfold num_frames. lia.
Qed.

(** The first iteration on an empty buffer. *)
Lemma loop_body_first st :
  output_chunks st = [] ->
  body st =
    inr {| start := start st + chunk_size;
           output_chunks :=
             [model (slice (Some (start st))
                           (Some (window_end video_data chunk_size overlap (start st)))
                           video_data)];
           log := {| codec_calls :=
                       codec_calls (log st)
                         ++ [slice (Some (start st))
                                   (Some (window_end video_data chunk_size overlap (start st)))
                                   video_data];
                     blend_spans := blend_spans (log st);
                     blend_frames := blend_frames (log st) |} |}.
Proof. unfold loop_body. intros ->. reflexivity. Qed.

End Facts.

End DriverFacts.

(** *** Blend spans *)

Module SpanFacts.
Import Driver.

Lemma chained_weaken spans bound bound' :
  chained spans bound -> (bound <= bound')%nat -> chained spans bound'.
Proof.
  intros C Hle. destruct C as [b | spans b lo hi b' C Hlo Hhi Hb].
  - constructor.
  - econstructor; eauto. lia.
Qed.

Lemma chained_below spans bound :
  chained spans bound ->
  forall i a, nth_error spans i = Some a -> (fst a <= snd a <= bound)%nat.
Proof.
  induction 1 as [b | spans b lo hi b' C IH Hlo Hhi Hb]; intros i a E.
  - destruct i; discriminate.
  - destruct (Nat.lt_ge_cases i (length spans)) as [Hi|Hi].
    + rewrite nth_error_app1 in E by exact Hi. specialize (IH i a E). lia.
    + rewrite nth_error_app2 in E by exact Hi.
      destruct (i - length spans)%nat as [|k]; cbn in E.
      * inversion E; subst; cbn. lia.
      * destruct k; discriminate.
Qed.

Lemma chained_disjoint spans bound : chained spans bound -> spans_disjoint spans.
Proof.
  induction 1 as [b | spans b lo hi b' C IH Hlo Hhi Hb]; intros i j x y p Hij Ei Ej.
  - destruct i; discriminate.
  - pose proof (chained_below _ _ C) as Below.
    destruct (Nat.lt_ge_cases i (length spans)) as [Hi|Hi];
      destruct (Nat.lt_ge_cases j (length spans)) as [Hj|Hj].
    + rewrite nth_error_app1 in Ei, Ej by assumption. eapply IH; eauto.
    + rewrite nth_error_app1 in Ei by assumption.
      rewrite nth_error_app2 in Ej by assumption.
      destruct (j - length spans)%nat as [|k]; cbn in Ej;
        [inversion Ej; subst; cbn | destruct k; discriminate].
      specialize (Below i x Ei). lia.
    + rewrite nth_error_app2 in Ei by assumption.
      rewrite nth_error_app1 in Ej by assumption.
      destruct (i - length spans)%nat as [|k]; cbn in Ei;
        [inversion Ei; subst; cbn | destruct k; discriminate].
      specialize (Below j y Ej). lia.
    + rewrite nth_error_app2 in Ei, Ej by assumption.
      assert (length spans < length (spans ++ [(lo, hi)]))%nat
        by (rewrite length_app; cbn; lia).
      assert (i < length (spans ++ [(lo, hi)]))%nat.
      { destruct (i - length spans)%nat as [|[|k]] eqn:D; cbn in Ei; try discriminate.
        rewrite length_app; cbn; lia. }
      assert (j < length (spans ++ [(lo, hi)]))%nat.
      { destruct (j - length spans)%nat as [|[|k]] eqn:D; cbn in Ej; try discriminate.
        rewrite length_app; cbn; lia. }
      rewrite length_app in *; cbn in *. lia.
Qed.

Section Invariant.
Context {A : Type} `{TensorArith A}.
Variable model : list A -> list A.
Variable video_data : list A.
Variables chunk_size overlap : Z.

#[local] Abbreviation body := (loop_body model video_data chunk_size overlap).
#[local] Abbreviation loop := (while_loop model video_data chunk_size overlap).
#[local] Abbreviation path := (trajectory model video_data chunk_size overlap).

(** The spans logged so far lie, one after the other, in the settled part
    of the output. *)
Lemma loop_body_chained st st' :
  chained (blend_spans (log st)) (settled st) ->
  body st = inr st' ->
  chained (blend_spans (log st')) (settled st').
Proof.
  unfold loop_body, settled. intros C E.
  destruct (unsnoc (output_chunks st)) as [[earlier last_chunk]|].
  - destruct (overlap_tensor _ _ _) as [e|blended]; inversion E; subst; clear E.
    cbn [output_chunks log blend_spans].
    change (earlier ++ [?x; ?y]) with (earlier ++ [x] ++ [y]).
    rewrite app_assoc, DriverFacts.unsnoc_snoc.
    rewrite concat_app, !length_app; cbn [concat length]. rewrite app_nil_r, length_app.
    econstructor; [exact C | lia | lia | lia].
  - inversion E; subst; clear E. cbn. eapply chained_weaken; [exact C | lia].
Qed.

Lemma loop_body_raise_spans st e tr :
  body st = inl (e, tr) -> blend_spans tr = blend_spans (log st).
Proof.
  unfold loop_body. intros E.
  destruct (unsnoc (output_chunks st)) as [[earlier last_chunk]|].
  - destruct (overlap_tensor _ _ _); inversion E; subst; reflexivity.
  - discriminate.
Qed.

Lemma while_loop_chained fuel st :
  chained (blend_spans (log st)) (settled st) ->
  match loop fuel st with
  | Some (inl (_, tr)) => exists bound, chained (blend_spans tr) bound
  | Some (inr st') => chained (blend_spans (log st')) (settled st')
  | None => True
  end.
Proof.
  revert st; induction fuel as [|fuel IH]; cbn; intros st C; [exact I|].
  destruct (start st <? num_frames video_data); [|exact C].
  destruct (body st) as [[e tr]|st'] eqn:E.
  - exists (settled st). now rewrite (loop_body_raise_spans _ _ _ E).
  - apply IH. eapply loop_body_chained; eauto.
Qed.

Lemma trajectory_chained fuel st :
  chained (blend_spans (log st)) (settled st) ->
  Forall (fun s => chained (blend_spans (log s)) (settled s)) (path fuel st).
Proof.
  revert st; induction fuel as [|fuel IH]; cbn; intros st C.
  - constructor; [exact C | constructor].
  - constructor; [exact C|].
    destruct (start st <? num_frames video_data); [|constructor].
    destruct (body st) as [[e tr]|st'] eqn:E; [constructor|].
    apply IH. eapply loop_body_chained; eauto.
Qed.

Lemma Forall_last {X} (P : X -> Prop) (l : list X) (d : X) :
  Forall P l -> P d -> P (last l d).
Proof.
  induction 1 as [|x l Px F IH]; intros Pd; [exact Pd|].
  destruct l as [|y l]; [exact Px|]. now apply IH.
Qed.

Lemma reached_chained fuel st :
  chained (blend_spans (log st)) (settled st) ->
  chained (blend_spans (log (reached model video_data chunk_size overlap fuel st)))
          (settled (reached model video_data chunk_size overlap fuel st)).
Proof.
  intros C. unfold reached.
  apply (Forall_last (fun s => chained (blend_spans (log s)) (settled s)));
    [now apply trajectory_chained | exact C].
Qed.

(** Whatever way the run ends, the spans of its trace are chained. *)
Lemma process_in_chunks_chained fuel :
  exists bound,
    chained (blend_spans
               (trace_of (process_in_chunks model video_data chunk_size overlap fuel)))
            bound.
Proof.
  unfold process_in_chunks.
  destruct (negb _); [exists O; constructor|].
  assert (C0 : chained (blend_spans (log (@initial A))) (settled (@initial A)))
    by constructor.
  pose proof (while_loop_chained fuel _ C0) as W.
  destruct (loop fuel initial) as [[[e tr]|st]|].
  - exact W.
  - destruct (output_chunks st); cbn; eauto.
  - cbn. eexists. now apply reached_chained.
Qed.

Lemma settled_le (st : @loop_state A) : (settled st <= length (concat (output_chunks st)))%nat.
Proof.
  unfold settled. destruct (unsnoc (output_chunks st)) as [[earlier last_chunk]|] eqn:E; [|lia].
  apply DriverFacts.unsnoc_inv in E. rewrite E, concat_app, length_app. lia.
Qed.

(** In a run that returned, the spans are ranges of positions of the output. *)
Lemma process_in_chunks_returned_chained fuel (out : list A) tr :
  process_in_chunks model video_data chunk_size overlap fuel = Returned out tr ->
  chained (blend_spans tr) (length out).
Proof.
  unfold process_in_chunks.
  destruct (negb _); [discriminate|].
  assert (C0 : chained (blend_spans (log (@initial A))) (settled (@initial A)))
    by constructor.
  pose proof (while_loop_chained fuel _ C0) as W.
  destruct (loop fuel initial) as [[[e tr']|st]|]; try discriminate.
  destruct (output_chunks st) as [|c cs] eqn:Eo; [discriminate|].
  intros E. injection E as Hout Htr. subst out tr.
  eapply chained_weaken; [exact W|].
  pose proof (settled_le st) as L. rewrite Eo in L. exact L.
Qed.

(** *** The blended frames stay where the blend put them *)

Lemma frames_at_app {X} (span : nat * nat) (l r : list X) :
  (snd span <= length l)%nat -> frames_at span (l ++ r) = frames_at span l.
Proof.
  intros Hs. unfold frames_at.
  destruct (Nat.le_gt_cases (fst span) (snd span)) as [Hle|Hgt].
  - rewrite skipn_app, firstn_app, length_skipn.
    replace (snd span - fst span - (length l - fst span))%nat with O by lia.
    replace (fst span - length l)%nat with O by lia.
    cbn [firstn skipn]. now rewrite app_nil_r.
  - now replace (snd span - fst span)%nat with O by lia.
Qed.

Lemma frames_at_exact {X} (pre mid post : list X) :
  frames_at (length pre, (length pre + length mid)%nat) (pre ++ mid ++ post) = mid.
Proof.
  unfold frames_at; cbn [fst snd].
  rewrite skipn_app, Nat.sub_diag, skipn_all. cbn [skipn app].
  replace (length pre + length mid - length pre)%nat with (length mid) by lia.
  rewrite firstn_app, firstn_all, Nat.sub_diag. cbn [firstn]. apply app_nil_r.
Qed.

(** The spans lie in the settled part of the buffer and hold their frames. *)
#[local] Abbreviation placed st :=
  (Forall2 (fun span frames =>
              le (snd span) (settled st)
              /\ frames_at span (concat (output_chunks st)) = frames)
           (blend_spans (log st)) (blend_frames (log st))).

Lemma loop_body_placed st st' : placed st -> body st = inr st' -> placed st'.
Proof.
  unfold loop_body, settled. intros P E.
  destruct (unsnoc (output_chunks st)) as [[earlier last_chunk]|] eqn:U.
  - destruct (overlap_tensor _ _ _) as [e|blended]; inversion E; subst; clear E.
    apply DriverFacts.unsnoc_inv in U.
    cbn [output_chunks log blend_spans blend_frames].
    change (earlier ++ [?x; ?y]) with (earlier ++ [x] ++ [y]).
    rewrite app_assoc, DriverFacts.unsnoc_snoc.
    rewrite U, concat_app in P. cbn [concat] in P. rewrite app_nil_r in P.
    rewrite !concat_app. cbn [concat]. rewrite app_nil_r.
    set (kept := PySlice.slice None (Some (- overlap)) last_chunk) in *.
    apply Forall2_app.
    + eapply Forall2_impl; [|exact P]. cbv beta. intros span frames [Hs Hf].
      split; [rewrite length_app, !length_app; lia|].
      rewrite <- !app_assoc, frames_at_app by exact Hs.
      rewrite frames_at_app in Hf by exact Hs. exact Hf.
    + constructor; [|constructor]. cbn [fst snd]. split.
      * rewrite !length_app. cbn [length]. lia.
      * rewrite <- length_app.
        match goal with
        | |- frames_at _ ((_ ++ _ ++ _) ++ ?post) = _ =>
            replace ((concat earlier ++ kept ++ blended) ++ post)
              with ((concat earlier ++ kept) ++ blended ++ post)
              by (now rewrite <- !app_assoc)
        end.
        apply frames_at_exact.
  - inversion E; subst; clear E.
    apply DriverFacts.unsnoc_nil_inv in U. rewrite U in P.
    cbn [output_chunks log blend_spans blend_frames unsnoc concat].
    eapply Forall2_impl; [|exact P]. cbv beta. intros span frames [Hs Hf].
    split; [lia|]. rewrite <- Hf. unfold frames_at.
    now replace (snd span - fst span)%nat with O by lia.
Qed.

Lemma while_loop_placed fuel st st' :
  placed st -> loop fuel st = Some (inr st') -> placed st'.
Proof.
  revert st; induction fuel as [|fuel IH]; cbn; intros st P E; [discriminate|].
  destruct (start st <? num_frames video_data).
  - destruct (body st) as [[e tr]|st1] eqn:Eb; [discriminate|].
    eapply IH; [|exact E]. eapply loop_body_placed; eauto.
  - inversion E; subst. exact P.
Qed.

(** In a run that returned, every span holds the frames its blend made. *)
Lemma process_in_chunks_blends_in_place fuel (out : list A) tr :
  process_in_chunks model video_data chunk_size overlap fuel = Returned out tr ->
  blends_in_place out tr.
Proof.
  unfold process_in_chunks.
  destruct (negb _); [discriminate|].
  destruct (loop fuel initial) as [[[e tr']|st]|] eqn:E; try discriminate.
  assert (P0 : placed (@initial A)) by (cbn; constructor).
  assert (P : placed st) by (eapply while_loop_placed; [exact P0 | exact E]).
  destruct (output_chunks st) as [|c cs] eqn:Eo; [discriminate|].
  intros R. injection R as Hout Htr. subst out tr.
  unfold blends_in_place.
  eapply Forall2_impl; [|exact P]. cbv beta. intros span frames [_ Hf]. exact Hf.
Qed.

End Invariant.
End SpanFacts.

(** *** Runs seen through the lengths of their tensors *)

Module ShapeFacts.
Import PySlice PySliceFacts Driver DriverFacts.

Lemma slice_same_length {X Y} lo hi (x : list X) (y : list Y) :
  length x = length y -> length (slice lo hi x) = length (slice lo hi y).
Proof. intros E. now rewrite !slice_length, E. Qed.

Lemma unsnoc_same_shape {X Y} (l : list (list X)) (l' : list (list Y)) :
  map (@length X) l = map (@length Y) l' ->
  match unsnoc l, unsnoc l' with
  | None, None => True
  | Some (i, x), Some (i', x') =>
      map (@length X) i = map (@length Y) i' /\ length x = length x'
  | _, _ => False
  end.
Proof.
  revert l'; induction l as [|c l IH]; intros [|c' l'] E; cbn in *;
    try discriminate; [exact I|].
  injection E as Ec El. specialize (IH l' El).
  destruct (unsnoc l) as [[i x]|], (unsnoc l') as [[i' x']|]; try contradiction.
  - destruct IH; split; cbn; congruence.
  - split; [reflexivity | exact Ec].
Qed.

Lemma zip_add_length {A} `{TensorArith A} (x y : list A) :
  length (zip_add x y) = Nat.min (length x) (length y).
Proof.
  revert y; induction x as [|a x IH]; intros [|b y]; cbn; try reflexivity.
  now rewrite IH.
Qed.

Lemma concat_same_length {X Y} (l : list (list X)) (l' : list (list Y)) :
  map (@length X) l = map (@length Y) l' -> length (concat l) = length (concat l').
Proof.
  revert l'; induction l as [|c l IH]; intros [|c' l'] E; cbn in *;
    try discriminate; [reflexivity|].
  injection E as Ec El. rewrite !length_app, Ec. f_equal. now apply IH.
Qed.

Section TwoRuns.
Context {A B : Type} {arithA : TensorArith A} {arithB : TensorArith B}.
Variable modelA : list A -> list A.
Variable modelB : list B -> list B.
Hypothesis models_agree :
  forall w w', length w = length w' -> length (modelA w) = length (modelB w').
Variable videoA : list A.
Variable videoB : list B.
Hypothesis videos_agree : length videoA = length videoB.
Variables chunk_size overlap : Z.

Lemma tensor_add_same_shape (x y : list A) (x' y' : list B) :
  length x = length x' -> length y = length y' ->
  match tensor_add x y, tensor_add x' y' with
  | inl e, inl e' => e = e'
  | inr r, inr r' => length r = length r'
  | _, _ => False
  end.
Proof.
  intros Ex Ey. unfold tensor_add. rewrite <- Ex, <- Ey.
  destruct (length x =? length y)%nat.
  - rewrite !zip_add_length. lia.
  - destruct x as [|a [|a2 x]]; destruct x' as [|b [|b2 x']]; try discriminate;
      destruct y as [|c [|c2 y]]; destruct y' as [|d [|d2 y']]; try discriminate;
      cbn in *; rewrite ?length_map; cbn; try reflexivity; lia.
Qed.

Lemma num_frames_agree : num_frames videoA = num_frames videoB.
Proof. unfold num_frames. now rewrite videos_agree. Qed.

Lemma window_end_agree s :
  window_end videoA chunk_size overlap s = window_end videoB chunk_size overlap s.
Proof. unfold window_end. now rewrite num_frames_agree. Qed.

Lemma overlap_tensor_same_shape (p r : list A) (p' r' : list B) :
  length p = length p' -> length r = length r' ->
  match overlap_tensor overlap p r, overlap_tensor overlap p' r' with
  | inl e, inl e' => e = e'
  | inr t, inr t' => length t = length t'
  | _, _ => False
  end.
Proof.
  intros Ep Er. unfold overlap_tensor, overlap_step, scale. rewrite <- Er.
  apply tensor_add_same_shape; rewrite !length_map; now apply slice_same_length.
Qed.

Lemma loop_body_same_shape (st : @loop_state A) (st' : @loop_state B) :
  state_shape st = state_shape st' ->
  match loop_body modelA videoA chunk_size overlap st,
        loop_body modelB videoB chunk_size overlap st' with
  | inl (e, tr), inl (e', tr') => e = e' /\ trace_shape tr = trace_shape tr'
  | inr s, inr s' => state_shape s = state_shape s'
  | _, _ => False
  end.
Proof.
  unfold state_shape, trace_shape. intros E.
  injection E as Es Eo Ec Eb.
  unfold loop_body. rewrite <- Es, <- window_end_agree, <- num_frames_agree.
  set (end_ := window_end videoA chunk_size overlap (start st)).
  assert (Echunk : length (slice (Some (start st)) (Some end_) videoA)
                   = length (slice (Some (start st)) (Some end_) videoB))
    by now apply slice_same_length.
  pose proof (models_agree _ _ Echunk) as Erecon.
  pose proof (unsnoc_same_shape _ _ Eo) as U.
  destruct (unsnoc (output_chunks st)) as [[earlier p]|],
           (unsnoc (output_chunks st')) as [[earlier' p']|]; try contradiction.
  - destruct U as [Ee Ep].
    pose proof (overlap_tensor_same_shape p _ p' _ Ep Erecon) as O.
    destruct (overlap_tensor overlap p _) as [e|t],
             (overlap_tensor overlap p' _) as [e'|t']; try contradiction.
    + split; [exact O|]. cbn [codec_calls blend_spans].
      rewrite !map_app, Ec, Eb. cbn [map]. now rewrite Echunk.
    + cbn [start output_chunks log codec_calls blend_spans].
      rewrite !map_app, Ec, Eb, Ee. cbn [map].
      rewrite !length_app, O, Echunk.
      rewrite (slice_same_length None (Some (- overlap)) p p' Ep).
      rewrite (concat_same_length _ _ Ee).
      destruct (end_ <? num_frames videoA);
        [rewrite (slice_same_length (Some overlap) None _ _ Erecon)|rewrite Erecon];
        reflexivity.
  - cbn [start output_chunks log codec_calls blend_spans].
    rewrite !map_app, Ec, Eb. cbn [map]. now rewrite Echunk, Erecon.
Qed.

Lemma while_loop_same_shape fuel (st : @loop_state A) (st' : @loop_state B) :
  state_shape st = state_shape st' ->
  match while_loop modelA videoA chunk_size overlap fuel st,
        while_loop modelB videoB chunk_size overlap fuel st' with
  | None, None => True
  | Some (inl (e, tr)), Some (inl (e', tr')) => e = e' /\ trace_shape tr = trace_shape tr'
  | Some (inr s), Some (inr s') => state_shape s = state_shape s'
  | _, _ => False
  end.
Proof.
  revert st st'; induction fuel as [|fuel IH]; cbn; intros st st' E; [exact I|].
  assert (Es : start st = start st') by (unfold state_shape in E; congruence).
  rewrite <- Es, <- num_frames_agree.
  destruct (start st <? num_frames videoA); [|exact E].
  pose proof (loop_body_same_shape st st' E) as L.
  destruct (loop_body modelA videoA chunk_size overlap st) as [[e tr]|s],
           (loop_body modelB videoB chunk_size overlap st') as [[e' tr']|s'];
    try contradiction; [exact L | now apply IH].
Qed.

Lemma reached_same_shape fuel (st : @loop_state A) (st' : @loop_state B) :
  state_shape st = state_shape st' ->
  state_shape (reached modelA videoA chunk_size overlap fuel st)
  = state_shape (reached modelB videoB chunk_size overlap fuel st').
Proof.
  revert st st'; induction fuel as [|fuel IH]; intros st st' E; [exact E|].
  assert (Es : start st = start st') by (unfold state_shape in E; congruence).
  rewrite !reached_step, <- Es, <- num_frames_agree.
  destruct (start st <? num_frames videoA); [|exact E].
  pose proof (loop_body_same_shape st st' E) as L.
  destruct (loop_body modelA videoA chunk_size overlap st) as [[e tr]|s],
           (loop_body modelB videoB chunk_size overlap st') as [[e' tr']|s'];
    try contradiction; [exact E | now apply IH].
Qed.

(** Two runs on inputs of one length, with codecs that return outputs of
    one length, end the same way with traces of one shape. *)
Lemma process_in_chunks_same_shape fuel :
  shape_of (process_in_chunks modelA videoA chunk_size overlap fuel)
  = shape_of (process_in_chunks modelB videoB chunk_size overlap fuel).
Proof.
  unfold process_in_chunks.
  destruct (negb _); [reflexivity|].
  assert (E0 : state_shape (@initial A) = state_shape (@initial B)) by reflexivity.
  pose proof (while_loop_same_shape fuel _ _ E0) as W.
  pose proof (reached_same_shape fuel _ _ E0) as R.
  destruct (while_loop modelA videoA chunk_size overlap fuel initial) as [[[e tr]|s]|],
           (while_loop modelB videoB chunk_size overlap fuel initial) as [[[e' tr']|s']|];
    try contradiction.
  - destruct W as [-> W]. cbn. now rewrite W.
  - unfold state_shape in W. injection W as _ Wo Wc Wb.
    pose proof (concat_same_length _ _ Wo) as Wl.
    destruct (output_chunks s) as [|c l], (output_chunks s') as [|c' l'];
      try discriminate; unfold shape_of, trace_shape.
    + now rewrite Wc, Wb.
    + now rewrite Wl, Wc, Wb.
  - unfold state_shape in R. injection R as _ _ Rc Rb.
    unfold shape_of, trace_shape. now rewrite Rc, Rb.
Qed.

End TwoRuns.

(** With a codec that returns as many frames as it is given, the shape of a
    run is the shape of the run on blank frames with the identity codec. *)
Lemma process_in_chunks_shape {A} `{TensorArith A}
    (model : list A -> list A) (video_data : list A) chunk_size overlap fuel :
  (forall w, length (model w) = length w) ->
  shape_of (process_in_chunks model video_data chunk_size overlap fuel)
  = shape_of (process_in_chunks (fun w : list unit => w)
                (blank (length video_data)) chunk_size overlap fuel).
Proof.
  intros Hlen. apply process_in_chunks_same_shape.
  - intros w w' E. now rewrite Hlen.
  - unfold blank. now rewrite repeat_length.
Qed.

Lemma output_length_of_shape {A} (o : outcome A) :
  output_length o =
    match fst (shape_of o) with VReturned n => Some n | _ => None end.
Proof. destruct o; reflexivity. Qed.

Lemma run_counts_of_shape {A} (o : outcome A) :
  run_counts o =
    match shape_of o with
    | (VReturned _, (windows, spans)) => Some (length windows, length spans)
    | _ => None
    end.
Proof. destruct o; cbn; rewrite ?length_map; reflexivity. Qed.

End ShapeFacts.

(** ** Double-precision rounding *)

Module Float64Facts.
Import Float64.
#[local] Open Scope Q_scope.

(** Powers of two *)
Lemma pow2_pos e : 0 < pow2 e.
Proof. unfold pow2. apply Qpower_0_lt. reflexivity. Qed.

Lemma pow2_add a b : pow2 (a + b) == pow2 a * pow2 b.
Proof. unfold pow2. apply Qpower_plus. discriminate. Qed.

Lemma pow2_le a b : (a <= b)%Z -> pow2 a <= pow2 b.
Proof. intros. unfold pow2. apply Qpower_le_compat_l; [assumption | discriminate]. Qed.

Lemma pow2_lt_inv a b : pow2 a < pow2 b -> (a < b)%Z.
Proof. intros Hlt. exact (Qpower_lt_compat_l_inv 2 a b Hlt eq_refl). Qed.

Lemma pow2_Z (k : Z) : (0 <= k)%Z -> pow2 k == inject_Z (2 ^ k).
Proof. intros. unfold pow2. now rewrite Zpower_Qpower. Qed.

Lemma pow2_cancel a : pow2 a * pow2 (- a) == 1.
Proof. rewrite <- pow2_add, Z.add_opp_diag_r. reflexivity. Qed.

Lemma div_pow2 x e : x / pow2 e == x * pow2 (- e).
Proof.
  unfold Qdiv. apply Qmult_comp; [reflexivity|].
  unfold pow2. now rewrite Qpower_opp.
Qed.

(** Nearest integer *)
Lemma round_half_even_comp x y : x == y -> round_half_even x = round_half_even y.
Proof.
  intros E. unfold round_half_even.
  assert (Ef : Qfloor x = Qfloor y) by now rewrite E.
  rewrite Ef.
  assert (Ec : Qcompare (x - inject_Z (Qfloor y)) (1 # 2)
               = Qcompare (y - inject_Z (Qfloor y)) (1 # 2)) by now rewrite E.
  now rewrite Ec.
Qed.

Lemma round_half_even_Z k : round_half_even (inject_Z k) = k.
Proof.
  unfold round_half_even. rewrite Qfloor_Z.
  destruct (Qcompare_spec (inject_Z k - inject_Z k) (1 # 2)) as [E|L|G];
    [exfalso; lra | reflexivity | exfalso; lra].
Qed.

Lemma round_half_even_range x :
  (Qfloor x <= round_half_even x <= Qfloor x + 1)%Z.
Proof.
  unfold round_half_even.
  destruct (Qcompare _ _); [destruct (Z.even _)| |]; lia.
Qed.

Lemma round_half_even_mono x y : x <= y -> (round_half_even x <= round_half_even y)%Z.
Proof.
  intros Hxy. pose proof (Qfloor_resp_le x y Hxy) as Hf.
  pose proof (round_half_even_range x) as Rx.
  pose proof (round_half_even_range y) as Ry.
  destruct (Z.eq_dec (Qfloor x) (Qfloor y)) as [Ef|Nf]; [|lia].
  unfold round_half_even in *. rewrite Ef in *.
  destruct (Qcompare_spec (x - inject_Z (Qfloor y)) (1 # 2)) as [Ex|Lx|Gx];
    destruct (Qcompare_spec (y - inject_Z (Qfloor y)) (1 # 2)) as [Ey|Ly|Gy];
    try lia; try (exfalso; lra); destruct (Z.even (Qfloor y)); lia.
Qed.

Lemma Qnum_pos x : 0 < x -> (0 < Qnum x)%Z.
Proof. destruct x as [n d]. unfold Qlt; cbn. lia. Qed.

Lemma binade_spec x : 0 < x -> pow2 (binade x) <= x < pow2 (binade x + 1).
Proof.
  intros Hx. pose proof (Qnum_pos x Hx) as Hn.
  unfold binade; cbv zeta.
  set (a := Z.log2 (Qnum x)). set (b := Z.log2 (Z.pos (Qden x))).
  destruct (Z.log2_spec (Qnum x) Hn) as [La Ua]. fold a in La, Ua.
  destruct (Z.log2_spec (Z.pos (Qden x)) eq_refl) as [Lb Ub]. fold b in Lb, Ub.
  assert (Ha : (0 <= a)%Z) by apply Z.log2_nonneg.
  assert (Hb : (0 <= b)%Z) by apply Z.log2_nonneg.
  assert (Ex : x * inject_Z (Z.pos (Qden x)) == inject_Z (Qnum x)).
  { destruct x as [n d]. unfold Qeq, Qmult, inject_Z; cbn [Qnum Qden].
    rewrite Pos.mul_1_r. ring. }
  assert (QLa : pow2 a <= inject_Z (Qnum x)) by (rewrite pow2_Z, <- Zle_Qle; lia).
  assert (QUa : inject_Z (Qnum x) < pow2 a * 2).
  { change 2 with (pow2 1). rewrite <- pow2_add, pow2_Z, <- Zlt_Qlt; lia. }
  assert (QLb : pow2 b <= inject_Z (Z.pos (Qden x))) by (rewrite pow2_Z, <- Zle_Qle; lia).
  assert (QUb : inject_Z (Z.pos (Qden x)) < pow2 b * 2).
  { change 2 with (pow2 1). rewrite <- pow2_add, pow2_Z, <- Zlt_Qlt; lia. }
  assert (Eab : pow2 (a - b) * pow2 b == pow2 a)
    by (rewrite <- pow2_add; now replace (a - b + b)%Z with a by lia).
  assert (Eab1 : pow2 (a - b + 1) == pow2 (a - b) * 2)
    by (rewrite pow2_add; reflexivity).
  assert (Eab2 : pow2 (a - b - 1) * 2 == pow2 (a - b)).
  { change 2 with (pow2 1). rewrite <- pow2_add.
    now replace (a - b - 1 + 1)%Z with (a - b)%Z by lia. }
  pose proof (pow2_pos b) as Pb. pose proof (pow2_pos a) as Pa.
  pose proof (pow2_pos (a - b)) as Pab. pose proof (pow2_pos (a - b - 1)) as Pab1.
  assert (Up : x < pow2 (a - b + 1)).
  { revert Ex QLa QUa QLb QUb Eab Eab1 Pb Pa Pab.
    generalize (pow2 (a - b + 1)) (pow2 (a - b)) (pow2 a) (pow2 b)
               (inject_Z (Qnum x)) (inject_Z (Z.pos (Qden x))).
    intros E1 E0 A B N D Ex QLa QUa QLb QUb Eab Eab1 Pb Pa Pab.
    assert (x * B <= x * D) by nra.
    assert (E0 * 2 * B > x * B) by nra.
    nra. }
  assert (Lo : pow2 (a - b - 1) <= x).
  { revert Ex QLa QUa QLb QUb Eab Eab2 Pb Pa Pab Pab1.
    generalize (pow2 (a - b - 1)) (pow2 (a - b)) (pow2 a) (pow2 b)
               (inject_Z (Qnum x)) (inject_Z (Z.pos (Qden x))).
    intros E2 E0 A B N D Ex QLa QUa QLb QUb Eab Eab2 Pb Pa Pab Pab1.
    assert (x * D < x * (B * 2)) by nra.
    assert (E2 * (B * 2) <= x * (B * 2)) by nra.
    nra. }
  destruct (Qle_bool (pow2 (a - b)) x) eqn:Eb.
  - apply Qle_bool_iff in Eb. split; assumption.
  - assert (x < pow2 (a - b)).
    { destruct (Qlt_le_dec x (pow2 (a - b))); [assumption|].
      apply Qle_bool_iff in q. congruence. }
    replace (a - b - 1 + 1)%Z with (a - b)%Z by lia.
    split; assumption.
Qed.

Lemma binade_unique x e : pow2 e <= x < pow2 (e + 1) -> binade x = e.
Proof.
  intros [L U].
  assert (Hx : 0 < x) by (pose proof (pow2_pos e); lra).
  destruct (binade_spec x Hx) as [L' U'].
  assert (e < binade x + 1)%Z by (apply pow2_lt_inv; lra).
  assert (binade x < e + 1)%Z by (apply pow2_lt_inv; lra).
  lia.
Qed.

Lemma binade_mono x y : 0 < x -> x <= y -> (binade x <= binade y)%Z.
Proof.
  intros Hx Hxy.
  destruct (binade_spec x Hx) as [L _].
  destruct (binade_spec y ltac:(lra)) as [_ U].
  assert (binade x < binade y + 1)%Z by (apply pow2_lt_inv; lra).
  lia.
Qed.

Lemma ulp_exp_mono x y : 0 < x -> x <= y -> (ulp_exp x <= ulp_exp y)%Z.
Proof. intros Hx Hxy. pose proof (binade_mono x y Hx Hxy). unfold ulp_exp. lia. Qed.

(** The significand, before and after rounding. *)
Lemma significand_lt x : 0 < x -> x * pow2 (- ulp_exp x) < inject_Z (2 ^ 53).
Proof.
  intros Hx. destruct (binade_spec x Hx) as [_ U].
  assert (Hle : pow2 (binade x + 1) <= pow2 (ulp_exp x + 53))
    by (apply pow2_le; unfold ulp_exp; lia).
  rewrite (pow2_add (ulp_exp x) 53) in Hle. rewrite <- (pow2_Z 53) by lia.
  pose proof (pow2_cancel (ulp_exp x)) as C.
  pose proof (pow2_pos (ulp_exp x)) as P. pose proof (pow2_pos (- ulp_exp x)) as P'.
  revert U Hle C P P'.
  generalize (pow2 (binade x + 1)) (pow2 (ulp_exp x)) (pow2 (- ulp_exp x)) (pow2 53).
  intros B E E' K U Hle C P P'.
  assert (H1 : x < E * K) by lra.
  assert (H2 : x * E' < E * K * E') by (apply Qmult_lt_compat_r; assumption).
  assert (H3 : E * K * E' == K) by (rewrite <- (Qmult_1_r K) at 2; rewrite <- C; ring).
  lra.
Qed.

Lemma significand_ge x :
  0 < x -> (-1074 < ulp_exp x)%Z -> inject_Z (2 ^ 52) <= x * pow2 (- ulp_exp x).
Proof.
  intros Hx He. destruct (binade_spec x Hx) as [L _].
  assert (Eb : binade x = (ulp_exp x + 52)%Z) by (unfold ulp_exp in *; lia).
  rewrite Eb, pow2_add in L. rewrite <- (pow2_Z 52) by lia.
  pose proof (pow2_cancel (ulp_exp x)) as C.
  pose proof (pow2_pos (ulp_exp x)) as P. pose proof (pow2_pos (- ulp_exp x)) as P'.
  revert L C P P'.
  generalize (pow2 (ulp_exp x)) (pow2 (- ulp_exp x)) (pow2 52).
  intros E E' K L C P P'.
  assert (H2 : E * K * E' <= x * E') by (apply Qmult_le_compat_r; lra).
  assert (H3 : E * K * E' == K) by (rewrite <- (Qmult_1_r K) at 2; rewrite <- C; ring).
  lra.
Qed.

Lemma RN_pos_alt x :
  RN_pos x = inject_Z (round_half_even (x * pow2 (- ulp_exp x))) * pow2 (ulp_exp x).
Proof.
  unfold RN_pos. now rewrite (round_half_even_comp _ _ (div_pow2 x (ulp_exp x))).
Qed.

Lemma RN_pos_le x : 0 < x -> RN_pos x <= pow2 (ulp_exp x + 53).
Proof.
  intros Hx. rewrite RN_pos_alt, pow2_add.
  pose proof (significand_lt x Hx) as S.
  apply Qlt_le_weak, round_half_even_mono in S. rewrite round_half_even_Z in S.
  rewrite Zle_Qle, <- (pow2_Z 53) in S by lia.
  pose proof (pow2_pos (ulp_exp x)) as P.
  revert S P. generalize (inject_Z (round_half_even (x * pow2 (- ulp_exp x))))
                         (pow2 (ulp_exp x)) (pow2 53).
  intros; nra.
Qed.

Lemma RN_pos_ge x :
  0 < x -> (-1074 < ulp_exp x)%Z -> pow2 (ulp_exp x + 52) <= RN_pos x.
Proof.
  intros Hx He. rewrite RN_pos_alt, pow2_add.
  pose proof (significand_ge x Hx He) as S.
  apply round_half_even_mono in S. rewrite round_half_even_Z in S.
  rewrite Zle_Qle, <- (pow2_Z 52) in S by lia.
  pose proof (pow2_pos (ulp_exp x)) as P.
  revert S P. generalize (inject_Z (round_half_even (x * pow2 (- ulp_exp x))))
                         (pow2 (ulp_exp x)) (pow2 52).
  intros; nra.
Qed.

Lemma RN_pos_nonneg x : 0 < x -> 0 <= RN_pos x.
Proof.
  intros Hx. rewrite RN_pos_alt.
  pose proof (pow2_pos (ulp_exp x)) as P. pose proof (pow2_pos (- ulp_exp x)) as P'.
  assert (S : inject_Z 0 <= x * pow2 (- ulp_exp x)) by (change (inject_Z 0) with 0; nra).
  apply round_half_even_mono in S. rewrite round_half_even_Z in S.
  rewrite Zle_Qle in S. change (inject_Z 0) with 0 in S.
  revert S P. generalize (inject_Z (round_half_even (x * pow2 (- ulp_exp x))))
                         (pow2 (ulp_exp x)).
  intros; nra.
Qed.

Lemma RN_pos_mono x y : 0 < x -> x <= y -> RN_pos x <= RN_pos y.
Proof.
  intros Hx Hxy. assert (Hy : 0 < y) by lra.
  pose proof (ulp_exp_mono x y Hx Hxy) as He.
  destruct (Z.eq_dec (ulp_exp x) (ulp_exp y)) as [E|N].
  - rewrite !RN_pos_alt, E.
    pose proof (pow2_pos (ulp_exp y)) as P. pose proof (pow2_pos (- ulp_exp y)) as P'.
    assert (S : x * pow2 (- ulp_exp y) <= y * pow2 (- ulp_exp y)) by nra.
    apply round_half_even_mono in S. rewrite Zle_Qle in S.
    revert S P.
    generalize (inject_Z (round_half_even (x * pow2 (- ulp_exp y))))
               (inject_Z (round_half_even (y * pow2 (- ulp_exp y))))
               (pow2 (ulp_exp y)).
    intros; nra.
  - pose proof (RN_pos_le x Hx) as Ux.
    assert (Hy' : (-1074 < ulp_exp y)%Z) by (unfold ulp_exp in *; lia).
    pose proof (RN_pos_ge y Hy Hy') as Ly.
    assert (pow2 (ulp_exp x + 53) <= pow2 (ulp_exp y + 52)) by (apply pow2_le; lia).
    lra.
Qed.

Lemma RN_of_pos x : 0 < x -> RN x = RN_pos x.
Proof. intros Hx. unfold RN. apply Qgt_alt in Hx. now rewrite Hx. Qed.

Lemma RN_of_zero x : x == 0 -> RN x = 0.
Proof. intros Hx. unfold RN. apply Qeq_alt in Hx. now rewrite Hx. Qed.

Lemma RN_nonneg x : 0 <= x -> 0 <= RN x.
Proof.
  intros Hx. destruct (Qlt_le_dec 0 x) as [P|Z].
  - rewrite RN_of_pos by assumption. now apply RN_pos_nonneg.
  - rewrite RN_of_zero by lra. lra.
Qed.

(** Rounding is monotone. *)
Lemma RN_mono x y : 0 <= x -> x <= y -> RN x <= RN y.
Proof.
  intros Hx Hxy. destruct (Qlt_le_dec 0 x) as [P|Z].
  - rewrite !RN_of_pos by lra. now apply RN_pos_mono.
  - rewrite (RN_of_zero x) by lra. apply RN_nonneg. lra.
Qed.

(** Rounding keeps what the format holds. *)
Lemma RN_exact x : representable x -> RN x == x.
Proof.
  intros [m [e [Hm [He Ex]]]].
  destruct (Z.eq_dec m 0) as [->|Nm].
  - rewrite RN_of_zero; rewrite Ex; change (inject_Z 0) with 0; ring.
  - pose proof (pow2_pos e) as Pe.
    assert (Im : 1 <= inject_Z m) by (change 1 with (inject_Z 1); rewrite <- Zle_Qle; lia).
    assert (Hx : 0 < x) by (rewrite Ex; nra).
    rewrite RN_of_pos, RN_pos_alt by assumption.
    assert (Hu : (ulp_exp x <= e)%Z).
    { destruct (binade_spec x Hx) as [L _].
      assert (Um : inject_Z m < pow2 53)
        by (rewrite pow2_Z, <- Zlt_Qlt; lia).
      assert (x < pow2 (e + 53)) by (rewrite Ex, pow2_add; nra).
      assert (binade x < e + 53)%Z by (apply pow2_lt_inv; lra).
      unfold ulp_exp. lia. }
    assert (Es : x * pow2 (- ulp_exp x) == inject_Z (m * 2 ^ (e - ulp_exp x))).
    { apply Qeq_trans with (inject_Z m * pow2 e * pow2 (- ulp_exp x));
        [apply Qmult_comp; [exact Ex | reflexivity]|].
      rewrite inject_Z_mult, <- pow2_Z, <- Qmult_assoc, <- pow2_add by lia.
      now replace (e + - ulp_exp x)%Z with (e - ulp_exp x)%Z by lia. }
    rewrite (round_half_even_comp _ _ Es), round_half_even_Z, <- Es.
    rewrite <- Qmult_assoc, (Qmult_comm (pow2 (- ulp_exp x))), pow2_cancel. ring.
Qed.

Lemma representable_nonneg x : representable x -> 0 <= x.
Proof.
  intros [m [e [Hm [_ Ex]]]]. rewrite Ex. pose proof (pow2_pos e).
  assert (0 <= inject_Z m) by (change 0 with (inject_Z 0); rewrite <- Zle_Qle; lia).
  nra.
Qed.

Lemma representable_comp x y : x == y -> representable x -> representable y.
Proof. intros E [m [e [Hm [He Ex]]]]. exists m, e. repeat split; try lia. now rewrite <- E. Qed.

Lemma representable_Z k : (0 <= k < 2 ^ 53)%Z -> representable (inject_Z k).
Proof. intros Hk. exists k, 0%Z. repeat split; try lia. change (pow2 0) with 1. ring. Qed.

Lemma rounding_RN : rounding RN.
Proof. split; [apply RN_mono | apply RN_exact]. Qed.

Section Rounding.
Variable rho : Q -> Q.
Hypothesis Hrho : rounding rho.

Lemma rounding_up x g : 0 <= x -> x <= g -> representable g -> rho x <= g.
Proof.
  intros Hx Hxg Hg. destruct Hrho as [M E].
  rewrite <- (E g Hg). now apply M.
Qed.

Lemma rounding_down x g : representable g -> g <= x -> g <= rho x.
Proof.
  intros Hg Hgx. destruct Hrho as [M E].
  rewrite <- (E g Hg). apply M; [now apply representable_nonneg | assumption].
Qed.

End Rounding.

Lemma Qfloor_lt_Z y k : y < inject_Z k -> (Qfloor y < k)%Z.
Proof.
  intros Hy. pose proof (Qfloor_le y) as F.
  rewrite Zlt_Qlt. lra.
Qed.

Lemma Qfloor_ge_Z y k : inject_Z k <= y -> (k <= Qfloor y)%Z.
Proof. intros Hy. apply Qfloor_resp_le in Hy. now rewrite Qfloor_Z in Hy. Qed.

Lemma inject_Z_sub1 (n : Z) : inject_Z (n - 1) == inject_Z n - 1.
Proof. unfold Z.sub. rewrite inject_Z_plus, inject_Z_opp. reflexivity. Qed.

Lemma inject_Z_le_sub1 (k n : Z) : (k <= n - 1)%Z -> inject_Z k <= inject_Z n - 1.
Proof. intros Hk. rewrite <- inject_Z_sub1, <- Zle_Qle. exact Hk. Qed.

Lemma inject_Z_nonneg (k : Z) : (0 <= k)%Z -> 0 <= inject_Z k.
Proof. intros Hk. change 0 with (inject_Z 0). now rewrite <- Zle_Qle. Qed.

End Float64Facts.

(** ** The frame sampler *)

Module SamplerFacts.
Import Float64 Float64Facts Sampler.
#[local] Open Scope Q_scope.

Lemma int_of_float_nonneg y : 0 <= y -> int_of_float y = Qfloor y.
Proof. intros Hy. unfold int_of_float. apply Qle_bool_iff in Hy. now rewrite Hy. Qed.

#[local] Open Scope Z_scope.

Lemma set_last_cons {X} (x y : X) (l : list X) (v : X) :
  set_last (x :: y :: l) v = x :: set_last (y :: l) v.
Proof. reflexivity. Qed.

Lemma set_last_map_seq {X} (h : nat -> X) (v : X) a n :
  set_last (map h (seq a (S n))) v
  = map (fun k => if (k =? a + n)%nat then v else h k) (seq a (S n)).
Proof.
  revert a; induction n as [|n IH]; intros a.
  - cbn. now rewrite Nat.add_0_r, Nat.eqb_refl.
  - rewrite (seq_S_cons a (S n)) || idtac.
    replace (seq a (S (S n))) with (a :: seq (S a) (S n)) by reflexivity.
    rewrite !map_cons.
    replace (map h (seq (S a) (S n))) with (h (S a) :: map h (seq (S (S a)) n))
      by reflexivity.
    rewrite set_last_cons.
    replace (h (S a) :: map h (seq (S (S a)) n)) with (map h (seq (S a) (S n)))
      by reflexivity.
    rewrite IH. f_equal.
    + destruct (Nat.eqb_spec a (a + S n)); [lia|reflexivity].
    + apply map_ext. intros k.
      now replace (S a + n)%nat with (a + S n)%nat by lia.
Qed.

Lemma Sorted_map_seq (f : nat -> Z) a n :
  (forall k, (a <= k)%nat -> (k + 1 < a + n)%nat -> f k < f (k + 1)%nat) ->
  Sorted Z.lt (map f (seq a n)).
Proof.
  revert a; induction n as [|n IH]; intros a Hf; [constructor|].
  cbn [seq map]. constructor.
  - apply IH. intros k Hk Hk1. apply Hf; lia.
  - destruct n as [|n]; cbn [seq map]; constructor.
    replace (S a) with (a + 1)%nat by lia. apply Hf; lia.
Qed.

Lemma linspace_empty p : linspace 0 p 0 = inr [].
Proof. reflexivity. Qed.

Lemma linspace_single p : linspace 0 p 1 = inr [0].
Proof.
  unfold linspace.
  change (1 <? 0) with false. change (0 <? 1 - 1) with false.
  change (1 <? 1) with false. change (arange 1) with [inject_Z 0].
  cbn [map]. unfold fmul.
  rewrite (RN_of_zero (inject_Z 0 * fsub (float_of_int p) (float_of_int 0))%Q)
    by (change (inject_Z 0) with 0%Q; ring).
  reflexivity.
Qed.

(** [RN] against the Standard Library's binary64 on the operations the
    examples below go through. *)
Lemma RN_agrees_with_binary64 :
  (SF2Q (SpecFloat.SFdiv 53 1024 (b64 10) (b64 17)) == fdiv 10 17)%Q
  /\ (SF2Q (SpecFloat.SFmul 53 1024
              (SpecFloat.SFdiv 53 1024 (b64 10) (b64 17)) (b64 17))
       == fmul (fdiv 10 17) (float_of_int 17))%Q
  /\ (SF2Q (SpecFloat.SFmul 53 1024
              (SpecFloat.SFdiv 53 1024 (b64 32) (b64 49)) (b64 49))
       == fmul (fdiv 32 49) (float_of_int 49))%Q
  /\ (SF2Q (SpecFloat.SFmul 53 1024
              (SpecFloat.SFdiv 53 1024 (b64 1) (b64 49)) (b64 49))
       == fmul (fdiv 1 49) (float_of_int 49))%Q
  /\ (SF2Q (b64 18014398509481987) == float_of_int 18014398509481987)%Q.
Proof. repeat split; vm_compute; reflexivity. Qed.

End SamplerFacts.

(** ** The relative error of rounding *)

Module RelativeError.
Import Float64 Float64Facts Margins.
#[local] Open Scope Q_scope.

Lemma round_half_even_error x :
  - (1 # 2) <= inject_Z (round_half_even x) - x <= 1 # 2.
Proof.
  unfold round_half_even.
  pose proof (Qfloor_le x) as Lo. pose proof (Qlt_floor x) as Hi.
  rewrite inject_Z_plus in Hi. change (inject_Z 1) with 1 in Hi.
  destruct (Qcompare_spec (x - inject_Z (Qfloor x)) (1 # 2)) as [E|L|G].
  - destruct (Z.even (Qfloor x)).
    + lra.
    + rewrite inject_Z_plus. change (inject_Z 1) with 1. lra.
  - lra.
  - rewrite inject_Z_plus. change (inject_Z 1) with 1. lra.
Qed.

Lemma RN_pos_error x :
  0 < x ->
  - ((1 # 2) * pow2 (ulp_exp x)) <= RN_pos x - x <= (1 # 2) * pow2 (ulp_exp x).
Proof.
  intros Hx. unfold RN_pos. cbv zeta.
  set (e := ulp_exp x). pose proof (pow2_pos e) as Pe.
  set (z := x / pow2 e).
  assert (Ex : x == z * pow2 e) by (subst z; field; lra).
  pose proof (round_half_even_error z) as R.
  set (m := inject_Z (round_half_even z)) in *.
  assert (E : m * pow2 e - x == (m - z) * pow2 e) by (rewrite Ex at 1; ring).
  rewrite E. split.
  - assert ((- (1 # 2)) * pow2 e <= (m - z) * pow2 e)
      by (apply Qmult_le_compat_r; lra).
    lra.
  - apply Qmult_le_compat_r; lra.
Qed.

Lemma pow2_m52 : pow2 (-52) == 1 # 4503599627370496.
Proof. vm_compute. reflexivity. Qed.

(** The relative error of rounding a normal number is at most [eps]. *)
Lemma RN_relative x :
  pow2 (-1022) <= x -> x * (1 - eps) <= RN x <= x * (1 + eps).
Proof.
  intros Hx. pose proof (pow2_pos (-1022)) as P.
  assert (X0 : 0 < x) by lra.
  rewrite (RN_of_pos x X0).
  pose proof (RN_pos_error x X0) as E.
  assert (Hb : (-1022 <= binade x)%Z).
  { rewrite <- (binade_unique (pow2 (-1022)) (-1022)).
    - apply binade_mono; [exact P | exact Hx].
    - split; [apply Qle_refl|].
      change (-1022 + 1)%Z with (-1021)%Z.
      apply Qlt_alt. vm_compute. reflexivity. }
  assert (Hu : ulp_exp x = (binade x + -52)%Z) by (unfold ulp_exp; lia).
  rewrite Hu, pow2_add, pow2_m52 in E.
  destruct (binade_spec x X0) as [B _].
  unfold eps. lra.
Qed.

End RelativeError.

(** ** Samples up to [2^52] *)

Module WideSamples.
Import Float64 Float64Facts Sampler SamplerFacts Margins RelativeError.
#[local] Open Scope Q_scope.

(** Rounding to an even integer from half a unit below it. *)
Lemma round_half_even_reaches (z : Q) (M : Z) :
  Z.even M = true -> inject_Z M - (1 # 2) <= z -> (M <= round_half_even z)%Z.
Proof.
  intros Hev Hz.
  destruct (Qlt_le_dec z (inject_Z M)) as [Hlt|Hge].
  - assert (Ef : Qfloor z = (M - 1)%Z).
    { assert (M - 1 <= Qfloor z)%Z.
      { apply Qfloor_ge_Z. rewrite inject_Z_sub1. lra. }
      assert (Qfloor z < M)%Z by (apply Qfloor_lt_Z; exact Hlt).
      lia. }
    unfold round_half_even. rewrite Ef.
    assert (Hodd : Z.even (M - 1) = false).
    { rewrite Z.even_sub, Hev. reflexivity. }
    rewrite Hodd.
    destruct (Qcompare_spec (z - inject_Z (M - 1)) (1 # 2)) as [E|L|G]; try lia.
    rewrite inject_Z_sub1 in L. lra.
  - apply Z.le_trans with (Qfloor z); [now apply Qfloor_ge_Z|].
    apply round_half_even_range.
Qed.

(** A rounded number is a number of the format. *)
Lemma RN_representable x : 0 <= x -> representable (RN x).
Proof.
  intros Hx. destruct (Qle_lt_or_eq _ _ Hx) as [Hpos|Hzero].
  - rewrite (RN_of_pos x Hpos), RN_pos_alt.
    set (e := ulp_exp x).
    assert (He : (-1074 <= e)%Z) by (subst e; unfold ulp_exp; lia).
    pose proof (significand_lt x Hpos) as Hs. fold e in Hs.
    set (z := x * pow2 (- e)) in *.
    assert (Z0 : 0 <= z).
    { subst z. apply Qmult_le_0_compat; [exact Hx | apply Qlt_le_weak, pow2_pos]. }
    pose proof (round_half_even_range z) as [Rlo Rhi].
    assert (F0 : (0 <= Qfloor z)%Z) by (apply (Qfloor_ge_Z z 0); exact Z0).
    assert (F1 : (Qfloor z < 2 ^ 53)%Z) by (apply Qfloor_lt_Z; exact Hs).
    destruct (Z.eq_dec (round_half_even z) (2 ^ 53)) as [E|N].
    + exists (2 ^ 52)%Z, (e + 1)%Z. split; [lia|]. split; [lia|].
      rewrite E, pow2_add.
      change (pow2 1) with 2. change (inject_Z (2 ^ 53)) with (inject_Z (2 ^ 52) * 2).
      ring.
    + exists (round_half_even z), e. split; [lia|]. split; [exact He | reflexivity].
  - rewrite (RN_of_zero x) by (symmetry; exact Hzero).
    exists 0%Z, 0%Z. split; [lia|]. split; [lia|]. reflexivity.
Qed.

(** Rounding twice is rounding once; so is adding a zero. *)
Lemma RN_then_add_zero x : 0 <= x -> fadd (RN x) (float_of_int 0) == RN x.
Proof.
  intros Hx. change (float_of_int 0) with 0. unfold fadd.
  assert (E : RN x + 0 == RN x) by ring.
  rewrite (RN_exact (RN x + 0)).
  - exact E.
  - apply (representable_comp (RN x)); [symmetry; exact E | now apply RN_representable].
Qed.


Lemma ulp_exp_below x : 0 < x -> x < pow2 52 -> (ulp_exp x <= -1)%Z.
Proof.
  intros Hx Hlt. destruct (binade_spec x Hx) as [B _].
  assert (pow2 (binade x) < pow2 52) by lra.
  apply pow2_lt_inv in H. unfold ulp_exp. lia.
Qed.

Lemma RN_as_multiple x :
  0 < x -> RN x == inject_Z (round_half_even (x * pow2 (- ulp_exp x))) * pow2 (ulp_exp x).
Proof. intros Hx. rewrite (RN_of_pos x Hx), RN_pos_alt. reflexivity. Qed.

(** An integer as a multiple of a unit [2^e] with [e <= -1]: the multiple
    is even. *)
Lemma integer_in_units (k e : Z) :
  (e <= -1)%Z ->
  inject_Z (k * 2 ^ (- e)) * pow2 e == inject_Z k
  /\ Z.even (k * 2 ^ (- e)) = true.
Proof.
  intros He. split.
  - rewrite inject_Z_mult, <- (pow2_Z (- e)) by lia.
    rewrite <- Qmult_assoc.
    setoid_replace (pow2 (- e) * pow2 e) with 1; [ring|].
    rewrite Qmult_comm. apply pow2_cancel.
  - rewrite Z.even_mul.
    replace (- e)%Z with (Z.succ (- e - 1)) by lia.
    rewrite Z.pow_succ_r by lia.
    rewrite Z.even_mul. cbn. apply orb_true_r.
Qed.

(** Below [2^52], rounding keeps two numbers that are one apart on
    different integers. *)
Lemma RN_int_step x y :
  0 <= x -> x + 1 <= y -> y < pow2 52 -> (Qfloor (RN x) < Qfloor (RN y))%Z.
Proof.
  intros Hx Hxy Hy.
  assert (P52 : pow2 52 == inject_Z (2 ^ 52)) by (apply pow2_Z; lia).
  set (m := Qfloor x).
  pose proof (Qfloor_le x) as Lo. pose proof (Qlt_floor x) as Hi. fold m in Lo, Hi.
  rewrite inject_Z_plus in Hi. change (inject_Z 1) with 1 in Hi.
  assert (M0 : (0 <= m)%Z) by (apply (Qfloor_ge_Z x 0); exact Hx).
  assert (Mhi : (m + 2 < 2 ^ 53)%Z).
  { assert (inject_Z m < inject_Z (2 ^ 52)) by lra.
    rewrite <- Zlt_Qlt in H. lia. }
  assert (I1 : inject_Z (m + 1) == inject_Z m + 1)
    by (rewrite inject_Z_plus; reflexivity).
  assert (I2 : inject_Z (m + 2) == inject_Z m + 2)
    by (rewrite inject_Z_plus; reflexivity).
  assert (Uy : inject_Z (m + 1) <= RN y).
  { apply (rounding_down RN rounding_RN); [apply representable_Z; lia | lra]. }
  assert (Ux : RN x <= inject_Z (m + 1)).
  { apply (rounding_up RN rounding_RN); [exact Hx | lra | apply representable_Z; lia]. }
  destruct (Qlt_le_dec (RN x) (inject_Z (m + 1))) as [Hlow|Hup].
  - assert (Qfloor (RN x) < m + 1)%Z by (apply Qfloor_lt_Z; exact Hlow).
    assert (m + 1 <= Qfloor (RN y))%Z by (apply Qfloor_ge_Z; exact Uy).
    lia.
  - assert (Ex : RN x == inject_Z (m + 1)) by (apply Qle_antisym; assumption).
    assert (Fx : Qfloor (RN x) = (m + 1)%Z) by (rewrite Ex; apply Qfloor_Z).
    rewrite Fx.
    enough (inject_Z (m + 2) <= RN y).
    { assert (m + 2 <= Qfloor (RN y))%Z by (apply Qfloor_ge_Z; exact H). lia. }
    destruct (Qlt_le_dec y (inject_Z (m + 2))) as [Hy2|Hy2];
      [|apply (rounding_down RN rounding_RN); [apply representable_Z; lia | exact Hy2]].
    assert (X0 : 0 < x).
    { destruct (Qle_lt_or_eq _ _ Hx) as [?|E0]; [assumption|exfalso].
      rewrite (RN_of_zero x) in Ex by (symmetry; exact E0). lra. }
    assert (Y0 : 0 < y) by lra.
    set (e := ulp_exp x). set (e' := ulp_exp y).
    assert (Hee : (e <= e')%Z) by (apply ulp_exp_mono; [exact X0 | lra]).
    assert (He' : (e' <= -1)%Z) by (apply ulp_exp_below; assumption).
    pose proof (pow2_pos e) as Pe. pose proof (pow2_pos e') as Pe'.
    pose proof (pow2_le e e' Hee) as Pee.
    (* how close [x] is to [m + 1] *)
    pose proof (RN_as_multiple x X0) as Rx. fold e in Rx.
    pose proof (round_half_even_error (x * pow2 (- e))) as [_ Err].
    set (R := inject_Z (round_half_even (x * pow2 (- e)))) in *.
    assert (Cx : pow2 (- e) * pow2 e == 1) by (rewrite Qmult_comm; apply pow2_cancel).
    assert (Dx : inject_Z m + 1 - x <= (1 # 2) * pow2 e).
    { assert (R1 : R * pow2 e == inject_Z m + 1) by (rewrite <- Rx, Ex; exact I1).
      assert (E1 : (R - x * pow2 (- e)) * pow2 e == inject_Z m + 1 - x).
      { setoid_replace ((R - x * pow2 (- e)) * pow2 e)
          with (R * pow2 e - x * (pow2 (- e) * pow2 e)) by ring.
        rewrite R1, Cx. ring. }
      rewrite <- E1. apply Qmult_le_compat_r; lra. }
    (* so [y] is as close to [m + 2], in its own unit *)
    pose proof (RN_as_multiple y Y0) as Ry. fold e' in Ry.
    destruct (integer_in_units (m + 2) e' He') as [Eu Hev].
    set (M' := ((m + 2) * 2 ^ (- e'))%Z) in *.
    assert (Cy : pow2 (- e') * pow2 e' == 1) by (rewrite Qmult_comm; apply pow2_cancel).
    assert (Near : inject_Z M' - (1 # 2) <= y * pow2 (- e')).
    { apply (Qmult_le_r _ _ (pow2 e')); [exact Pe'|].
      setoid_replace ((inject_Z M' - (1 # 2)) * pow2 e')
        with (inject_Z M' * pow2 e' - (1 # 2) * pow2 e') by ring.
      setoid_replace (y * pow2 (- e') * pow2 e')
        with (y * (pow2 (- e') * pow2 e')) by ring.
      rewrite Eu, Cy, I2. lra. }
    pose proof (round_half_even_reaches _ M' Hev Near) as Reach.
    rewrite Ry, <- Eu.
    apply Qmult_le_compat_r; [|lra].
    rewrite <- Zle_Qle. exact Reach.
Qed.


Lemma pow2_m1 : pow2 (-1) == 1 # 2.
Proof. reflexivity. Qed.

Lemma representable_half_below (p : Z) :
  (1 <= p <= 2 ^ 52)%Z -> representable (inject_Z p - (1 # 2)).
Proof.
  intros Hp. exists (p + p - 1)%Z, (-1)%Z. split; [lia|]. split; [lia|].
  rewrite pow2_m1. unfold Qeq; cbn. lia.
Qed.

Section Wide.
Variables p q : Z.
Hypothesis Hq : (1 <= q <= p)%Z.
Hypothesis Hp : (p < 2 ^ 52)%Z.
Variable step : Q.
Hypothesis Hstep1 : 1 <= step.
Hypothesis Hstep2 : step * inject_Z q <= inject_Z p * (1 + eps).

Lemma wide_product_bound k :
  (0 <= k <= q - 1)%Z -> inject_Z k * step <= inject_Z p - (1 # 2).
Proof.
  intros Hk.
  assert (Ik : 0 <= inject_Z k) by (apply inject_Z_nonneg; lia).
  assert (Ikq : inject_Z k <= inject_Z q - 1) by (apply inject_Z_le_sub1; lia).
  assert (Iq : 1 <= inject_Z q)
    by (change 1 with (inject_Z 1); rewrite <- Zle_Qle; lia).
  assert (Ip : inject_Z p <= 4503599627370496 - 1).
  { change (4503599627370496 - 1) with (inject_Z (2 ^ 52 - 1)).
    rewrite <- Zle_Qle. lia. }
  apply Qle_trans with ((inject_Z q - 1) * step).
  - apply Qmult_le_compat_r; lra.
  - setoid_replace ((inject_Z q - 1) * step) with (step * inject_Z q - step) by ring.
    unfold eps in Hstep2. lra.
Qed.

Lemma wide_sample_lt_stop k :
  (0 <= k <= q - 1)%Z -> (Qfloor (RN (inject_Z k * step)) < p)%Z.
Proof.
  intros Hk. apply Qfloor_lt_Z.
  assert (Ik : 0 <= inject_Z k) by (apply inject_Z_nonneg; lia).
  apply Qle_lt_trans with (inject_Z p - (1 # 2)); [|lra].
  apply (rounding_up RN rounding_RN).
  - apply Qmult_le_0_compat; lra.
  - now apply wide_product_bound.
  - apply representable_half_below. lia.
Qed.

Lemma wide_sample_step k :
  (0 <= k)%Z -> (k + 1 <= q - 1)%Z ->
  (Qfloor (RN (inject_Z k * step)) < Qfloor (RN (inject_Z (k + 1) * step)))%Z.
Proof.
  intros Hk Hk1.
  assert (Ik : 0 <= inject_Z k) by (apply inject_Z_nonneg; lia).
  apply RN_int_step.
  - apply Qmult_le_0_compat; lra.
  - rewrite inject_Z_plus. change (inject_Z 1) with 1. lra.
  - apply Qle_lt_trans with (inject_Z p - (1 # 2));
      [apply wide_product_bound; lia|].
    rewrite (pow2_Z 52) by lia.
    assert (inject_Z p < inject_Z (2 ^ 52)) by (rewrite <- Zlt_Qlt; exact Hp).
    lra.
Qed.

End Wide.

(** [linspace(0, p, num)] for [1 <= num - 1 <= p < 2^52]. *)
Lemma linspace_sorted_wide p num :
  (1 <= num - 1 <= p)%Z -> (p < 2 ^ 52)%Z ->
  exists ids, linspace 0 p num = inr ids /\ in_range_increasing (p + 1) ids.
Proof.
  intros Hq Hp. set (q := (num - 1)%Z) in *.
  unfold linspace.
  destruct (Z.ltb_spec num 0) as [?|_]; [lia|].
  fold q. destruct (Z.ltb_spec 0 q) as [_|?]; [|lia].
  destruct (Z.ltb_spec 1 num) as [_|?]; [|lia].
  set (delta := fsub (float_of_int p) (float_of_int 0)).
  assert (Estop : float_of_int p == inject_Z p)
    by (apply RN_exact, representable_Z; lia).
  assert (Ip : 1 <= inject_Z p)
    by (change 1 with (inject_Z 1); rewrite <- Zle_Qle; lia).
  assert (Iq : 1 <= inject_Z q)
    by (change 1 with (inject_Z 1); rewrite <- Zle_Qle; lia).
  assert (Ipq : inject_Z q <= inject_Z p) by (rewrite <- Zle_Qle; lia).
  assert (Edelta : delta == inject_Z p).
  { subst delta. change (float_of_int 0) with 0%Q. unfold fsub.
    apply Qle_antisym.
    - apply (rounding_up RN rounding_RN); [lra | lra | apply representable_Z; lia].
    - apply (rounding_down RN rounding_RN); [apply representable_Z; lia | lra]. }
  set (step := fdiv delta (inject_Z q)).
  assert (Quot : 1 <= delta / inject_Z q).
  { apply Qle_shift_div_l; lra. }
  assert (S1 : 1 <= step).
  { subst step. unfold fdiv.
    apply (rounding_down RN rounding_RN);
      [apply (representable_Z 1); lia | exact Quot]. }
  assert (S2 : step * inject_Z q <= inject_Z p * (1 + eps)).
  { subst step. unfold fdiv.
    assert (N : pow2 (-1022) <= delta / inject_Z q).
    { apply Qle_trans with 1; [|exact Quot].
      change 1 with (pow2 0). apply pow2_le. lia. }
    destruct (RN_relative _ N) as [_ Up].
    apply Qle_trans with (delta / inject_Z q * (1 + eps) * inject_Z q).
    - apply Qmult_le_compat_r; lra.
    - apply Qle_lteq; right. rewrite Edelta. field. lra. }
  assert (Snz : Qeq_bool step 0 = false).
  { destruct (Qeq_bool step 0) eqn:E; [|reflexivity].
    apply Qeq_bool_iff in E. lra. }
  rewrite Snz. eexists. split; [reflexivity|].
  unfold arange. rewrite !map_map.
  replace (Z.to_nat num) with (S (Z.to_nat q)) by lia.
  rewrite set_last_map_seq, map_map. cbn [Nat.add].
  set (id := fun k : nat =>
               Qfloor (if (k =? Z.to_nat q)%nat then float_of_int p
                       else fadd (fmul (inject_Z (Z.of_nat k)) step) (float_of_int 0))).
  assert (Hlast : id (Z.to_nat q) = p).
  { unfold id. rewrite Nat.eqb_refl, Estop. apply Qfloor_Z. }
  assert (Hmid : forall k, (k < Z.to_nat q)%nat ->
                           id k = Qfloor (RN (inject_Z (Z.of_nat k) * step))).
  { intros k Hk. unfold id. destruct (Nat.eqb_spec k (Z.to_nat q)); [lia|].
    unfold fmul. rewrite RN_then_add_zero; [reflexivity|].
    apply Qmult_le_0_compat; [apply inject_Z_nonneg; lia | lra]. }
  split.
  - apply Forall_forall. intros i Hi. apply in_map_iff in Hi.
    destruct Hi as [k [Ek Hk]]. apply in_seq in Hk.
    change (id k = i) in Ek. subst i.
    destruct (Nat.eq_dec k (Z.to_nat q)) as [->|Nk].
    + rewrite Hlast. lia.
    + rewrite Hmid by lia.
      pose proof (wide_sample_lt_stop p q ltac:(lia) Hp step S1 S2
                    (Z.of_nat k) ltac:(lia)) as B1.
      assert (B0 : (0 <= Qfloor (RN (inject_Z (Z.of_nat k) * step)))%Z).
      { apply (Qfloor_ge_Z _ 0). apply RN_nonneg.
        apply Qmult_le_0_compat; [apply inject_Z_nonneg; lia | lra]. }
      lia.
  - apply Sorted_StronglySorted; [exact Z.lt_trans|].
    apply (Sorted_map_seq id). intros k _ Hk.
    destruct (Nat.eq_dec (k + 1) (Z.to_nat q)) as [E|N].
    + rewrite E, Hlast, Hmid by lia.
      exact (wide_sample_lt_stop p q ltac:(lia) Hp step S1 S2 (Z.of_nat k) ltac:(lia)).
    + rewrite !Hmid by lia.
      replace (Z.of_nat (k + 1)) with (Z.of_nat k + 1)%Z by lia.
      exact (wide_sample_step p q ltac:(lia) Hp step S1 S2
               (Z.of_nat k) ltac:(lia) ltac:(lia)).
Qed.


(** The error of rounding, subnormal numbers included. *)
Lemma RN_error_bound x : 0 < x -> RN x <= x * (1 + eps) + pow2 (-1075).
Proof.
  intros Hx. rewrite (RN_of_pos x Hx).
  pose proof (RN_pos_error x Hx) as [_ E].
  destruct (binade_spec x Hx) as [B _].
  pose proof (pow2_pos (-1075)) as P.
  unfold ulp_exp in E.
  destruct (Z.max_spec (binade x - 52) (-1074)) as [[_ M]|[_ M]]; rewrite M in E.
  - assert (H : (1 # 2) * pow2 (-1074) == pow2 (-1075)).
    { change (-1074)%Z with (1 + -1075)%Z. rewrite pow2_add.
      change (pow2 1) with 2. ring. }
    assert (0 <= x * eps) by (apply Qmult_le_0_compat; [lra | discriminate]).
    lra.
  - change (binade x - 52)%Z with (binade x + -52)%Z in E.
    rewrite pow2_add, pow2_m52 in E. unfold eps. lra.
Qed.

Lemma pow2_m51 : pow2 (-51) == 1 # 2251799813685248.
Proof. vm_compute. reflexivity. Qed.

Lemma representable_half_above (t : Z) :
  (0 <= t < 2 ^ 52)%Z -> representable (inject_Z t + (1 # 2)).
Proof.
  intros Ht. exists (t + t + 1)%Z, (-1)%Z. split; [lia|]. split; [lia|].
  rewrite pow2_m1. unfold Qeq; cbn. lia.
Qed.

Lemma Qmult_le_compat_both a b c d :
  0 <= a -> a <= c -> 0 <= b -> b <= d -> a * b <= c * d.
Proof.
  intros Ha Hac Hb Hbd.
  apply Qle_trans with (c * b).
  - apply Qmult_le_compat_r; assumption.
  - rewrite !(Qmult_comm c). apply Qmult_le_compat_r; [assumption | lra].
Qed.

(** The reduced count of the second branch never exceeds the number of
    frames. *)
Lemma reduced_count_bound_wide t n r :
  (1 <= t <= 2 ^ 50)%Z -> (1 <= n < 2 ^ 1024 - 2 ^ 970)%Z -> (1 <= r)%Z ->
  (t <= r * n)%Z ->
  exists c, sampling_plan t n r = inr (0, t, c)%Z /\ (0 <= c <= t)%Z.
Proof.
  intros Ht Hn Hr Hle. unfold sampling_plan.
  destruct (Z.gtb_spec t (r * n)); [lia|]. unfold truediv.
  destruct (Z.eqb_spec (r * n) 0); [nia|].
  eexists; split; [reflexivity|].
  unfold fmul, float_of_int.
  set (Tq := inject_Z t). set (R := inject_Z r). set (N := inject_Z n).
  assert (HT : 1 <= Tq <= 1125899906842624).
  { subst Tq. split; [change 1 with (inject_Z 1)
                     |change 1125899906842624 with (inject_Z (2 ^ 50))];
      rewrite <- Zle_Qle; lia. }
  assert (HR : 1 <= R) by (subst R; change 1 with (inject_Z 1); rewrite <- Zle_Qle; lia).
  assert (HN : 1 <= N) by (subst N; change 1 with (inject_Z 1); rewrite <- Zle_Qle; lia).
  assert (HN' : N <= pow2 1024).
  { subst N. rewrite (pow2_Z 1024) by lia. rewrite <- Zle_Qle. lia. }
  assert (ERN : inject_Z (r * n) == R * N) by (subst R N; rewrite inject_Z_mult; reflexivity).
  assert (PRN : 0 < R * N) by (apply Qmult_lt_0_compat; lra).
  set (q := Tq / inject_Z (r * n)).
  assert (Eq : q == Tq / (R * N)) by (subst q; now rewrite ERN).
  assert (Q0 : 0 < q).
  { rewrite Eq. apply Qlt_shift_div_l; [exact PRN | lra]. }
  pose proof (RN_error_bound q Q0) as A.
  assert (A0 : 0 <= RN q) by (apply RN_nonneg; lra).
  assert (NN : pow2 (-1022) <= N).
  { apply Qle_trans with 1; [|exact HN]. change 1 with (pow2 0). apply pow2_le. lia. }
  destruct (RN_relative N NN) as [_ B].
  assert (B0 : 0 <= RN N) by (apply RN_nonneg; lra).
  set (eta := pow2 (-1075)) in *.
  assert (Eta : 0 < eta) by apply pow2_pos.
  assert (EtaN : eta * N <= pow2 (-51)).
  { apply Qle_trans with (eta * pow2 1024).
    - rewrite !(Qmult_comm eta). apply Qmult_le_compat_r; lra.
    - subst eta. rewrite <- pow2_add. apply Qle_refl. }
  rewrite pow2_m51 in EtaN.
  set (u := q * N).
  assert (U0 : 0 <= u) by (subst u; apply Qmult_le_0_compat; lra).
  assert (UT : u <= Tq).
  { assert (E : u * R == Tq) by (subst u; rewrite Eq; field; lra).
    rewrite <- E. rewrite <- (Qmult_1_r u) at 1.
    rewrite !(Qmult_comm u). apply Qmult_le_compat_r; assumption. }
  assert (Prod : RN q * RN N <= Tq + (1 # 2)).
  { apply Qle_trans with ((q * (1 + eps) + eta) * (N * (1 + eps))).
    - apply Qmult_le_compat_both; assumption.
    - setoid_replace ((q * (1 + eps) + eta) * (N * (1 + eps)))
        with (u * ((1 + eps) * (1 + eps)) + eta * N * (1 + eps)) by (subst u; ring).
      assert (u * ((1 + eps) * (1 + eps)) <= Tq * ((1 + eps) * (1 + eps))).
      { apply Qmult_le_compat_r; [exact UT | unfold eps; discriminate]. }
      assert (eta * N * (1 + eps) <= (1 # 2251799813685248) * (1 + eps)).
      { apply Qmult_le_compat_r; [exact EtaN | unfold eps; discriminate]. }
      unfold eps in *. lra. }
  assert (P0 : 0 <= RN q * RN N) by (apply Qmult_le_0_compat; assumption).
  assert (Y0 : 0 <= RN (RN q * RN N)) by (apply RN_nonneg; exact P0).
  rewrite (int_of_float_nonneg _ Y0).
  split; [apply (Qfloor_ge_Z _ 0); exact Y0|].
  assert (Qfloor (RN (RN q * RN N)) < t + 1)%Z; [|lia].
  apply Qfloor_lt_Z. rewrite inject_Z_plus. change (inject_Z 1) with 1. fold Tq.
  apply Qle_lt_trans with (Tq + (1 # 2)); [|lra].
  apply (rounding_up RN rounding_RN); [exact P0 | exact Prod|].
  apply representable_half_above. lia.
Qed.

End WideSamples.

(** * The properties, claim by claim *)

Import PySlice PySliceFacts Driver DriverFacts SpanFacts ShapeFacts.
Import Float64 Float64Facts Sampler SamplerFacts.
Import Margins RelativeError WideSamples.

(** C1. [process_in_chunks] raises the assertion error exactly when
    [(chunk_size + overlap - 1) mod 4] is not zero, and then no window has
    been handed to the codec; with [chunk_size = 16] and [overlap = 4] it
    fails in this way. *)
Theorem precondition_guard :
  forall (A : Type) (arith : TensorArith A) (model : list A -> list A)
         (video_data : list A) (chunk_size overlap : Z) (fuel : nat),
    ((exists tr, process_in_chunks model video_data chunk_size overlap fuel
                 = Raised AssertionError tr)
     <-> (chunk_size + overlap - 1) mod 4 <> 0)
    /\ (forall tr, process_in_chunks model video_data chunk_size overlap fuel
                   = Raised AssertionError tr -> codec_calls tr = [])
    /\ process_in_chunks model video_data 16 4 fuel
       = Raised AssertionError
           {| codec_calls := []; blend_spans := []; blend_frames := [] |}.
Proof.
  intros A arith model video_data chunk_size overlap fuel.
  assert (Guard :
    (chunk_size + overlap - 1) mod 4 <> 0 ->
    process_in_chunks model video_data chunk_size overlap fuel
    = Raised AssertionError
           {| codec_calls := []; blend_spans := []; blend_frames := [] |}).
  { intros Hne. unfold process_in_chunks.
    destruct (Z.eqb_spec ((chunk_size + overlap - 1) mod 4) 0); [contradiction|reflexivity]. }
  assert (Pass :
    (chunk_size + overlap - 1) mod 4 = 0 ->
    forall tr, process_in_chunks model video_data chunk_size overlap fuel
               <> Raised AssertionError tr).
  { intros Heq tr. unfold process_in_chunks.
    destruct (Z.eqb_spec ((chunk_size + overlap - 1) mod 4) 0); [|contradiction].
    cbn [negb].
    destruct (while_loop model video_data chunk_size overlap fuel initial)
      as [[[err tr']|st]|] eqn:E.
    - apply while_loop_raises in E. subst err. discriminate.
    - destruct (output_chunks st); discriminate.
    - discriminate. }
  split; [split|split].
  - intros [tr E].
    destruct (Z.eq_dec ((chunk_size + overlap - 1) mod 4) 0) as [Heq|Hne]; [|exact Hne].
    exfalso. exact (Pass Heq tr E).
  - intros Hne. eexists. apply Guard, Hne.
  - intros tr E.
    destruct (Z.eq_dec ((chunk_size + overlap - 1) mod 4) 0) as [Heq|Hne].
    + exfalso. exact (Pass Heq tr E).
    + rewrite (Guard Hne) in E. inversion E. reflexivity.
  - reflexivity.
Qed.

(** C8. For every input, codec, [chunk_size] and [overlap], and however the
    run ends, no output position lies in the spans written by two different
    blends.  In a run that returns, every span is a range of positions of
    the returned sequence, and the frames that stand there are the frames
    that its blend made: no later step wrote over them. *)
Theorem blend_spans_never_overlap :
  forall (A : Type) (arith : TensorArith A) (model : list A -> list A)
         (video_data : list A) (chunk_size overlap : Z) (fuel : nat),
    spans_disjoint
      (blend_spans (trace_of (process_in_chunks model video_data chunk_size overlap fuel)))
    /\ (forall out tr,
          process_in_chunks model video_data chunk_size overlap fuel = Returned out tr ->
          (forall i span, nth_error (blend_spans tr) i = Some span ->
                          (fst span <= snd span <= length out)%nat)
          /\ blends_in_place out tr).
Proof.
  intros A arith model video_data chunk_size overlap fuel. split.
  - destruct (process_in_chunks_chained model video_data chunk_size overlap fuel)
      as [bound C].
    eapply chained_disjoint; eauto.
  - intros out tr E. split.
    + intros i span Ei.
      eapply chained_below; [|exact Ei].
      eapply process_in_chunks_returned_chained; eauto.
    + eapply process_in_chunks_blends_in_place; eauto.
Qed.

(** C7, as amended. For every input of time length [T] with
    [1 <= T <= chunk_size], every [overlap >= 0] and [chunk_size] passing
    the assertion, [process_in_chunks] makes one codec pass over the whole
    input and returns that reconstructed chunk as it is; nothing is
    blended, and the buffer never holds two entries. *)
Theorem short_input_single_pass :
  forall (A : Type) (arith : TensorArith A) (model : list A -> list A)
         (video_data : list A) (chunk_size overlap : Z) (fuel : nat),
    (1 <= length video_data)%nat ->
    Z.of_nat (length video_data) <= chunk_size ->
    0 <= overlap ->
    (chunk_size + overlap - 1) mod 4 = 0 ->
    (2 <= fuel)%nat ->
    single_pass model video_data chunk_size overlap fuel.
Proof.
  intros A arith model video_data chunk_size overlap fuel HT Hcs Hov Hpre Hfuel.
  destruct fuel as [|[|fuel]]; try lia.
  assert (Hend : window_end video_data chunk_size overlap 0
                 = Z.of_nat (length video_data)).
  { unfold window_end, num_frames.
    destruct (Z.ltb_spec (0 + chunk_size + overlap) (Z.of_nat (length video_data))); lia. }
  assert (Hbody := loop_body_first model video_data chunk_size overlap initial eq_refl).
  cbn [start initial log codec_calls blend_spans app] in Hbody.
  rewrite Hend, slice_whole in Hbody.
  split.
  - unfold process_in_chunks. rewrite Hpre. cbn [Z.eqb negb].
    cbn [while_loop]. rewrite Hbody. cbn [start initial].
    destruct (Z.ltb_spec 0 (num_frames video_data)); [|unfold num_frames in *; lia].
    cbn [start Z.add].
    destruct (Z.ltb_spec chunk_size (num_frames video_data));
      [unfold num_frames in *; lia|].
    cbn. now rewrite app_nil_r.
  - cbn [trajectory]. rewrite Hbody. cbn [start initial].
    destruct (Z.ltb_spec 0 (num_frames video_data)); [|unfold num_frames in *; lia].
    cbn [start Z.add].
    destruct (Z.ltb_spec chunk_size (num_frames video_data));
      [unfold num_frames in *; lia|].
    repeat constructor.
Qed.

(** The amended C7 at a concrete input: three frames, [chunk_size = 5],
    [overlap = 0]. *)
Lemma short_input_single_pass_witness :
  single_pass (fun w : list Q => w) (numbered 3) 5 0 2.
Proof.
  apply (short_input_single_pass Q Q_arith (fun w => w) (numbered 3) 5 0 2).
  - cbn; lia.
  - cbn; lia.
  - lia.
  - reflexivity.
  - lia.
Defined.

(** C7 as stated fails on an input with no frame, which is within
    [T <= chunk_size]: no window is handed to the codec and [torch.cat]
    raises on the empty buffer.  It also fails for a negative [overlap] that
    passes the assertion: the only window loses its last frames. *)
Lemma single_pass_counterexample :
  (Z.of_nat (length (numbered 0)) <= 13 /\ (13 + 4 - 1) mod 4 = 0
   /\ process_in_chunks (fun w : list Q => w) (numbered 0) 13 4 2
      = Raised RuntimeError
          {| codec_calls := []; blend_spans := []; blend_frames := [] |}
   /\ ~ (exists fuel, single_pass (fun w : list Q => w) (numbered 0) 13 4 fuel))
  /\ (Z.of_nat (length (numbered 3)) <= 5 /\ (5 + (-4) - 1) mod 4 = 0
      /\ output_length (process_in_chunks (fun w : list Q => w) (numbered 3) 5 (-4) 2)
         = Some 2%nat
      /\ ~ (exists fuel, single_pass (fun w : list Q => w) (numbered 3) 5 (-4) fuel)).
Proof.
  split; (split; [cbn; lia|]); (split; [reflexivity|]); (split; [reflexivity|]).
  - intros [fuel [E _]]. destruct fuel as [|fuel]; vm_compute in E; discriminate.
  - intros [fuel [E _]]. destruct fuel as [|[|fuel]]; vm_compute in E; discriminate.
Qed.

(** C6, as amended. On a 40-frame input with [chunk_size = 13] and
    [overlap = 4], and a codec that returns as many frames as it is given,
    [process_in_chunks] hands four windows to the codec, of 17, 17, 13 and
    1 frames, and blends three times. *)
Theorem forty_frames_four_windows :
  forall (A : Type) (arith : TensorArith A) (model : list A -> list A)
         (video_data : list A) (fuel : nat),
    (forall w, length (model w) = length w) ->
    length video_data = 40%nat ->
    (5 <= fuel)%nat ->
    run_counts (process_in_chunks model video_data 13 4 fuel) = Some (4%nat, 3%nat)
    /\ snd (shape_of (process_in_chunks model video_data 13 4 fuel))
       = ([17; 17; 13; 1]%nat, [(13, 17); (26, 30); (35, 36)]%nat).
Proof.
  intros A arith model video_data fuel Hlen H40 Hfuel.
  rewrite run_counts_of_shape, (process_in_chunks_shape model video_data 13 4 fuel Hlen), H40.
  replace fuel with (5 + (fuel - 5))%nat by lia.
  erewrite process_in_chunks_more_fuel by (vm_compute; reflexivity).
  split; reflexivity.
Qed.

(** The amended C6 on forty numbered frames and the identity codec. *)
Lemma forty_frames_four_windows_witness :
  run_counts (process_in_chunks (fun w : list Q => w) (numbered 40) 13 4 5)
    = Some (4%nat, 3%nat)
  /\ snd (shape_of (process_in_chunks (fun w : list Q => w) (numbered 40) 13 4 5))
     = ([17; 17; 13; 1]%nat, [(13, 17); (26, 30); (35, 36)]%nat).
Proof.
  apply (forty_frames_four_windows Q Q_arith (fun w => w) (numbered 40) 5).
  - reflexivity.
  - reflexivity.
  - lia.
Defined.

(** C6 as stated fails: on forty frames the run with the identity codec
    makes four codec invocations and three blends, and no amount of fuel
    gives a run with three and two. *)
Lemma three_windows_counterexample :
  (13 + 4 - 1) mod 4 = 0
  /\ run_counts (process_in_chunks (fun w : list Q => w) (numbered 40) 13 4 5)
     = Some (4%nat, 3%nat)
  /\ ~ (exists fuel,
          run_counts (process_in_chunks (fun w : list Q => w) (numbered 40) 13 4 fuel)
          = Some (3%nat, 2%nat)).
Proof.
  split; [reflexivity|]. split; [vm_compute; reflexivity|].
  intros [fuel E].
  destruct fuel as [|[|[|[|[|fuel]]]]]; vm_compute in E; discriminate.
Qed.

(** C3 (the code departs from the claim). With a codec that returns as
    many frames as it is given, [chunk_size = 13] and [overlap = 4], a
    40-frame input comes back with 37 frames and an 18-frame input with
    22. *)
Theorem output_length_differs_from_input :
  forall (A : Type) (arith : TensorArith A) (model : list A -> list A)
         (video_data : list A) (extra : nat),
    (forall w, length (model w) = length w) ->
    (13 + 4 - 1) mod 4 = 0
    /\ (length video_data = 40%nat ->
        output_length (process_in_chunks model video_data 13 4 (5 + extra))
        = Some 37%nat)
    /\ (length video_data = 18%nat ->
        output_length (process_in_chunks model video_data 13 4 (3 + extra))
        = Some 22%nat).
Proof.
  intros A arith model video_data extra Hlen.
  split; [reflexivity|].
  split; intros HT;
    rewrite output_length_of_shape,
      (process_in_chunks_shape model video_data 13 4 _ Hlen), HT;
    erewrite process_in_chunks_more_fuel by (vm_compute; reflexivity);
    reflexivity.
Qed.

(** The runs of C3 on numbered frames and the identity codec. *)
Lemma output_length_differs_from_input_witness :
  output_length (process_in_chunks (fun w : list Q => w) (numbered 40) 13 4 5)
    = Some 37%nat
  /\ output_length (process_in_chunks (fun w : list Q => w) (numbered 18) 13 4 3)
     = Some 22%nat.
Proof.
  split.
  - apply (proj1 (proj2 (output_length_differs_from_input
                           Q Q_arith (fun w => w) (numbered 40) 0
                           (fun w => eq_refl)))).
    reflexivity.
  - apply (proj2 (proj2 (output_length_differs_from_input
                           Q Q_arith (fun w => w) (numbered 18) 0
                           (fun w => eq_refl)))).
    reflexivity.
Defined.

(** C2 (the code departs from the claim). [chunk_size = 17] and
    [overlap = 0] pass the assertion.  On 34 frames with the identity codec
    the second iteration finds the 17 frames of the first window in the
    buffer, and [overlap_step = min(0, 17) = 0]: as the claim words it
    there is nothing to blend and the previous entry stays as it is.  The
    code writes the tail as [[-overlap_step:]], and [[-0:]] is the whole
    entry: 17 scaled frames are added to no frame, torch raises, and the
    call never returns.  The weights are the claimed ones: on rationals the
    blend is [0.25 * previous + 0.75 * current], and [1] with [0] gives
    [0.25]. *)
Theorem seam_raises_without_overlap :
  (17 + 0 - 1) mod 4 = 0
  /\ output_chunks (reached (fun w : list Q => w) (numbered 34) 17 0 1 initial)
     = [numbered 17]
  /\ overlap_step 0 (slice (Some 17) (Some 34) (numbered 34)) = 0
  /\ seam_as_claimed 0 (numbered 17) (slice (Some 17) (Some 34) (numbered 34))
     = numbered 17
  /\ length (slice (Some (- 0)) None (numbered 17)) = 17%nat
  /\ length (slice None (Some 0) (slice (Some 17) (Some 34) (numbered 34))) = 0%nat
  /\ overlap_tensor 0 (numbered 17) (slice (Some 17) (Some 34) (numbered 34))
     = inl RuntimeError
  /\ process_in_chunks (fun w : list Q => w) (numbered 34) 17 0 3
     = Raised RuntimeError
         {| codec_calls := [numbered 17; slice (Some 17) (Some 34) (numbered 34)];
            blend_spans := []; blend_frames := [] |}
  /\ (forall fuel,
        output_length (process_in_chunks (fun w : list Q => w) (numbered 34) 17 0 fuel)
        = None)
  /\ (forall p c : Q, blend p c == (1 # 4) * p + (3 # 4) * c)%Q
  /\ (blend 1 0 == 1 # 4)%Q.
Proof.
  split; [reflexivity|]. split; [reflexivity|]. split; [reflexivity|].
  split; [vm_compute; reflexivity|]. split; [reflexivity|]. split; [reflexivity|].
  split; [reflexivity|]. split; [vm_compute; reflexivity|].
  split; [|split].
  - intros fuel. destruct fuel as [|[|fuel]]; vm_compute; reflexivity.
  - intros p c. unfold blend; cbn [t_add t_div t_mul Q_arith]. field.
  - reflexivity.
Qed.

(** ** The shape normaliser *)

Lemma prefix_len_within (len : nat) (stop : Z) :
  0 <= stop <= Z.of_nat len -> Z.of_nat (Shape.prefix_len len stop) = stop.
Proof.
  intros Hs. unfold Shape.prefix_len, bounds, norm_index.
  destruct (Z.ltb_spec stop 0); lia.
Qed.

(** C5. For every frame sequence with time length at least 1,
    [_format_video_shape] with compression factors 4 and 8 returns the
    prefix sub-tensor whose time length is [time - 1 - (time - 1) mod 4]
    when [(time - 1) mod 4] is not zero and [time] otherwise, and whose
    height and width are the largest multiples of 8 not above the
    originals; no dimension grows; a time of 18 gives 16 and a height of
    130 gives 128. *)
Theorem format_video_shape_prefix :
  forall (A : Type) (v : Shape.video A),
    (1 <= Shape.time v)%nat ->
    exists out,
      Shape._format_video_shape v 4 8 = inr out
      /\ (let time := Z.of_nat (Shape.time v) in
          ((time - 1) mod 4 <> 0 ->
           Z.of_nat (Shape.time out) = time - 1 - (time - 1) mod 4)
          /\ ((time - 1) mod 4 = 0 -> Shape.time out = Shape.time v))
      /\ (let new_height := Z.of_nat (Shape.height out) in
          new_height mod 8 = 0
          /\ new_height <= Z.of_nat (Shape.height v) < new_height + 8)
      /\ (let new_width := Z.of_nat (Shape.width out) in
          new_width mod 8 = 0
          /\ new_width <= Z.of_nat (Shape.width v) < new_width + 8)
      /\ Shape.channels out = Shape.channels v
      /\ (Shape.time out <= Shape.time v)%nat
      /\ Shape.pixel out = Shape.pixel v
      /\ (Shape.time v = 18%nat -> Shape.time out = 16%nat)
      /\ (Shape.height v = 130%nat -> Shape.height out = 128%nat).
Proof.
  intros A v Ht. unfold Shape._format_video_shape. cbn [Z.eqb orb].
  eexists. split; [reflexivity|].
  cbn [Shape.channels Shape.time Shape.height Shape.width Shape.pixel].
  set (time := Z.of_nat (Shape.time v)).
  set (height := Z.of_nat (Shape.height v)).
  set (width := Z.of_nat (Shape.width v)).
  assert (Htime : 1 <= time) by (subst time; lia).
  assert (Hheight : 0 <= height) by (subst height; lia).
  assert (Hwidth : 0 <= width) by (subst width; lia).
  pose proof (Z.mod_pos_bound (time - 1) 4 ltac:(lia)) as Mt.
  pose proof (Z.mod_pos_bound height 8 ltac:(lia)) as Mh.
  pose proof (Z.mod_pos_bound width 8 ltac:(lia)) as Mw.
  pose proof (Z.mod_le (time - 1) 4 ltac:(lia) ltac:(lia)) as Lt.
  pose proof (Z.mod_le height 8 Hheight ltac:(lia)) as Lh.
  pose proof (Z.mod_le width 8 Hwidth ltac:(lia)) as Lw.
  assert (Et : Z.of_nat (Shape.prefix_len (Shape.time v)
                 (if negb ((time - 1) mod 4 =? 0)
                  then time - 1 - (time - 1) mod 4 else time))
               = (if negb ((time - 1) mod 4 =? 0)
                  then time - 1 - (time - 1) mod 4 else time)).
  { apply prefix_len_within. fold time.
    destruct (Z.eqb_spec ((time - 1) mod 4) 0); cbn [negb]; lia. }
  assert (Eh : Z.of_nat (Shape.prefix_len (Shape.height v)
                 (if negb (height mod 8 =? 0) then height - height mod 8 else height))
               = height - height mod 8).
  { rewrite prefix_len_within; fold height;
      destruct (Z.eqb_spec (height mod 8) 0); cbn [negb]; lia. }
  assert (Ew : Z.of_nat (Shape.prefix_len (Shape.width v)
                 (if negb (width mod 8 =? 0) then width - width mod 8 else width))
               = width - width mod 8).
  { rewrite prefix_len_within; fold width;
      destruct (Z.eqb_spec (width mod 8) 0); cbn [negb]; lia. }
  cbv zeta. rewrite Eh, Ew.
  assert (Dh : (height - height mod 8) mod 8 = 0).
  { rewrite Zminus_mod, Z.mod_mod, Z.sub_diag by lia. reflexivity. }
  assert (Dw : (width - width mod 8) mod 8 = 0).
  { rewrite Zminus_mod, Z.mod_mod, Z.sub_diag by lia. reflexivity. }
  repeat split; try lia.
  - intros Hne. rewrite Et.
    destruct (Z.eqb_spec ((time - 1) mod 4) 0); [contradiction|reflexivity].
  - intros Heq. apply Nat2Z.inj. rewrite Et.
    destruct (Z.eqb_spec ((time - 1) mod 4) 0); [reflexivity|contradiction].
  - apply Nat2Z.inj_le. rewrite Et. fold time.
    destruct (Z.eqb_spec ((time - 1) mod 4) 0); cbn [negb]; lia.
  - intros E. apply Nat2Z.inj. rewrite Et. subst time. rewrite E. reflexivity.
  - intros E. apply Nat2Z.inj. rewrite Eh. subst height. rewrite E. reflexivity.
Qed.

(** C5 on an 18-frame video of 130 by 70 pixels. *)
Lemma format_video_shape_prefix_witness :
  exists out,
    Shape._format_video_shape
      {| Shape.channels := 3; Shape.time := 18; Shape.height := 130;
         Shape.width := 70; Shape.pixel := fun _ _ _ _ => 0 |} 4 8 = inr out
    /\ Shape.time out = 16%nat /\ Shape.height out = 128%nat
    /\ Shape.width out = 64%nat.
Proof.
  destruct (format_video_shape_prefix Z
              {| Shape.channels := 3; Shape.time := 18; Shape.height := 130;
                 Shape.width := 70; Shape.pixel := fun _ _ _ _ => 0 |})
    as [out [E [_ [_ [_ [_ [_ [_ [T18 H130]]]]]]]]].
  - cbn; lia.
  - exists out. split; [exact E|]. split; [now apply T18|]. split; [now apply H130|].
    cbv in E. inversion E. reflexivity.
Defined.

(** ** The video emitter *)

Lemma clamp_range (x lo hi : Q) : (lo <= hi -> lo <= Emitter.clamp x lo hi <= hi)%Q.
Proof.
  intros Hle. unfold Emitter.clamp. split.
  - apply Q.min_glb; [apply Q.le_max_r | exact Hle].
  - apply Q.le_min_r.
Qed.

Lemma astype_uint8_in_range (x : Q) :
  (0 <= x <= 255)%Q ->
  Emitter.astype_uint8 x = Qfloor x /\ 0 <= Qfloor x <= 255.
Proof.
  intros [H0 H255].
  assert (F0 : 0 <= Qfloor x) by (apply (Qfloor_resp_le 0 x) in H0; exact H0).
  assert (F255 : Qfloor x <= 255) by (apply (Qfloor_resp_le x 255) in H255; exact H255).
  unfold Emitter.astype_uint8, Float64.int_of_float.
  destruct (Qle_bool 0 x) eqn:E.
  - rewrite Z.mod_small by lia. split; [reflexivity | lia].
  - rewrite <- Qle_bool_iff in H0. congruence.
Qed.

(** C10. Whatever the rounding of the tensor's floating-point format,
    provided it is monotone on the non-negative numbers and leaves 0, 1, 2
    and 255 as they are (half, single and double precision all do), and
    whatever the values of the input, within [[-1, 1]] or not:
    [custom_to_video] clamps each value to [[-1, 1]], maps it by
    [(x + 1) / 2] and scales it by 255, and every value it hands to the
    video writer is an integer from 0 to 255, the integer part of the
    scaled value with no wrap-around. *)
Theorem emitted_pixels_are_bytes :
  forall (rnd : Q -> Q),
    (forall x y, 0 <= x -> x <= y -> rnd x <= rnd y)%Q ->
    (rnd 0 == 0)%Q -> (rnd 1 == 1)%Q -> (rnd 2 == 2)%Q -> (rnd 255 == 255)%Q ->
    forall x : list Q,
      Forall (fun p => 0 <= p <= 255) (Emitter.custom_to_video rnd x)
      /\ (forall v,
            (-1 <= Emitter.clamp v (-1) 1 <= 1)%Q
            /\ Emitter.to_pixel rnd v
               = Qfloor (rnd (255 * rnd (rnd (Emitter.clamp v (-1) 1 + 1) / 2))%Q)).
Proof.
  intros rnd Hmono R0 R1 R2 R255 x.
  assert (Hpix : forall v,
    (-1 <= Emitter.clamp v (-1) 1 <= 1)%Q
    /\ Emitter.to_pixel rnd v
       = Qfloor (rnd (255 * rnd (rnd (Emitter.clamp v (-1) 1 + 1) / 2))%Q)
    /\ 0 <= Emitter.to_pixel rnd v <= 255).
  { intros v.
    pose proof (clamp_range v (-1) 1 ltac:(discriminate)) as [Cl Ch].
    set (c := Emitter.clamp v (-1) 1) in *.
    assert (Between : forall a k, (0 <= a <= k -> rnd k == k -> 0 <= rnd a <= k)%Q).
    { intros a k [Ha Hak] Hk. split.
      - apply Qle_trans with (rnd 0%Q); [rewrite R0; apply Qle_refl|].
        apply Hmono; [apply Qle_refl | exact Ha].
      - apply Qle_trans with (rnd k); [now apply Hmono | rewrite Hk; apply Qle_refl]. }
    assert (S1 : (0 <= rnd (c + 1) <= 2)%Q) by (apply Between; [lra | exact R2]).
    assert (S2 : (0 <= rnd (rnd (c + 1) / 2) <= 1)%Q).
    { apply Between; [|exact R1].
      unfold Qdiv; change (/ 2)%Q with (1 # 2)%Q; lra. }
    assert (S3 : (0 <= rnd (255 * rnd (rnd (c + 1) / 2)) <= 255)%Q)
      by (apply Between; [lra | exact R255]).
    destruct (astype_uint8_in_range _ S3) as [E B].
    unfold Emitter.to_pixel. fold c. rewrite E. repeat split; lra || lia. }
  split.
  - unfold Emitter.custom_to_video. apply Forall_map, Forall_forall.
    intros v _. apply Hpix.
  - intros v. destruct (Hpix v) as [C [E _]]. split; assumption.
Qed.

(** C10 with double-precision rounding, on values inside and outside
    [[-1, 1]]. *)
Lemma emitted_pixels_are_bytes_witness :
  Forall (fun p => 0 <= p <= 255)
    (Emitter.custom_to_video RN [-3; -1; 0; 1 # 2; 1; 7]%Q).
Proof.
  apply (emitted_pixels_are_bytes RN).
  - exact RN_mono.
  - reflexivity.
  - vm_compute; reflexivity.
  - vm_compute; reflexivity.
  - vm_compute; reflexivity.
Defined.

(** ** The frame sampler *)

(** C9. For every video of [1 <= total_frames <= 2^50] frames, every
    [num_frames >= 1] that Python turns into a float
    ([num_frames < 2^1024 - 2^970]; from there on the product of line 123
    raises [OverflowError] and no index is computed) and every
    [sample_rate >= 1], the frame indices that [read_video] and
    [_load_video] compute lie within [[0, total_frames)] and each is
    smaller than all that follow. *)
Theorem frame_ids_in_range_and_increasing :
  forall total_frames num_frames sample_rate : Z,
    1 <= total_frames <= 2 ^ 50 ->
    1 <= num_frames < 2 ^ 1024 - 2 ^ 970 ->
    1 <= sample_rate ->
    exists ids,
      read_video total_frames num_frames sample_rate = inr ids
      /\ _load_video total_frames num_frames sample_rate = inr ids
      /\ Forall (fun i => 0 <= i < total_frames) ids
      /\ StronglySorted Z.lt ids.
Proof.
  intros t n r Ht Hn Hr. unfold read_video, _load_video, frame_id_list.
  assert (Small : forall p num, 0 <= p < t -> 0 <= num -> num - 1 <= p ->
            exists ids, linspace 0 p num = inr ids /\ in_range_increasing t ids).
  { intros p num Hp Hnum Hq.
    destruct (Z.eq_dec num 0) as [->|N0].
    { exists []. split; [apply linspace_empty|]. split; constructor. }
    destruct (Z.eq_dec num 1) as [->|N1].
    { exists [0]. split; [apply linspace_single|].
      split; repeat constructor; lia. }
    destruct (linspace_sorted_wide p num ltac:(lia) ltac:(lia)) as [ids [E [F S]]].
    exists ids. split; [exact E|]. split; [|exact S].
    eapply Forall_impl; [|exact F]. cbv beta. intros; lia. }
  destruct (Z_gt_le_dec t (r * n)) as [Hgt|Hle].
  - unfold sampling_plan. destruct (Z.gtb_spec t (r * n)) as [_|?]; [|lia].
    cbn [Z.add].
    destruct (Small (r * n - 1) n ltac:(nia) ltac:(lia) ltac:(nia)) as [ids [E [F S]]].
    exists ids. repeat split; assumption.
  - destruct (reduced_count_bound_wide t n r Ht Hn Hr Hle) as [c [E Hc]].
    rewrite E.
    destruct (Small (t - 1) c ltac:(lia) ltac:(lia) ltac:(lia)) as [ids [El [F S]]].
    exists ids. repeat split; assumption.
Qed.

(** C9 on a 100-frame video, 17 samples at stride 3. *)
Lemma frame_ids_in_range_and_increasing_witness :
  exists ids,
    read_video 100 17 3 = inr ids
    /\ _load_video 100 17 3 = inr ids
    /\ Forall (fun i => 0 <= i < 100) ids
    /\ StronglySorted Z.lt ids.
Proof.
  apply (frame_ids_in_range_and_increasing 100 17 3).
  - split; [lia | discriminate].
  - split; [lia | reflexivity].
  - lia.
Defined.

(** Some bound on the number of frames is needed: past the integers that
    double precision holds, an end point of [linspace] is rounded up.  With
    [2^54 + 4] frames, [num_frames = 2] and [sample_rate = 2^53 + 2] the
    end point [2^54 + 3] becomes [2^54 + 4]. *)
Lemma frame_ids_beyond_double_precision :
  read_video 18014398509481988 2 9007199254740994 = inr [0; 18014398509481988].
Proof. vm_compute; reflexivity. Qed.

(** C4 (the code departs from the claim). For 10 frames, 17 samples and
    stride 1 the sampler takes the whole range [[0, 9]] and 10 samples.
    For 32 frames and 49 samples the double-precision product
    [32 / 49 * 49] falls just below 32 and [int] makes it 31, where the
    floor of the exact value is 32; for 1 frame and 49 samples it gives no
    sample at all. *)
Theorem reduced_count_is_truncated_double :
  sampling_plan 10 17 1 = inr (0, 10, 10)
  /\ read_video 10 17 1 = inr [0; 1; 2; 3; 4; 5; 6; 7; 8; 9]
  /\ sampling_plan 32 49 1 = inr (0, 32, 31)
  /\ Qfloor (32 / (49 * 1) * 49) = 32
  /\ sampling_plan 1 49 1 = inr (0, 1, 0)
  /\ Qfloor (1 / (49 * 1) * 49) = 1
  /\ _load_video 1 49 1 = inr [].
Proof. repeat split; vm_compute; reflexivity. Qed.

(** * Further properties *)

(** ** Windows of the driver *)

Module WindowFacts.
Import PySlice PySliceFacts Driver DriverFacts Runs.

Lemma iterations_spec {A} (video_data : list A) cs (k : nat) :
  1 <= cs ->
  (Z.of_nat k * cs < num_frames video_data <-> (k < iterations video_data cs)%nat).
Proof.
  intros Hcs. unfold iterations.
  set (T := num_frames video_data).
  assert (HT : 0 <= T) by (subst T; unfold num_frames; lia).
  assert (Hq : 0 <= (T + cs - 1) / cs) by (apply Z.div_pos; lia).
  pose proof (Z.div_mod (T + cs - 1) cs ltac:(lia)) as E.
  pose proof (Z.mod_pos_bound (T + cs - 1) cs ltac:(lia)) as B.
  split; intros Hk.
  - assert (Z.of_nat k < (T + cs - 1) / cs) by nia. lia.
  - assert (Z.of_nat k + 1 <= (T + cs - 1) / cs) by lia. nia.
Qed.

Section Windows.
Context {A : Type} `{TensorArith A}.
Variable model : list A -> list A.
Variable video_data : list A.
Variables chunk_size overlap : Z.
Hypothesis Hcs : 1 <= chunk_size.

#[local] Abbreviation body := (loop_body model video_data chunk_size overlap).
#[local] Abbreviation loop := (while_loop model video_data chunk_size overlap).
#[local] Abbreviation T := (num_frames video_data).
#[local] Abbreviation win := (window video_data chunk_size overlap).
#[local] Abbreviation n := (iterations video_data chunk_size).

#[local] Abbreviation after := (after_windows video_data chunk_size overlap).

Lemma after_initial : after 0 (@initial A).
Proof. unfold after_windows; cbn. repeat split; auto; lia. Qed.

Lemma seq_snoc k : seq 0 (S k) = seq 0 k ++ [k].
Proof. rewrite seq_S. reflexivity. Qed.

Lemma loop_body_after k st :
  after k st -> start st < T ->
  match body st with
  | inr st' => after (S k) st'
  | inl (_, tr) =>
      codec_calls tr = map win (seq 0 (S k)) /\ (S k <= n)%nat
  end.
Proof.
  intros (Hs & Hc & Hb & Ho & Hn) Hlt.
  assert (Hk : (S k <= n)%nat).
  { apply (iterations_spec video_data chunk_size k Hcs). now rewrite <- Hs. }
  assert (Hcalls : codec_calls (log st)
                     ++ [slice (Some (start st))
                           (Some (window_end video_data chunk_size overlap (start st)))
                           video_data]
                   = map win (seq 0 (S k))).
  { rewrite seq_snoc, map_app, Hc, Hs. reflexivity. }
  unfold loop_body.
  destruct (unsnoc (output_chunks st)) as [[earlier last_chunk]|] eqn:U.
  - assert (k <> 0%nat).
    { intros ->. apply unsnoc_inv in U. destruct Ho as [Ho _].
      rewrite Ho in U by reflexivity. destruct earlier; discriminate. }
    destruct (overlap_tensor _ _ _) as [e|blended].
    + cbn [codec_calls]. split; assumption.
    + unfold after_windows. cbn [start output_chunks log codec_calls blend_spans].
      repeat split; try assumption.
      * rewrite Hs. lia.
      * rewrite length_app, Hb. cbn. lia.
      * discriminate.
      * intros E. destruct earlier; discriminate.
  - unfold after_windows. cbn [start output_chunks log codec_calls blend_spans].
    apply unsnoc_nil_inv in U. apply Ho in U. subst k.
    repeat split; try assumption.
    + rewrite Hs. lia.
    + discriminate.
    + discriminate.
Qed.

Lemma while_loop_after fuel k st :
  after k st ->
  match loop fuel st with
  | Some (inr st') => after n st' /\ T <= start st'
  | Some (inl (_, tr)) =>
      exists j, (j <= n)%nat /\ codec_calls tr = map win (seq 0 j)
  | None => True
  end.
Proof.
  revert k st; induction fuel as [|fuel IH]; intros k st Hk; cbn [while_loop]; [exact I|].
  destruct (Z.ltb_spec (start st) T) as [Hlt|Hge].
  - pose proof (loop_body_after k st Hk Hlt) as B.
    destruct (body st) as [[e tr]|st'].
    + exists (S k). destruct B; split; assumption.
    + apply (IH (S k)); exact B.
  - split; [|exact Hge].
    destruct Hk as (Hs & Hc & Hb & Ho & Hn).
    assert (k = n).
    { destruct (Nat.eq_dec k n) as [|Hne]; [assumption|exfalso].
      assert (Hlt : (k < n)%nat) by lia.
      apply (iterations_spec video_data chunk_size k Hcs) in Hlt. lia. }
    subst k. unfold after_windows. auto.
Qed.

Lemma reached_after fuel k st :
  after k st ->
  exists j, after j (reached model video_data chunk_size overlap fuel st).
Proof.
  revert k st; induction fuel as [|fuel IH]; intros k st Hk.
  - exists k. exact Hk.
  - rewrite reached_step.
    destruct (Z.ltb_spec (start st) T) as [Hlt|Hge]; [|exists k; exact Hk].
    pose proof (loop_body_after k st Hk Hlt) as B.
    destruct (body st) as [[e tr]|st']; [exists k; exact Hk|].
    apply (IH (S k)); exact B.
Qed.

(** The windows of a run, whatever its outcome. *)
Lemma process_in_chunks_windows fuel :
  exists k, (k <= n)%nat
    /\ codec_calls (trace_of (process_in_chunks model video_data chunk_size overlap fuel))
       = map win (seq 0 k)
    /\ match process_in_chunks model video_data chunk_size overlap fuel with
       | Returned _ tr => k = n /\ length (blend_spans tr) = pred n /\ (1 <= n)%nat
       | _ => True
       end.
Proof.
  unfold process_in_chunks.
  destruct (negb _).
  - exists 0%nat. cbn. repeat split; lia.
  - pose proof (while_loop_after fuel 0 initial after_initial) as W.
    pose proof (reached_after fuel 0 initial after_initial) as R.
    destruct (loop fuel initial) as [[[e tr]|st]|].
    + destruct W as (j & Hj & Hc). exists j. cbn. auto.
    + destruct W as [(Hs & Hc & Hb & Ho & Hn) HT].
      destruct (output_chunks st) eqn:Eo.
      * exists n. cbn. auto.
      * exists n. cbn. repeat split; auto.
        destruct n; [|lia]. destruct Ho as [Ho _]. now specialize (Ho eq_refl).
    + destruct R as (j & Hs & Hc & Hb & Ho & Hn). exists j. cbn. auto.
Qed.

End Windows.
(** [x[a:b]] for [0 <= a <= b <= len(x)]. *)
Lemma slice_range {X} a b (x : list X) :
  0 <= a <= b -> b <= Z.of_nat (length x) ->
  slice (Some a) (Some b) x = firstn (Z.to_nat (b - a)) (skipn (Z.to_nat a) x).
Proof.
  intros Ha Hb. unfold slice, bounds, norm_index.
  destruct (Z.ltb_spec a 0); [lia|]. destruct (Z.ltb_spec b 0); [lia|].
  now rewrite !Z.min_l by lia.
Qed.

Lemma nth_error_firstn_skipn {X} m a j (x : list X) :
  (j < m)%nat -> nth_error (firstn m (skipn a x)) j = nth_error x (a + j).
Proof.
  intros Hj. rewrite nth_error_firstn.
  destruct (Nat.ltb_spec j m); [|lia]. apply nth_error_skipn.
Qed.

Lemma window_end_bounds {A} (video_data : list A) chunk_size overlap s :
  0 <= overlap ->
  0 <= s < num_frames video_data ->
  Z.min (s + chunk_size) (num_frames video_data)
    <= window_end video_data chunk_size overlap s <= num_frames video_data
  /\ window_end video_data chunk_size overlap s <= s + chunk_size + overlap.
Proof.
  intros Hov Hs. unfold window_end.
  destruct (Z.ltb_spec (s + chunk_size + overlap) (num_frames video_data)); lia.
Qed.

Section OneWindow.
Context {A : Type}.
Variable video_data : list A.
Variables chunk_size overlap : Z.
Hypothesis Hcs : 1 <= chunk_size.
Hypothesis Hov : 0 <= overlap.

#[local] Abbreviation T := (num_frames video_data).

Lemma window_is_range (k : nat) :
  Z.of_nat k * chunk_size < T ->
  window video_data chunk_size overlap k
  = firstn (Z.to_nat (window_end video_data chunk_size overlap (Z.of_nat k * chunk_size)
                      - Z.of_nat k * chunk_size))
           (skipn (Z.to_nat (Z.of_nat k * chunk_size)) video_data).
Proof.
  intros Hk. unfold window.
  pose proof (window_end_bounds video_data chunk_size overlap (Z.of_nat k * chunk_size)
                Hov ltac:(nia)) as B.
  apply slice_range; unfold num_frames in *; nia.
Qed.

Lemma window_length (k : nat) :
  Z.of_nat k * chunk_size < T ->
  Z.of_nat (length (window video_data chunk_size overlap k))
  = window_end video_data chunk_size overlap (Z.of_nat k * chunk_size)
    - Z.of_nat k * chunk_size.
Proof.
  intros Hk. rewrite (window_is_range k Hk).
  pose proof (window_end_bounds video_data chunk_size overlap (Z.of_nat k * chunk_size)
                Hov ltac:(nia)) as B.
  rewrite length_firstn, length_skipn. unfold num_frames in *. nia.
Qed.

Lemma window_size (k : nat) :
  (k < iterations video_data chunk_size)%nat ->
  1 <= Z.of_nat (length (window video_data chunk_size overlap k))
    <= chunk_size + overlap.
Proof.
  intros Hk. apply (iterations_spec video_data chunk_size k Hcs) in Hk.
  rewrite (window_length k Hk).
  pose proof (window_end_bounds video_data chunk_size overlap (Z.of_nat k * chunk_size)
                Hov ltac:(nia)) as B. lia.
Qed.

Lemma window_holds_frame (i : nat) :
  (i < length video_data)%nat ->
  (i / Z.to_nat chunk_size < iterations video_data chunk_size)%nat
  /\ nth_error (window video_data chunk_size overlap (i / Z.to_nat chunk_size))
               (i mod Z.to_nat chunk_size)
     = nth_error video_data i.
Proof.
  intros Hi.
  set (c := Z.to_nat chunk_size). assert (Hc : (1 <= c)%nat) by (subst c; lia).
  assert (Ec : chunk_size = Z.of_nat c) by (subst c; lia).
  pose proof (Nat.div_mod_eq i c) as E.
  pose proof (Nat.mod_upper_bound i c ltac:(lia)) as M.
  set (k := (i / c)%nat) in *. set (j := (i mod c)%nat) in *.
  assert (Hk : Z.of_nat k * chunk_size < T) by (unfold num_frames; nia).
  split; [now apply (iterations_spec video_data chunk_size k Hcs)|].
  rewrite (window_is_range k Hk).
  pose proof (window_end_bounds video_data chunk_size overlap (Z.of_nat k * chunk_size)
                Hov ltac:(nia)) as B.
  rewrite nth_error_firstn_skipn by (unfold num_frames in *; nia).
  f_equal. nia.
Qed.

End OneWindow.
End WindowFacts.

(** ** Frames returned by the driver *)

Module LengthFacts.
Import PySlice PySliceFacts Driver DriverFacts Runs WindowFacts.

Lemma map2_length {X Y W} (f : X -> Y -> W) (x : list X) (y : list Y) :
  length (map2 f x y) = Nat.min (length x) (length y).
Proof.
  revert y; induction x as [|a x IH]; intros [|b y]; cbn; try reflexivity.
  now rewrite IH.
Qed.

Lemma slice_from_length {X} k (x : list X) :
  0 <= k <= Z.of_nat (length x) ->
  Z.of_nat (length (slice (Some k) None x)) = Z.of_nat (length x) - k.
Proof.
  intros Hk. rewrite slice_length. unfold bounds, norm_index; cbn [fst snd].
  destruct (Z.ltb_spec k 0); lia.
Qed.

Section Safe.
Context {A : Type} `{TensorArith A}.
Variable model : list A -> list A.
Variable video_data : list A.
Variables chunk_size overlap : Z.
Hypothesis Hlen : forall w, length (model w) = length w.
Hypothesis Hov : 1 <= overlap.
Hypothesis Hcs : 2 * overlap <= chunk_size.

#[local] Abbreviation body := (loop_body model video_data chunk_size overlap).
#[local] Abbreviation loop := (while_loop model video_data chunk_size overlap).
#[local] Abbreviation T := (num_frames video_data).
#[local] Abbreviation n := (iterations video_data chunk_size).

#[local] Abbreviation total := (@frames_buffered A).
#[local] Abbreviation filled := (buffer_filled video_data chunk_size overlap).

Lemma chunk_length s :
  0 <= s < T ->
  Z.of_nat (length (model (slice (Some s)
                      (Some (window_end video_data chunk_size overlap s)) video_data)))
  = window_end video_data chunk_size overlap s - s.
Proof.
  intros Hs. rewrite Hlen.
  pose proof (window_end_bounds video_data chunk_size overlap s ltac:(lia) Hs) as B.
  rewrite slice_range by (unfold num_frames in *; lia).
  rewrite length_firstn, length_skipn. unfold num_frames in *. lia.
Qed.

Lemma last_window_frames (k : nat) :
  Z.of_nat k * chunk_size < T -> T <= Z.of_nat k * chunk_size + chunk_size ->
  (T - 1) mod chunk_size + 1 = T - Z.of_nat k * chunk_size.
Proof.
  intros H1 H2.
  assert (E : (T - 1) mod chunk_size = T - 1 - Z.of_nat k * chunk_size).
  { symmetry. apply (Z.mod_unique_pos _ _ (Z.of_nat k)); lia. }
  lia.
Qed.

Lemma first_iteration :
  0 < T ->
  exists st', body initial = inr st' /\ filled 1 st'.
Proof.
  intros HT. rewrite loop_body_first by reflexivity.
  eexists; split; [reflexivity|].
  unfold buffer_filled. cbn [start output_chunks initial].
  split; [lia|]. split; [lia|].
  eexists [], _. split; [reflexivity|].
  pose proof (chunk_length 0 ltac:(lia)) as L.
  unfold frames_buffered. cbn [output_chunks concat]. rewrite app_nil_r.
  cbn [Z.add] in *. rewrite L.
  unfold window_end, returned_frames. cbn [Z.add].
  destruct (Z.ltb_spec chunk_size T), (Z.ltb_spec (chunk_size + overlap) T),
           (Z.leb_spec T chunk_size); lia.
Qed.

Lemma next_iteration k st :
  filled k st -> start st < T ->
  exists st', body st = inr st' /\ filled (S k) st'.
Proof.
  intros (Hk & Hs & earlier & last_chunk & Eo & Hinv) Hlt.
  destruct (Z.ltb_spec (start st) T) as [_|]; [|lia].
  destruct Hinv as [Htot HL].
  assert (Hs0 : 0 <= start st) by nia.
  pose proof (chunk_length (start st) ltac:(lia)) as Lw.
  pose proof (window_end_bounds video_data chunk_size overlap (start st)
                ltac:(lia) ltac:(lia)) as B.
  set (end_ := window_end video_data chunk_size overlap (start st)) in *.
  set (recon := model (slice (Some (start st)) (Some end_) video_data)) in *.
  assert (Hstep : 1 <= overlap_step overlap recon <= Z.of_nat (length last_chunk))
    by (unfold overlap_step; lia).
  unfold loop_body. fold end_. fold recon.
  rewrite Eo, unsnoc_snoc, (overlap_tensor_blend overlap last_chunk recon Hstep).
  eexists; split; [reflexivity|].
  unfold buffer_filled. cbn [start output_chunks log].
  split; [lia|]. split; [lia|].
  exists (earlier
            ++ [slice None (Some (- overlap)) last_chunk
                  ++ map2 blend
                       (last_n (Z.to_nat (overlap_step overlap recon)) last_chunk)
                       (firstn (Z.to_nat (overlap_step overlap recon)) recon)]),
         (if end_ <? T then slice (Some overlap) None recon else recon).
  split; [now rewrite <- app_assoc|].
  assert (Etot : total st = Z.of_nat (length (concat earlier)) + Z.of_nat (length last_chunk)).
  { unfold frames_buffered. rewrite Eo, concat_app, length_app. cbn [concat].
    rewrite app_nil_r. lia. }
  assert (Eblend :
    Z.of_nat (length (map2 blend
                        (last_n (Z.to_nat (overlap_step overlap recon)) last_chunk)
                        (firstn (Z.to_nat (overlap_step overlap recon)) recon)))
    = overlap_step overlap recon).
  { rewrite map2_length. unfold last_n. rewrite length_skipn, length_firstn.
    unfold overlap_step in *. lia. }
  assert (Ekept : Z.of_nat (length (slice None (Some (- overlap)) last_chunk))
                  = Z.of_nat (length last_chunk) - overlap).
  { rewrite slice_but_last by lia. rewrite length_firstn. lia. }
  unfold frames_buffered. cbn [output_chunks].
  rewrite concat_app, !length_app. cbn [concat]. rewrite app_nil_r, !length_app.
  rewrite !Nat2Z.inj_add, Ekept, Eblend.
  unfold overlap_step. fold (num_frames video_data).
  unfold window_end in end_.
  destruct (Z.ltb_spec (start st + chunk_size) T) as [Hmore|Hlast].
  - (* another window follows *)
    assert (Ha : end_ < T).
    { subst end_. destruct (Z.ltb_spec (start st + chunk_size + overlap) T); lia. }
    destruct (Z.ltb_spec end_ T) as [_|]; [|lia].
    assert (Hw : overlap <= Z.of_nat (length recon)).
    { rewrite Lw. subst end_.
      destruct (Z.ltb_spec (start st + chunk_size + overlap) T); lia. }
    rewrite (slice_from_length overlap recon) by lia.
    destruct (Z.ltb_spec (start st + overlap) T); [|lia].
    split.
    + rewrite Lw in *. subst end_.
      destruct (Z.ltb_spec (start st + chunk_size + overlap) T); lia.
    + rewrite Lw in *. subst end_.
      destruct (Z.ltb_spec (start st + chunk_size + overlap) T); lia.
  - (* the last window *)
    assert (Ha : end_ = T).
    { subst end_. destruct (Z.ltb_spec (start st + chunk_size + overlap) T); lia. }
    destruct (Z.ltb_spec end_ T) as [|_]; [lia|].
    unfold returned_frames.
    assert (cs_lt : chunk_size < T) by nia.
    destruct (Z.leb_spec T chunk_size); [lia|].
    rewrite (last_window_frames k) by lia.
    cbv zeta. rewrite Lw, Ha in *.
    destruct (Z.ltb_spec (start st + overlap) T),
             (Z.ltb_spec overlap (T - Z.of_nat k * chunk_size)); lia.
Qed.

Lemma while_loop_filled fuel k st :
  filled k st -> (n - k < fuel)%nat ->
  exists st', loop fuel st = Some (inr st')
    /\ output_chunks st' <> []
    /\ total st' = returned_frames T chunk_size overlap.
Proof.
  revert k st; induction fuel as [|fuel IH]; intros k st Hk Hfuel; [lia|].
  cbn [while_loop].
  destruct (Z.ltb_spec (start st) T) as [Hlt|Hge].
  - destruct (next_iteration k st Hk Hlt) as (st' & -> & Hk').
    apply (IH (S k)); [exact Hk'|].
    destruct Hk as (_ & Hs & _).
    assert ((k < n)%nat)
      by (apply (iterations_spec video_data chunk_size k ltac:(lia)); lia).
    lia.
  - exists st. split; [reflexivity|].
    destruct Hk as (_ & _ & earlier & last_chunk & Eo & Hinv).
    destruct (Z.ltb_spec (start st) T); [lia|].
    split; [|exact Hinv].
    rewrite Eo. destruct earlier; discriminate.
Qed.

Lemma process_in_chunks_length fuel :
  (chunk_size + overlap - 1) mod 4 = 0 ->
  0 < T -> (n < fuel)%nat ->
  exists out tr,
    process_in_chunks model video_data chunk_size overlap fuel = Returned out tr
    /\ Z.of_nat (length out) = returned_frames T chunk_size overlap.
Proof.
  intros Hpre HT Hfuel. unfold process_in_chunks.
  rewrite Hpre. cbn [Z.eqb negb].
  destruct fuel as [|fuel]; [lia|]. cbn [while_loop].
  cbn [start initial]. destruct (Z.ltb_spec 0 T); [|lia].
  destruct (first_iteration HT) as (st1 & -> & H1).
  assert (Hn : (0 < n)%nat)
    by (apply (iterations_spec video_data chunk_size 0 ltac:(lia)); cbn; lia).
  destruct (while_loop_filled fuel 1 st1 H1 ltac:(lia)) as (st' & -> & Hne & Htot).
  destruct (output_chunks st') as [|c l] eqn:Eo; [contradiction|].
  eexists _, _. split; [reflexivity|].
  unfold frames_buffered in Htot. now rewrite Eo in Htot.
Qed.

End Safe.
End LengthFacts.

(** ** The loop of the driver and the range of its values *)

Module LoopFacts.
Import PySlice PySliceFacts Driver DriverFacts Runs WindowFacts.

Section Loop.
Context {A : Type} `{TensorArith A}.
Variable model : list A -> list A.
Variable video_data : list A.
Variables chunk_size overlap : Z.

#[local] Abbreviation body := (loop_body model video_data chunk_size overlap).
#[local] Abbreviation loop := (while_loop model video_data chunk_size overlap).
#[local] Abbreviation T := (num_frames video_data).
#[local] Abbreviation n := (iterations video_data chunk_size).

(** A cursor that does not advance never leaves the loop. *)
Lemma while_loop_stuck fuel st st' :
  chunk_size <= 0 -> start st < T -> loop fuel st <> Some (inr st').
Proof.
  intros Hcs. revert st; induction fuel as [|fuel IH]; intros st Hlt; cbn [while_loop];
    [discriminate|].
  destruct (Z.ltb_spec (start st) T); [|lia].
  destruct (body st) as [err|st1] eqn:E; [discriminate|].
  apply IH. rewrite (loop_body_start _ _ _ _ _ _ E). lia.
Qed.

Lemma process_in_chunks_stuck fuel :
  chunk_size <= 0 -> 0 < T ->
  output_length (process_in_chunks model video_data chunk_size overlap fuel) = None.
Proof.
  intros Hcs HT. unfold process_in_chunks.
  destruct (negb _); [reflexivity|].
  pose proof (while_loop_stuck fuel initial) as W.
  destruct (loop fuel initial) as [[[e tr]|st]|]; try reflexivity.
  exfalso. apply (W st Hcs); [exact HT | reflexivity].
Qed.

(** The loop takes its iterations and one more test. *)
Lemma while_loop_ends fuel k st :
  1 <= chunk_size ->
  start st = Z.of_nat k * chunk_size -> (n - k < fuel)%nat -> loop fuel st <> None.
Proof.
  intros Hcs. revert k st; induction fuel as [|fuel IH]; intros k st Hs Hfuel; [lia|].
  cbn [while_loop].
  destruct (Z.ltb_spec (start st) T) as [Hlt|Hge]; [|discriminate].
  destruct (body st) as [err|st'] eqn:E; [discriminate|].
  apply (IH (S k)).
  - rewrite (loop_body_start _ _ _ _ _ _ E). lia.
  - assert ((k < n)%nat) by (apply (iterations_spec video_data chunk_size k Hcs); lia).
    lia.
Qed.

Lemma process_in_chunks_ends fuel :
  1 <= chunk_size -> (n < fuel)%nat ->
  fst (shape_of (process_in_chunks model video_data chunk_size overlap fuel)) <> VOutOfFuel.
Proof.
  intros Hcs Hfuel. unfold process_in_chunks.
  destruct (negb _); [discriminate|].
  pose proof (while_loop_ends fuel 0 initial Hcs eq_refl ltac:(lia)) as W.
  destruct (loop fuel initial) as [[[e tr]|st]|].
  - discriminate.
  - destruct (output_chunks st); discriminate.
  - contradiction.
Qed.

End Loop.

(** Blending keeps values between the two it blends. *)
Lemma blend_between lo hi (p c : Q) :
  (lo <= p <= hi)%Q -> (lo <= c <= hi)%Q -> (lo <= blend p c <= hi)%Q.
Proof.
  intros Hp Hc. unfold blend; cbn [t_add t_div t_mul Q_arith].
  unfold Qdiv. change (/ inject_Z 4)%Q with (1 # 4)%Q.
  change (inject_Z 1) with 1%Q. change (inject_Z 3) with 3%Q.
  split; lra.
Qed.

Lemma Forall_prefix {X} (P : X -> Prop) k (x : list X) :
  Forall P x -> Forall P (firstn k x).
Proof.
  intros Hx; revert k; induction Hx as [|a x Ha Hx IH]; intros [|k]; cbn;
    constructor; auto.
Qed.

Lemma Forall_suffix {X} (P : X -> Prop) k (x : list X) :
  Forall P x -> Forall P (skipn k x).
Proof.
  intros Hx; revert k; induction Hx as [|a x Ha Hx IH]; intros [|k]; cbn;
    auto; constructor; auto.
Qed.

Lemma within_slice lo hi a b (x : list Q) :
  within lo hi x -> within lo hi (slice a b x).
Proof.
  unfold within, slice. intros Hx.
  destruct (bounds _ a b) as [i j].
  apply Forall_prefix. apply Forall_suffix. exact Hx.
Qed.

Lemma tensor_add_Forall {A} `{TensorArith A} (P1 P2 P : A -> Prop) (x y r : list A) :
  (forall a b, P1 a -> P2 b -> P (t_add a b)) ->
  Forall P1 x -> Forall P2 y -> tensor_add x y = inr r -> Forall P r.
Proof.
  intros Hadd Hx Hy. unfold tensor_add.
  destruct (length x =? length y)%nat.
  - intros E; inversion E; subst; clear E.
    revert y Hy; induction Hx as [|a x Ha Hx IH]; intros y Hy; cbn; [constructor|].
    destruct Hy as [|b y Hb Hy]; constructor; auto.
  - assert (L : forall a, P1 a -> Forall P (map (fun b => t_add a b) y)).
    { intros a Ha. apply Forall_map. eapply Forall_impl; [|exact Hy]. cbv beta; auto. }
    assert (R : forall b, P2 b -> Forall P (map (fun a => t_add a b) x)).
    { intros b Hb. apply Forall_map. eapply Forall_impl; [|exact Hx]. cbv beta; auto. }
    destruct x as [|a [|a' x]].
    + destruct y as [|b [|b' y]]; intros E; inversion E; subst; clear E.
      constructor.
    + intros E; inversion E; subst; clear E. apply L. now inversion Hx.
    + destruct y as [|b [|b' y]]; intros E; inversion E; subst; clear E.
      apply R. now inversion Hy.
Qed.

Lemma tensor_add_scaled_within lo hi (x y r : list Q) :
  within lo hi x -> within lo hi y ->
  tensor_add (scale x 1 4) (scale y 3 4) = inr r -> within lo hi r.
Proof.
  intros Hx Hy.
  apply (tensor_add_Forall
           (fun a => exists p, (lo <= p <= hi)%Q /\ a = t_div (t_mul p 1) 4)
           (fun b => exists c, (lo <= c <= hi)%Q /\ b = t_div (t_mul c 3) 4)).
  - intros a b (p & Hp & ->) (c & Hc & ->). exact (blend_between lo hi p c Hp Hc).
  - unfold scale. apply Forall_map. eapply Forall_impl; [|exact Hx].
    intros p Hp; exists p; auto.
  - unfold scale. apply Forall_map. eapply Forall_impl; [|exact Hy].
    intros c Hc; exists c; auto.
Qed.

Section Range.
Variable model : list Q -> list Q.
Variable video_data : list Q.
Variables chunk_size overlap : Z.
Variables lo hi : Q.
Hypothesis model_within : forall w, within lo hi (model w).

Lemma loop_body_within st st' :
  Forall (within lo hi) (output_chunks st) ->
  loop_body model video_data chunk_size overlap st = inr st' ->
  Forall (within lo hi) (output_chunks st').
Proof.
  intros Hst. unfold loop_body, overlap_tensor.
  destruct (unsnoc (output_chunks st)) as [[earlier last_chunk]|] eqn:U.
  - apply unsnoc_inv in U. rewrite U in Hst.
    apply Forall_app in Hst. destruct Hst as [He Hl].
    inversion Hl as [|? ? Hlast _]; subst.
    destruct (tensor_add _ _) as [e|blended] eqn:Et; [discriminate|].
    intros E; inversion E; subst; clear E. cbn [output_chunks].
    apply Forall_app; split; [exact He|].
    constructor; [|constructor; [|constructor]].
    + apply Forall_app; split; [now apply within_slice|].
      eapply tensor_add_scaled_within; [| |exact Et]; apply within_slice;
        [exact Hlast | apply model_within].
    + destruct (_ <? _); [apply within_slice|]; apply model_within.
  - intros E; inversion E; subst; clear E. cbn [output_chunks].
    constructor; [apply model_within | constructor].
Qed.

Lemma while_loop_within fuel st st' :
  Forall (within lo hi) (output_chunks st) ->
  while_loop model video_data chunk_size overlap fuel st = Some (inr st') ->
  Forall (within lo hi) (output_chunks st').
Proof.
  revert st; induction fuel as [|fuel IH]; intros st Hst; cbn [while_loop]; [discriminate|].
  destruct (_ <? _).
  - destruct (loop_body _ _ _ _ st) as [err|st1] eqn:E; [discriminate|].
    apply IH. eapply loop_body_within; eauto.
  - intros E; inversion E; subst. exact Hst.
Qed.

Lemma process_in_chunks_within fuel out tr :
  process_in_chunks model video_data chunk_size overlap fuel = Returned out tr ->
  within lo hi out.
Proof.
  unfold process_in_chunks. destruct (negb _); [discriminate|].
  destruct (while_loop _ _ _ _ fuel initial) as [[[e tr']|st]|] eqn:W; try discriminate.
  pose proof (while_loop_within fuel initial st (Forall_nil _) W) as F.
  destruct (output_chunks st) eqn:Eo; [discriminate|].
  intros E; inversion E; subst; clear E.
  exact (proj2 (Forall_concat _ (_ :: _)) F).
Qed.

End Range.
End LoopFacts.

(** ** Samples of [linspace] *)

Module SpanOfSamples.
Import Float64 Float64Facts Sampler SamplerFacts.

Lemma last_map_seq {X} (f : nat -> X) a m d :
  last (map f (seq a (S m))) d = f (a + m)%nat.
Proof. rewrite seq_S, map_app. cbn [map]. apply last_last. Qed.

Lemma set_last_length {X} (l : list X) v : length (set_last l v) = length l.
Proof.
  induction l as [|x [|y l] IH]; try reflexivity.
  rewrite set_last_cons. cbn [length]. now rewrite IH.
Qed.

Lemma fmul_zero x : fmul 0 x = 0%Q.
Proof. unfold fmul. apply RN_of_zero. ring. Qed.

Lemma fdiv_zero x : fdiv 0 x = 0%Q.
Proof. unfold fdiv. apply RN_of_zero. unfold Qdiv. ring. Qed.

Lemma fadd_zero : fadd 0 (float_of_int 0) = 0%Q.
Proof. reflexivity. Qed.

(** The samples before the cast, as one map over the positions. *)
Lemma linspace_as_map stop num :
  0 <= num ->
  exists g : Q -> Q,
    g 0%Q = 0%Q
    /\ linspace 0 stop num =
       inr (map Qfloor
              (let y := map (fun i => fadd (g i) (float_of_int 0)) (arange num) in
               if 1 <? num then set_last y (float_of_int stop) else y)).
Proof.
  intros Hnum. unfold linspace.
  destruct (Z.ltb_spec num 0); [lia|].
  destruct (0 <? num - 1).
  - destruct (Qeq_bool _ 0).
    + eexists (fun i => fmul (fdiv i (inject_Z (num - 1))) _). split.
      * rewrite fdiv_zero. apply fmul_zero.
      * cbv zeta. now rewrite map_map.
    + eexists (fun i => fmul i _). split; [apply fmul_zero|].
      cbv zeta. now rewrite map_map.
  - eexists (fun i => fmul i _). split; [apply fmul_zero|].
    cbv zeta. now rewrite map_map.
Qed.

(** [linspace(0, stop, num, dtype=int)]: [num] samples, the first one 0 and,
    from two samples on, the last one [stop]. *)
Lemma linspace_ends stop num :
  0 <= num -> 0 <= stop < 2 ^ 53 ->
  exists ids,
    linspace 0 stop num = inr ids
    /\ length ids = Z.to_nat num
    /\ (1 <= num -> nth_error ids 0 = Some 0)
    /\ (2 <= num -> last ids 0 = stop).
Proof.
  intros Hnum Hstop.
  destruct (linspace_as_map stop num Hnum) as (g & Hg & ->).
  eexists; split; [reflexivity|]. cbv zeta.
  unfold arange. rewrite map_map.
  assert (Estop : (float_of_int stop == inject_Z stop)%Q)
    by (apply RN_exact, representable_Z; lia).
  destruct (Z.ltb_spec 1 num) as [H2|H1].
  - replace (Z.to_nat num) with (S (Z.to_nat (num - 1))) by lia.
    rewrite set_last_map_seq, map_map. cbn [Nat.add].
    split; [now rewrite length_map, length_seq|].
    split; intros _.
    + cbn [seq map nth_error].
      destruct (Nat.eqb_spec 0 (Z.to_nat (num - 1))); [lia|].
      change (inject_Z (Z.of_nat 0)) with 0%Q. now rewrite Hg.
    + rewrite last_map_seq. cbn [Nat.add].
      rewrite Nat.eqb_refl, Estop. apply Qfloor_Z.
  - rewrite !length_map, length_seq. split; [reflexivity|].
    split; [|lia]. intros H1'.
    replace (Z.to_nat num) with 1%nat by lia.
    cbn [seq map nth_error]. change (inject_Z (Z.of_nat 0)) with 0%Q. now rewrite Hg.
Qed.

(** The reduced count of the second branch is never negative. *)
Lemma reduced_count_nonneg t n r :
  0 <= t -> 1 <= n -> 1 <= r -> t <= r * n ->
  exists c, sampling_plan t n r = inr (0, t, c) /\ 0 <= c.
Proof.
  intros Ht Hn Hr Hle. unfold sampling_plan.
  destruct (Z.gtb_spec t (r * n)); [lia|]. unfold truediv.
  destruct (Z.eqb_spec (r * n) 0); [nia|].
  eexists; split; [reflexivity|].
  rewrite int_of_float_nonneg; [apply (Qfloor_ge_Z _ 0)|]; unfold fmul, float_of_int;
    apply RN_nonneg; apply Qmult_le_0_compat; apply RN_nonneg.
  - apply Qle_shift_div_l; [change 0%Q with (inject_Z 0); rewrite <- Zlt_Qlt; nia|].
    rewrite Qmult_0_l. change 0%Q with (inject_Z 0). rewrite <- Zle_Qle. lia.
  - change 0%Q with (inject_Z 0). rewrite <- Zle_Qle. lia.
  - apply Qle_shift_div_l; [change 0%Q with (inject_Z 0); rewrite <- Zlt_Qlt; nia|].
    rewrite Qmult_0_l. change 0%Q with (inject_Z 0). rewrite <- Zle_Qle. lia.
  - change 0%Q with (inject_Z 0). rewrite <- Zle_Qle. lia.
Qed.

End SpanOfSamples.

Module UnitStep.
Import Float64 Float64Facts Sampler SamplerFacts SpanOfSamples.

Lemma RN_of_int x k : (x == inject_Z k)%Q -> 0 <= k < 2 ^ 53 -> (RN x == inject_Z k)%Q.
Proof.
  intros E Hk.
  assert (R : representable x).
  { apply (representable_comp (inject_Z k)); [symmetry; exact E|].
    apply representable_Z; exact Hk. }
  rewrite (RN_exact x R). exact E.
Qed.

(** With a step of one the samples are the positions. *)
Lemma linspace_unit_step n :
  1 <= n <= 2 ^ 53 ->
  linspace 0 (n - 1) n = inr (map Z.of_nat (seq 0 (Z.to_nat n))).
Proof.
  intros Hn.
  destruct (Z.eq_dec n 1) as [->|N1]; [apply linspace_single|].
  unfold linspace.
  destruct (Z.ltb_spec n 0); [lia|].
  destruct (Z.ltb_spec 0 (n - 1)); [|lia].
  destruct (Z.ltb_spec 1 n); [|lia].
  change (float_of_int 0) with 0%Q.
  assert (Estop : (float_of_int (n - 1) == inject_Z (n - 1))%Q)
    by (apply RN_of_int; [reflexivity | lia]).
  set (delta := fsub (float_of_int (n - 1)) 0).
  assert (Edelta : (delta == inject_Z (n - 1))%Q).
  { subst delta. unfold fsub. apply RN_of_int; [rewrite Estop; ring | lia]. }
  set (step := fdiv delta (inject_Z (n - 1))).
  assert (Estep : (step == 1)%Q).
  { subst step. unfold fdiv. apply (RN_of_int _ 1); [|lia].
    rewrite Edelta. change (inject_Z 1) with 1%Q. field.
    assert (0 < inject_Z (n - 1))%Q
      by (change 0%Q with (inject_Z 0); rewrite <- Zlt_Qlt; lia).
    lra. }
  assert (Snz : Qeq_bool step 0 = false).
  { destruct (Qeq_bool step 0) eqn:E; [|reflexivity].
    apply Qeq_bool_iff in E. rewrite Estep in E. discriminate. }
  rewrite Snz. f_equal.
  unfold arange. rewrite !map_map.
  replace (Z.to_nat n) with (S (Z.to_nat (n - 1))) by lia.
  rewrite set_last_map_seq, map_map. cbn [Nat.add].
  apply map_ext_in. intros k Hk. apply in_seq in Hk.
  destruct (Nat.eqb_spec k (Z.to_nat (n - 1))) as [->|Nk].
  - rewrite Estop. rewrite Qfloor_Z. lia.
  - assert (E1 : (fmul (inject_Z (Z.of_nat k)) step == inject_Z (Z.of_nat k))%Q).
    { unfold fmul. apply RN_of_int; [rewrite Estep; ring | lia]. }
    assert (E2 : (fadd (fmul (inject_Z (Z.of_nat k)) step) 0 == inject_Z (Z.of_nat k))%Q).
    { unfold fadd. apply RN_of_int; [rewrite E1; ring | lia]. }
    rewrite E2. apply Qfloor_Z.
Qed.

End UnitStep.

Module ReducedCount.
Import Float64 Float64Facts Sampler SamplerFacts Margins RelativeError.

Lemma pow2_m53 : (pow2 (-53) == eps)%Q.
Proof. vm_compute. reflexivity. Qed.

(** The reduced count against the exact quotient. *)
Lemma reduced_count_near_quotient t n r :
  1 <= t <= 2 ^ 26 -> 1 <= n <= 2 ^ 26 -> 1 <= r <= 2 ^ 26 -> t <= r * n ->
  exists c, sampling_plan t n r = inr (0, t, c) /\ t / r - 1 <= c <= t / r.
Proof.
  intros Ht Hn Hr Hle. unfold sampling_plan.
  destruct (Z.gtb_spec t (r * n)); [lia|]. unfold truediv.
  destruct (Z.eqb_spec (r * n) 0); [nia|].
  eexists; split; [reflexivity|].
  unfold fmul, float_of_int.
  set (Tq := inject_Z t). set (R := inject_Z r). set (N := inject_Z n).
  assert (HT : (1 <= Tq <= 67108864)%Q).
  { subst Tq. split; [change 1%Q with (inject_Z 1)|change 67108864%Q with (inject_Z (2 ^ 26))];
      rewrite <- Zle_Qle; lia. }
  assert (HR : (1 <= R)%Q)
    by (subst R; change 1%Q with (inject_Z 1); rewrite <- Zle_Qle; lia).
  assert (HN : (1 <= N)%Q)
    by (subst N; change 1%Q with (inject_Z 1); rewrite <- Zle_Qle; lia).
  assert (ERN : (inject_Z (r * n) == R * N)%Q) by (subst R N; rewrite inject_Z_mult; reflexivity).
  assert (HRN : (R * N <= 4503599627370496)%Q).
  { rewrite <- ERN. change 4503599627370496%Q with (inject_Z (2 ^ 52)).
    rewrite <- Zle_Qle. nia. }
  assert (PRN : (0 < R * N)%Q) by (apply Qmult_lt_0_compat; lra).
  set (q := (Tq / inject_Z (r * n))%Q).
  assert (Eq : (q == Tq / (R * N))%Q) by (subst q; now rewrite ERN).
  assert (Eq' : (q * N * R == Tq)%Q) by (rewrite Eq; field; lra).
  assert (Qlo : (pow2 (-52) <= q)%Q).
  { rewrite Eq. apply Qle_shift_div_l; [exact PRN|]. rewrite pow2_m52. lra. }
  assert (Qnormal : (pow2 (-1022) <= q)%Q).
  { apply (Qle_trans _ (pow2 (-52))); [apply pow2_le; lia | exact Qlo]. }
  pose proof (RN_relative q Qnormal) as [Alo Ahi].
  set (a := RN q) in *.
  assert (EN : (RN N == N)%Q) by (subst N; apply RN_exact, representable_Z; lia).
  set (x := (a * RN N)%Q).
  set (s := (q * N)%Q) in *.
  assert (Q0 : (0 < q)%Q) by (pose proof (pow2_pos (-52)); lra).
  assert (S0 : (q <= s)%Q).
  { subst s. rewrite <- (Qmult_1_r q) at 1. apply Qmult_le_l; [exact Q0 | exact HN]. }
  assert (Xhi : (x <= s * (1 + eps))%Q).
  { subst x s. rewrite EN.
    apply (Qle_trans _ (q * (1 + eps) * N)); [apply Qmult_le_compat_r; lra|].
    apply Qle_lteq; right; ring. }
  assert (Xlo : (s * (1 - eps) <= x)%Q).
  { subst x s. rewrite EN.
    apply (Qle_trans _ (q * (1 - eps) * N)); [|apply Qmult_le_compat_r; lra].
    apply Qle_lteq; right; ring. }
  assert (Xnormal : (pow2 (-1022) <= x)%Q).
  { apply (Qle_trans _ (pow2 (-53))); [apply pow2_le; lia|].
    rewrite pow2_m53. rewrite pow2_m52 in Qlo. unfold eps in *. lra. }
  pose proof (RN_relative x Xnormal) as [Ylo Yhi].
  set (y := RN x) in *.
  assert (Y0 : (0 <= y)%Q) by (unfold eps in *; lra).
  rewrite (int_of_float_nonneg y Y0).
  pose proof (Z.div_mod t r ltac:(lia)) as Dm.
  pose proof (Z.mod_pos_bound t r ltac:(lia)) as Mb.
  set (F := t / r) in *.
  assert (Fhi : (Tq + 1 <= inject_Z (F + 1) * R)%Q).
  { subst Tq R. rewrite <- inject_Z_mult. change 1%Q with (inject_Z 1).
    rewrite <- inject_Z_plus, <- Zle_Qle. nia. }
  assert (Flo : (inject_Z (F - 1) * R <= Tq - 1)%Q).
  { subst Tq R. rewrite <- inject_Z_mult. change 1%Q with (inject_Z 1).
    unfold Qminus. rewrite <- inject_Z_opp, <- inject_Z_plus, <- Zle_Qle. nia. }
  split.
  - apply Qfloor_ge_Z.
    apply (Qmult_le_r _ _ R); [lra|].
    apply (Qle_trans _ (Tq - 1)); [exact Flo|].
    apply (Qle_trans _ (s * (1 - eps) * (1 - eps) * R)).
    + setoid_replace (s * (1 - eps) * (1 - eps) * R)%Q
        with (Tq * ((1 - eps) * (1 - eps)))%Q
        by (rewrite <- Eq'; subst s; ring).
      unfold eps. lra.
    + apply Qmult_le_compat_r; [unfold eps in *; lra | lra].
  - assert (Qfloor y < F + 1); [|lia].
    apply Qfloor_lt_Z.
    apply (Qmult_lt_r _ _ R); [lra|].
    apply (Qle_lt_trans _ (s * (1 + eps) * (1 + eps) * R)).
    + apply Qmult_le_compat_r; [unfold eps in *; lra | lra].
    + apply (Qlt_le_trans _ (Tq + 1)); [|exact Fhi].
      setoid_replace (s * (1 + eps) * (1 + eps) * R)%Q
        with (Tq * ((1 + eps) * (1 + eps)))%Q
        by (rewrite <- Eq'; subst s; ring).
      unfold eps. lra.
Qed.

End ReducedCount.

(** ** Lengths kept by the shape normaliser *)

Module ShapeNormaliserFacts.
Import PySlice PySliceFacts.
Import Shape.

Lemma prefix_len_le len stop : (prefix_len len stop <= len)%nat.
Proof.
  unfold prefix_len, bounds.
  pose proof (norm_index_range (Z.of_nat len) stop ltac:(lia)). lia.
Qed.

Lemma prefix_len_exact len stop :
  0 <= stop <= Z.of_nat len -> Z.of_nat (prefix_len len stop) = stop.
Proof.
  intros Hs. unfold prefix_len, bounds, norm_index.
  destruct (Z.ltb_spec stop 0); lia.
Qed.

Lemma prefix_len_negative len stop :
  stop < 0 -> prefix_len len stop = Z.to_nat (Z.of_nat len + stop).
Proof.
  intros Hs. unfold prefix_len, bounds, norm_index.
  destruct (Z.ltb_spec stop 0); lia.
Qed.

(** The time length kept for [time] frames. *)
Lemma new_time_exact (time : nat) (tc : Z) :
  (1 <= time)%nat -> 2 <= tc ->
  let t := Z.of_nat time in
  Z.of_nat (prefix_len time
              (if negb ((t - 1) mod tc =? 0) then t - 1 - (t - 1) mod tc else t))
  = if (t - 1) mod tc =? 0 then t else tc * ((t - 1) / tc).
Proof.
  intros Ht Hc t.
  pose proof (Z.div_mod (t - 1) tc ltac:(lia)) as Dm.
  pose proof (Z.mod_pos_bound (t - 1) tc ltac:(lia)) as Mb.
  assert (0 <= (t - 1) / tc) by (apply Z.div_pos; lia).
  destruct (Z.eqb_spec ((t - 1) mod tc) 0); cbn [negb];
    rewrite prefix_len_exact; subst t; nia.
Qed.

(** The length kept on a spatial axis. *)
Lemma new_side_exact (side : nat) (sc : Z) :
  1 <= sc ->
  let h := Z.of_nat side in
  Z.of_nat (prefix_len side (if negb (h mod sc =? 0) then h - h mod sc else h))
  = sc * (h / sc).
Proof.
  intros Hs h.
  pose proof (Z.div_mod h sc ltac:(lia)) as Dm.
  pose proof (Z.mod_pos_bound h sc ltac:(lia)) as Mb.
  assert (0 <= h / sc) by (apply Z.div_pos; lia).
  destruct (Z.eqb_spec (h mod sc) 0); cbn [negb];
    rewrite prefix_len_exact; subst h; nia.
Qed.

Lemma mod_of_multiple a b : b <> 0 -> (b * a) mod b = 0.
Proof. intros Hb. rewrite Z.mul_comm. now apply Z.mod_mul. Qed.

Lemma pred_of_multiple a b : 2 <= b -> (b * a - 1) mod b = b - 1.
Proof.
  intros Hb. symmetry. apply (Z.mod_unique_pos _ _ (a - 1)); lia.
Qed.

End ShapeNormaliserFacts.

(** ** The emitter before the cast *)

Module EmitterFacts.
Import Float64 Float64Facts Margins.
Import Emitter.

Lemma clamp_mono x y lo hi : (x <= y -> clamp x lo hi <= clamp y lo hi)%Q.
Proof.
  intros Hxy. unfold clamp.
  apply Q.min_le_compat_r. apply Q.max_le_compat_r. exact Hxy.
Qed.

Lemma clamp_below x lo hi : (lo <= hi -> x <= lo -> clamp x lo hi == lo)%Q.
Proof.
  intros Hle Hx. unfold clamp.
  rewrite (Q.max_r x lo Hx). apply Q.min_l. exact Hle.
Qed.

Lemma clamp_above x lo hi : (lo <= hi -> hi <= x -> clamp x lo hi == hi)%Q.
Proof.
  intros Hle Hx. unfold clamp. apply Q.min_r.
  apply Qle_trans with x; [exact Hx | apply Q.le_max_l].
Qed.

Section Emit.
Variable rnd : Q -> Q.
Hypothesis Hmono : (forall x y, 0 <= x -> x <= y -> rnd x <= rnd y)%Q.
Hypothesis R0 : (rnd 0 == 0)%Q.
Hypothesis R1 : (rnd 1 == 1)%Q.
Hypothesis R2 : (rnd 2 == 2)%Q.
Hypothesis R255 : (rnd 255 == 255)%Q.

#[local] Abbreviation scaled := (before_cast rnd).

Lemma rnd_nonneg a : (0 <= a -> 0 <= rnd a)%Q.
Proof.
  intros Ha. apply Qle_trans with (rnd 0%Q); [rewrite R0; apply Qle_refl|].
  apply Hmono; [apply Qle_refl | exact Ha].
Qed.

Lemma rnd_fixed a k : (0 <= a -> a == k -> rnd k == k -> rnd a == k)%Q.
Proof.
  intros Ha E Hk. rewrite <- Hk. apply Qle_antisym; apply Hmono; rewrite ?E; lra.
Qed.

Lemma scaled_mono x y : (x <= y -> scaled x <= scaled y)%Q.
Proof.
  intros Hxy. unfold before_cast.
  pose proof (clamp_range x (-1) 1 ltac:(discriminate)) as [Cx _].
  pose proof (clamp_mono x y (-1) 1 Hxy) as Cxy.
  set (cx := clamp x (-1) 1) in *. set (cy := clamp y (-1) 1) in *.
  assert (A : (rnd (cx + 1) <= rnd (cy + 1))%Q) by (apply Hmono; lra).
  assert (A0 : (0 <= rnd (cx + 1))%Q) by (apply rnd_nonneg; lra).
  assert (B : (rnd (rnd (cx + 1) / 2) <= rnd (rnd (cy + 1) / 2))%Q).
  { apply Hmono; unfold Qdiv; change (/ 2)%Q with (1 # 2)%Q; lra. }
  assert (B0 : (0 <= rnd (rnd (cx + 1) / 2))%Q).
  { apply rnd_nonneg. unfold Qdiv; change (/ 2)%Q with (1 # 2)%Q; lra. }
  apply Hmono; lra.
Qed.

Lemma scaled_range x : (0 <= scaled x <= 255)%Q.
Proof.
  unfold before_cast.
  pose proof (clamp_range x (-1) 1 ltac:(discriminate)) as [Cl Ch].
  set (c := clamp x (-1) 1) in *.
  assert (S1 : (0 <= rnd (c + 1) <= 2)%Q).
  { split; [apply rnd_nonneg; lra|].
    apply Qle_trans with (rnd 2%Q); [apply Hmono; lra | rewrite R2; apply Qle_refl]. }
  assert (S2 : (0 <= rnd (rnd (c + 1) / 2) <= 1)%Q).
  { split; [apply rnd_nonneg; unfold Qdiv; change (/ 2)%Q with (1 # 2)%Q; lra|].
    apply Qle_trans with (rnd 1%Q); [|rewrite R1; apply Qle_refl].
    apply Hmono; unfold Qdiv; change (/ 2)%Q with (1 # 2)%Q; lra. }
  split; [apply rnd_nonneg; lra|].
  apply Qle_trans with (rnd 255%Q); [apply Hmono; lra | rewrite R255; apply Qle_refl].
Qed.

Lemma to_pixel_scaled x : to_pixel rnd x = Qfloor (scaled x).
Proof.
  unfold to_pixel. fold (before_cast rnd x).
  exact (proj1 (astype_uint8_in_range _ (scaled_range x))).
Qed.

Lemma scaled_low x : (x <= -1 -> scaled x == 0)%Q.
Proof.
  intros Hx. unfold before_cast.
  pose proof (clamp_below x (-1) 1 ltac:(discriminate) Hx) as C.
  set (c := clamp x (-1) 1) in *.
  assert (A : (rnd (c + 1) == 0)%Q) by (apply rnd_fixed; [lra | lra | exact R0]).
  assert (B : (rnd (rnd (c + 1) / 2) == 0)%Q).
  { apply rnd_fixed; [| |exact R0]; unfold Qdiv; change (/ 2)%Q with (1 # 2)%Q; lra. }
  apply rnd_fixed; [lra | lra | exact R0].
Qed.

Lemma scaled_high x : (1 <= x -> scaled x == 255)%Q.
Proof.
  intros Hx. unfold before_cast.
  pose proof (clamp_above x (-1) 1 ltac:(discriminate) Hx) as C.
  set (c := clamp x (-1) 1) in *.
  assert (A : (rnd (c + 1) == 2)%Q) by (apply rnd_fixed; [lra | lra | exact R2]).
  assert (B : (rnd (rnd (c + 1) / 2) == 1)%Q).
  { apply rnd_fixed; [| |exact R1]; unfold Qdiv; change (/ 2)%Q with (1 # 2)%Q; lra. }
  apply rnd_fixed; [lra | lra | exact R255].
Qed.

End Emit.
End EmitterFacts.

(** ** Paths and the listing loop of the dataset *)

Module DatasetFacts.
Import String Ascii Dataset.
#[local] Open Scope string_scope.

(** *** The order of strings *)

Lemma ascii_compare_refl c : Ascii.compare c c = Eq.
Proof. unfold Ascii.compare. apply N.compare_refl. Qed.

Lemma ascii_compare_lt_trans a b c :
  Ascii.compare a b = Lt -> Ascii.compare b c = Lt -> Ascii.compare a c = Lt.
Proof.
  unfold Ascii.compare. rewrite !N.compare_lt_iff. apply N.lt_trans.
Qed.

Lemma string_compare_refl s : String.compare s s = Eq.
Proof.
  induction s as [|c s IH]; cbn; [reflexivity|].
  now rewrite ascii_compare_refl.
Qed.

Lemma string_compare_lt_trans a b c :
  String.compare a b = Lt -> String.compare b c = Lt -> String.compare a c = Lt.
Proof.
  revert b c; induction a as [|x a IH]; intros [|y b] [|z c]; cbn;
    try discriminate; try reflexivity.
  destruct (Ascii.compare x y) eqn:Exy; try discriminate;
    destruct (Ascii.compare y z) eqn:Eyz; try discriminate; intros H1 H2.
  - apply Ascii.compare_eq_iff in Exy, Eyz. subst. rewrite ascii_compare_refl.
    now apply (IH b).
  - apply Ascii.compare_eq_iff in Exy. subst. now rewrite Eyz.
  - apply Ascii.compare_eq_iff in Eyz. subst. now rewrite Exy.
  - now rewrite (ascii_compare_lt_trans x y z).
Qed.

Lemma leb_trans a b c :
  String.leb a b = true -> String.leb b c = true -> String.leb a c = true.
Proof.
  unfold String.leb.
  destruct (String.compare a b) eqn:Eab; try discriminate;
    destruct (String.compare b c) eqn:Ebc; try discriminate; intros _ _.
  - apply String.compare_eq_iff in Eab, Ebc. subst. now rewrite string_compare_refl.
  - apply String.compare_eq_iff in Eab. subst. now rewrite Ebc.
  - apply String.compare_eq_iff in Ebc. subst. now rewrite Eab.
  - now rewrite (string_compare_lt_trans a b c).
Qed.

(** A common beginning does not change the order. *)
Lemma compare_append p a b :
  String.compare (p ++ a) (p ++ b) = String.compare a b.
Proof.
  induction p as [|c p IH]; cbn; [reflexivity|].
  now rewrite ascii_compare_refl.
Qed.

(** *** The listing loop *)

Lemma collect_visible folder_path prefix listing folder :
  ~ In "" listing ->
  collect folder_path prefix listing folder
  = inr (folder ++ map (join folder_path) (filter (visible prefix) listing))%list.
Proof.
  revert folder; induction listing as [|name rest IH]; intros folder Hne; cbn.
  - now rewrite app_nil_r.
  - assert (Hrest : ~ In "" rest) by (intros I; apply Hne; now right).
    destruct name as [|c name]; [exfalso; apply Hne; now left|].
    unfold visible. cbn [first_char].
    destruct (String.eqb (String c "") prefix); cbn [negb].
    + now apply IH.
    + rewrite IH by exact Hrest. cbn [map]. now rewrite <- app_assoc.
Qed.

Lemma collect_empty_name folder_path prefix listing folder :
  In "" listing -> collect folder_path prefix listing folder = inl IndexError.
Proof.
  revert folder; induction listing as [|name rest IH]; intros folder Hin; cbn.
  - contradiction.
  - destruct name as [|c name]; [reflexivity|].
    destruct Hin as [E|Hin]; [discriminate|]. cbn [first_char].
    destruct (String.eqb _ prefix); now apply IH.
Qed.

(** *** Names and paths *)

Lemma startswith_has_sep b : startswith_sep b = true -> has_sep b = true.
Proof. destruct b as [|c b]; cbn; [discriminate|]. now intros ->. Qed.

Lemma endswith_sep_split path :
  endswith_sep path = true -> exists a, path = a ++ "/".
Proof.
  induction path as [|c path IH]; cbn; [discriminate|].
  destruct path as [|d path].
  - intros E. apply Ascii.eqb_eq in E. subst. now exists "".
  - intros E. destruct (IH E) as [a Ha]. exists (String c a). cbn. now rewrite Ha.
Qed.

Lemma rfind_sep_none name i found :
  has_sep name = false -> rfind_sep name i found = found.
Proof.
  revert i found; induction name as [|c name IH]; intros i found; cbn; [reflexivity|].
  destruct (Ascii.eqb c "/"); cbn; [discriminate|]. apply IH.
Qed.

Lemma rfind_sep_last a name i found :
  has_sep name = false ->
  rfind_sep (a ++ "/" ++ name) i found = (i + Z.of_nat (String.length a))%Z.
Proof.
  intros Hn. revert i found; induction a as [|c a IH]; intros i found.
  - cbn. rewrite rfind_sep_none by exact Hn. lia.
  - cbn [append rfind_sep String.length]. rewrite IH. lia.
Qed.

Lemma drop_append a b : drop (String.length a) (a ++ b) = b.
Proof. induction a as [|c a IH]; cbn; [now destruct b | exact IH]. Qed.

Lemma append_assoc a b c : (a ++ b) ++ c = a ++ b ++ c.
Proof. induction a as [|x a IH]; cbn; [reflexivity | now rewrite IH]. Qed.

Lemma length_append a b :
  String.length (a ++ b) = (String.length a + String.length b)%nat.
Proof. induction a as [|x a IH]; cbn; [reflexivity | now rewrite IH]. Qed.

Lemma basename_after_sep a name :
  has_sep name = false -> basename (a ++ "/" ++ name) = name.
Proof.
  intros Hn. unfold basename. rewrite (rfind_sep_last a name 0 (-1) Hn).
  replace (Z.to_nat (0 + Z.of_nat (String.length a) + 1))
    with (String.length (a ++ "/")) by (rewrite length_append; cbn; lia).
  rewrite <- append_assoc. apply drop_append.
Qed.

Lemma basename_plain name : has_sep name = false -> basename name = name.
Proof.
  intros Hn. unfold basename. rewrite rfind_sep_none by exact Hn. reflexivity.
Qed.

Lemma basename_of_join folder_path name :
  has_sep name = false -> basename (join folder_path name) = name.
Proof.
  intros Hn. unfold join.
  destruct (startswith_sep name) eqn:Es.
  - apply startswith_has_sep in Es. congruence.
  - destruct (String.eqb folder_path "") eqn:Ee; cbn [orb].
    + apply String.eqb_eq in Ee. subst. cbn [append]. now apply basename_plain.
    + destruct (endswith_sep folder_path) eqn:Ew.
      * destruct (endswith_sep_split _ Ew) as [a ->].
        rewrite append_assoc. now apply basename_after_sep.
      * now apply basename_after_sep.
Qed.

(** *** Indexing *)

Lemma list_index_spec {X} (l : list X) (i : Z) :
  let n := Z.of_nat (List.length l) in
  match list_index l i with
  | inr x => (- n <= i < n)%Z
             /\ nth_error l (Z.to_nat (if (i <? 0)%Z then i + n else i)) = Some x
  | inl _ => (i < - n \/ n <= i)%Z
  end.
Proof.
  intros n. unfold list_index. fold n.
  destruct (Z.ltb_spec i 0).
  - destruct (Z.ltb_spec (i + n) 0); cbn [orb]; [lia|].
    destruct (Z.leb_spec n (i + n)); [lia|].
    destruct (nth_error l (Z.to_nat (i + n))) eqn:E.
    + split; [lia | reflexivity].
    + apply nth_error_None in E. lia.
  - destruct (Z.ltb_spec i 0); [lia|]. cbn [orb].
    destruct (Z.leb_spec n i); [lia|].
    destruct (nth_error l (Z.to_nat i)) eqn:E.
    + split; [lia | reflexivity].
    + apply nth_error_None in E. lia.
Qed.

End DatasetFacts.

(** * The further properties, one by one *)

Import Runs Margins WindowFacts LengthFacts LoopFacts.
Import SpanOfSamples UnitStep RelativeError ReducedCount ShapeNormaliserFacts EmitterFacts.
Import DatasetFacts.

(** ** The driver, beyond the seams *)

(** X1. With a positive [chunk_size] the codec is called on the windows
    [video_data[k * chunk_size : end]], [k = 0, 1, ...], in this order and on
    nothing else; a run that returns has gone through all of them, the
    least number [n] with [n * chunk_size >= num_frames], and has blended
    [n - 1] times. *)
Theorem codec_windows_in_order :
  forall (A : Type) (arith : TensorArith A) (model : list A -> list A)
         (video_data : list A) (chunk_size overlap : Z) (fuel : nat),
    1 <= chunk_size ->
    exists k,
      (k <= iterations video_data chunk_size)%nat
      /\ codec_calls (trace_of (process_in_chunks model video_data chunk_size overlap fuel))
         = map (window video_data chunk_size overlap) (seq 0 k)
      /\ match process_in_chunks model video_data chunk_size overlap fuel with
         | Returned _ tr =>
             k = iterations video_data chunk_size
             /\ length (blend_spans tr) = pred (iterations video_data chunk_size)
             /\ (1 <= iterations video_data chunk_size)%nat
         | _ => True
         end.
Proof.
  intros A arith model video_data chunk_size overlap fuel Hcs.
  exact (process_in_chunks_windows model video_data chunk_size overlap Hcs fuel).
Qed.

Lemma codec_windows_in_order_witness :
  exists k,
    (k <= iterations (numbered 40) 13)%nat
    /\ codec_calls (trace_of (process_in_chunks (fun w : list Q => w) (numbered 40) 13 4 5))
       = map (window (numbered 40) 13 4) (seq 0 k)
    /\ match process_in_chunks (fun w : list Q => w) (numbered 40) 13 4 5 with
       | Returned _ tr =>
           k = iterations (numbered 40) 13
           /\ length (blend_spans tr) = pred (iterations (numbered 40) 13)
           /\ (1 <= iterations (numbered 40) 13)%nat
       | _ => True
       end.
Proof.
  apply (codec_windows_in_order Q Q_arith (fun w => w) (numbered 40) 13 4 5). lia.
Defined.

(** X2. With a positive [chunk_size] and a non-negative [overlap], every
    window handed to the codec holds at least one frame and at most
    [chunk_size + overlap] frames, however the run ends. *)
Theorem codec_window_sizes :
  forall (A : Type) (arith : TensorArith A) (model : list A -> list A)
         (video_data : list A) (chunk_size overlap : Z) (fuel : nat),
    1 <= chunk_size -> 0 <= overlap ->
    Forall (fun chunk => 1 <= Z.of_nat (length chunk) <= chunk_size + overlap)
           (codec_calls (trace_of (process_in_chunks model video_data chunk_size overlap fuel))).
Proof.
  intros A arith model video_data chunk_size overlap fuel Hcs Hov.
  destruct (process_in_chunks_windows model video_data chunk_size overlap Hcs fuel)
    as (k & Hk & -> & _).
  apply Forall_map, Forall_forall. intros j Hj. apply in_seq in Hj.
  apply window_size; [exact Hcs | exact Hov | lia].
Qed.

Lemma codec_window_sizes_witness :
  Forall (fun chunk => 1 <= Z.of_nat (length chunk) <= 13 + 4)
         (codec_calls (trace_of (process_in_chunks (fun w : list Q => w) (numbered 40) 13 4 5))).
Proof.
  apply (codec_window_sizes Q Q_arith (fun w => w) (numbered 40) 13 4 5); lia.
Defined.

(** X3. With a positive [chunk_size] and a non-negative [overlap], a run
    that returns has handed every input frame to the codec: frame [i] is
    frame [i mod chunk_size] of the window of call [i / chunk_size]. *)
Theorem every_frame_reaches_codec :
  forall (A : Type) (arith : TensorArith A) (model : list A -> list A)
         (video_data : list A) (chunk_size overlap : Z) (fuel i : nat),
    1 <= chunk_size -> 0 <= overlap -> (i < length video_data)%nat ->
    match process_in_chunks model video_data chunk_size overlap fuel with
    | Returned _ tr =>
        exists chunk,
          nth_error (codec_calls tr) (i / Z.to_nat chunk_size) = Some chunk
          /\ nth_error chunk (i mod Z.to_nat chunk_size) = nth_error video_data i
    | _ => True
    end.
Proof.
  intros A arith model video_data chunk_size overlap fuel i Hcs Hov Hi.
  destruct (process_in_chunks_windows model video_data chunk_size overlap Hcs fuel)
    as (k & Hk & Hcalls & Hret).
  destruct (process_in_chunks model video_data chunk_size overlap fuel)
    as [out tr| |]; [|exact I|exact I].
  cbn [trace_of] in Hcalls. destruct Hret as (-> & _ & _).
  destruct (window_holds_frame video_data chunk_size overlap Hcs Hov i Hi) as [Hj Hnth].
  exists (window video_data chunk_size overlap (i / Z.to_nat chunk_size)).
  split; [|exact Hnth].
  rewrite Hcalls. apply map_nth_error.
  rewrite (nth_error_nth' _ 0%nat) by (rewrite length_seq; exact Hj).
  now rewrite seq_nth.
Qed.

Lemma every_frame_reaches_codec_witness :
  match process_in_chunks (fun w : list Q => w) (numbered 40) 13 4 5 with
  | Returned _ tr =>
      exists chunk,
        nth_error (codec_calls tr) (29 / Z.to_nat 13) = Some chunk
        /\ nth_error chunk (29 mod Z.to_nat 13) = nth_error (numbered 40) 29
  | _ => True
  end.
Proof.
  apply (every_frame_reaches_codec Q Q_arith (fun w => w) (numbered 40) 13 4 5 29);
    cbn; lia.
Defined.

(** X4. A [chunk_size] of zero or less passes the assertion for suitable
    [overlap] (0 and 1, -3 and 4, ...), and then the cursor never moves
    forward: on an input with at least one frame the call never returns,
    whatever the number of iterations it is given. *)
Theorem nonpositive_chunk_size_never_returns :
  forall (A : Type) (arith : TensorArith A) (model : list A -> list A)
         (video_data : list A) (chunk_size overlap : Z) (fuel : nat),
    chunk_size <= 0 -> (1 <= length video_data)%nat ->
    output_length (process_in_chunks model video_data chunk_size overlap fuel) = None.
Proof.
  intros A arith model video_data chunk_size overlap fuel Hcs HT.
  apply process_in_chunks_stuck; [exact Hcs | unfold num_frames; lia].
Qed.

Lemma nonpositive_chunk_size_never_returns_witness :
  (0 + 1 - 1) mod 4 = 0
  /\ output_length (process_in_chunks (fun w : list Q => w) (numbered 3) 0 1 9) = None.
Proof.
  split; [reflexivity|].
  apply (nonpositive_chunk_size_never_returns Q Q_arith (fun w => w) (numbered 3) 0 1 9);
    cbn; lia.
Defined.

(** X5. With a positive [chunk_size] the loop ends after as many
    iterations as there are windows: a run given one step more than that
    returns or raises. *)
Theorem loop_ends_after_the_windows :
  forall (A : Type) (arith : TensorArith A) (model : list A -> list A)
         (video_data : list A) (chunk_size overlap : Z) (fuel : nat),
    1 <= chunk_size -> (iterations video_data chunk_size < fuel)%nat ->
    fst (shape_of (process_in_chunks model video_data chunk_size overlap fuel))
    <> VOutOfFuel.
Proof.
  intros A arith model video_data chunk_size overlap fuel Hcs Hfuel.
  now apply process_in_chunks_ends.
Qed.

Lemma loop_ends_after_the_windows_witness :
  fst (shape_of (process_in_chunks (fun w : list Q => w) (numbered 40) 13 4 5))
  <> VOutOfFuel.
Proof.
  apply (loop_ends_after_the_windows Q Q_arith (fun w => w) (numbered 40) 13 4 5).
  - lia.
  - vm_compute. lia.
Defined.

(** X6. On an input with no frame the loop body never runs: no window is
    handed to the codec and [torch.cat] raises on the empty buffer,
    whatever [chunk_size] and [overlap] pass the assertion. *)
Theorem empty_input_raises :
  forall (A : Type) (arith : TensorArith A) (model : list A -> list A)
         (chunk_size overlap : Z) (fuel : nat),
    (chunk_size + overlap - 1) mod 4 = 0 ->
    process_in_chunks model [] chunk_size overlap (S fuel)
    = Raised RuntimeError
        {| codec_calls := []; blend_spans := []; blend_frames := [] |}.
Proof.
  intros A arith model chunk_size overlap fuel Hpre.
  unfold process_in_chunks. rewrite Hpre. reflexivity.
Qed.

Lemma empty_input_raises_witness :
  process_in_chunks (fun w : list Q => w) [] 13 4 1
  = Raised RuntimeError
      {| codec_calls := []; blend_spans := []; blend_frames := [] |}.
Proof.
  apply (empty_input_raises Q Q_arith (fun w => w) 13 4 0). reflexivity.
Defined.

(** X7. In exact arithmetic a blended value lies between the two values
    it blends, so the driver adds no value outside the range of the codec:
    if every value the codec returns lies in [[lo, hi]], so does every
    value of the returned sequence. *)
Theorem output_within_codec_range :
  forall (model : list Q -> list Q) (video_data : list Q)
         (chunk_size overlap : Z) (fuel : nat) (lo hi : Q),
    (forall w, within lo hi (model w)) ->
    match process_in_chunks model video_data chunk_size overlap fuel with
    | Returned out _ => within lo hi out
    | _ => True
    end.
Proof.
  intros model video_data chunk_size overlap fuel lo hi Hmodel.
  destruct (process_in_chunks model video_data chunk_size overlap fuel)
    as [out tr| |] eqn:E; [|exact I|exact I].
  exact (process_in_chunks_within model video_data chunk_size overlap lo hi Hmodel
           fuel out tr E).
Qed.

Lemma output_within_codec_range_witness :
  match process_in_chunks (map (fun v => Emitter.clamp v (-1) 1)) (numbered 40) 13 4 5 with
  | Returned out _ => within (-1) 1 out
  | _ => True
  end.
Proof.
  apply (output_within_codec_range (map (fun v => Emitter.clamp v (-1) 1))
           (numbered 40) 13 4 5 (-1) 1).
  intros w. unfold within. apply Forall_map, Forall_forall. intros v _.
  apply clamp_range. discriminate.
Defined.

(** X8. With [chunk_size] and [overlap] that pass the assertion,
    [1 <= overlap], [2 * overlap <= chunk_size], a codec that returns as
    many frames as it is given and an input of [T >= 1] frames, the run
    returns, and the number of frames it returns is [T] when
    [T <= chunk_size], and otherwise, with [m = (T - 1) mod chunk_size + 1]
    the frames of the last window, [T + overlap] when [overlap < m] and
    [T - (overlap - m)] when [m <= overlap]. *)
Theorem returned_length_closed_form :
  forall (A : Type) (arith : TensorArith A) (model : list A -> list A)
         (video_data : list A) (chunk_size overlap : Z) (fuel : nat),
    (forall w, length (model w) = length w) ->
    1 <= overlap -> 2 * overlap <= chunk_size ->
    (chunk_size + overlap - 1) mod 4 = 0 ->
    (1 <= length video_data)%nat ->
    (iterations video_data chunk_size < fuel)%nat ->
    exists out tr,
      process_in_chunks model video_data chunk_size overlap fuel = Returned out tr
      /\ Z.of_nat (length out)
         = returned_frames (Z.of_nat (length video_data)) chunk_size overlap.
Proof.
  intros A arith model video_data chunk_size overlap fuel Hlen Hov Hcs Hpre HT Hfuel.
  apply (process_in_chunks_length model video_data chunk_size overlap Hlen Hov Hcs fuel Hpre);
    [unfold num_frames; lia | exact Hfuel].
Qed.

Lemma returned_length_closed_form_witness :
  exists out tr,
    process_in_chunks (fun w : list Q => w) (numbered 40) 13 4 5 = Returned out tr
    /\ Z.of_nat (length out) = returned_frames (Z.of_nat (length (numbered 40))) 13 4.
Proof.
  apply (returned_length_closed_form Q Q_arith (fun w => w) (numbered 40) 13 4 5).
  - reflexivity.
  - lia.
  - lia.
  - reflexivity.
  - cbn; lia.
  - vm_compute; lia.
Defined.

(** ** The frame sampler, beyond its range *)

(** X9. With [sample_rate = 1] and a video longer than [num_frames]
    (at most [2^53]), the sampler returns the first [num_frames] frames:
    the indices [0, 1, ..., num_frames - 1]. *)
Theorem unit_rate_samples_leading_frames :
  forall total_frames num_frames : Z,
    1 <= num_frames <= 2 ^ 53 -> num_frames < total_frames ->
    read_video total_frames num_frames 1
    = inr (map Z.of_nat (seq 0 (Z.to_nat num_frames)))
    /\ _load_video total_frames num_frames 1
       = inr (map Z.of_nat (seq 0 (Z.to_nat num_frames))).
Proof.
  intros t n Hn Ht.
  assert (E : frame_id_list t n 1 = inr (map Z.of_nat (seq 0 (Z.to_nat n)))).
  { unfold frame_id_list, sampling_plan.
    rewrite Z.mul_1_l. destruct (Z.gtb_spec t n); [|lia].
    cbn [Z.add]. now apply linspace_unit_step. }
  split; exact E.
Qed.

Lemma unit_rate_samples_leading_frames_witness :
  read_video 100 17 1 = inr (map Z.of_nat (seq 0 (Z.to_nat 17)))
  /\ _load_video 100 17 1 = inr (map Z.of_nat (seq 0 (Z.to_nat 17))).
Proof.
  apply (unit_rate_samples_leading_frames 100 17); lia.
Defined.

(** X10. The sampled indices span the part of the video the sampler
    chose: with [num_frames] below [2^1024 - 2^970] (from there on
    [float * int] raises [OverflowError]) and
    [e = min(total_frames, sample_rate * num_frames)] at most [2^53], the
    sampler returns as many indices as its plan counts
    ([num_frames] of them when the video is longer than
    [sample_rate * num_frames]); the first index is 0 and, when there are
    two or more, the last one is [e - 1]. *)
Theorem sampled_indices_span :
  forall total_frames num_frames sample_rate : Z,
    1 <= total_frames -> 1 <= num_frames < 2 ^ 1024 - 2 ^ 970 -> 1 <= sample_rate ->
    Z.min total_frames (sample_rate * num_frames) <= 2 ^ 53 ->
    exists count ids,
      sampling_plan total_frames num_frames sample_rate
      = inr (0, Z.min total_frames (sample_rate * num_frames), count)
      /\ read_video total_frames num_frames sample_rate = inr ids
      /\ Z.of_nat (length ids) = count
      /\ (sample_rate * num_frames < total_frames -> count = num_frames)
      /\ (1 <= count -> nth_error ids 0 = Some 0)
      /\ (2 <= count ->
          last ids 0 = Z.min total_frames (sample_rate * num_frames) - 1).
Proof.
  intros t n r Ht Hn Hr Hmin.
  unfold read_video, frame_id_list.
  destruct (Z.gtb_spec t (r * n)) as [Hlong|Hshort].
  - assert (Ep : sampling_plan t n r = inr (0, Z.min t (r * n), n)).
    { unfold sampling_plan. destruct (Z.gtb_spec t (r * n)); [|lia].
      cbn [Z.add]. now rewrite Z.min_r by lia. }
    rewrite Ep.
    destruct (linspace_ends (Z.min t (r * n) - 1) n ltac:(lia) ltac:(nia))
      as (ids & El & Hlen & Hfirst & Hlast).
    exists n, ids. repeat split; try assumption; try lia.
  - destruct (reduced_count_nonneg t n r ltac:(lia) (proj1 Hn) Hr Hshort) as (c & Ep & Hc).
    rewrite <- (Z.min_l t (r * n)) in Ep at 2 by lia.
    rewrite Ep.
    destruct (linspace_ends (Z.min t (r * n) - 1) c Hc ltac:(lia))
      as (ids & El & Hlen & Hfirst & Hlast).
    exists c, ids. repeat split; try assumption; try lia.
Qed.

Lemma sampled_indices_span_witness :
  exists count ids,
    sampling_plan 100 17 3 = inr (0, Z.min 100 (3 * 17), count)
    /\ read_video 100 17 3 = inr ids
    /\ Z.of_nat (length ids) = count
    /\ (3 * 17 < 100 -> count = 17)
    /\ (1 <= count -> nth_error ids 0 = Some 0)
    /\ (2 <= count -> last ids 0 = Z.min 100 (3 * 17) - 1).
Proof.
  apply (sampled_indices_span 100 17 3); lia.
Defined.

(** X11. What the sampler does with a bad [num_frames], for a video of
    [0 <= total_frames <= 2^53] frames and [sample_rate >= 1]: a negative
    [num_frames] is numpy's [ValueError]; [num_frames = 0] gives no index
    on a video with frames and [ZeroDivisionError] on a video with none;
    and for [1 <= num_frames < 2^1024 - 2^970] the sampler returns a list
    of indices (from [2^1024 - 2^970] on, [float * int] raises
    [OverflowError]). *)
Theorem sampler_failures :
  forall total_frames num_frames sample_rate : Z,
    0 <= total_frames <= 2 ^ 53 -> 1 <= sample_rate ->
    (num_frames < 0 -> read_video total_frames num_frames sample_rate = inl ValueError)
    /\ (num_frames = 0 ->
        read_video total_frames num_frames sample_rate
        = if total_frames =? 0 then inl ZeroDivisionError else inr [])
    /\ (1 <= num_frames < 2 ^ 1024 - 2 ^ 970 ->
        exists ids, read_video total_frames num_frames sample_rate = inr ids).
Proof.
  intros t n r Ht Hr. unfold read_video, frame_id_list.
  split; [|split].
  - intros Hn. unfold sampling_plan.
    destruct (Z.gtb_spec t (r * n)); [|nia].
    unfold linspace. destruct (Z.ltb_spec n 0); [reflexivity|lia].
  - intros ->. unfold sampling_plan. rewrite Z.mul_0_r.
    destruct (Z.eqb_spec t 0) as [->|Hne].
    + reflexivity.
    + destruct (Z.gtb_spec t 0); [|lia]. apply linspace_empty.
  - intros Hn.
    destruct (Z.gtb_spec t (r * n)) as [Hlong|Hshort].
    + unfold sampling_plan. destruct (Z.gtb_spec t (r * n)); [|lia].
      unfold linspace. destruct (Z.ltb_spec n 0); [lia|]. eexists; reflexivity.
    + destruct (reduced_count_nonneg t n r (proj1 Ht) (proj1 Hn) Hr Hshort)
        as (c & -> & Hc).
      unfold linspace. destruct (Z.ltb_spec c 0); [lia|]. eexists; reflexivity.
Qed.

Lemma sampler_failures_witness :
  (-1 < 0 -> read_video 10 (-1) 1 = inl ValueError)
  /\ (-1 = 0 -> read_video 10 (-1) 1 = if 10 =? 0 then inl ZeroDivisionError else inr [])
  /\ (1 <= -1 < 2 ^ 1024 - 2 ^ 970 -> exists ids, read_video 10 (-1) 1 = inr ids).
Proof.
  apply (sampler_failures 10 (-1) 1); [split; [lia | discriminate] | lia].
Defined.

(** X12. On a video not longer than [sample_rate * num_frames], with the
    three numbers between 1 and [2^26], the reduced number of samples is
    [floor(total_frames / sample_rate)] or one less, never more: what the
    product in double precision loses is at most one frame. *)
Theorem reduced_count_within_one :
  forall total_frames num_frames sample_rate : Z,
    1 <= total_frames <= 2 ^ 26 -> 1 <= num_frames <= 2 ^ 26 ->
    1 <= sample_rate <= 2 ^ 26 ->
    total_frames <= sample_rate * num_frames ->
    exists count,
      sampling_plan total_frames num_frames sample_rate = inr (0, total_frames, count)
      /\ total_frames / sample_rate - 1 <= count <= total_frames / sample_rate.
Proof.
  intros t n r Ht Hn Hr Hle. now apply reduced_count_near_quotient.
Qed.

Lemma reduced_count_within_one_witness :
  exists count,
    sampling_plan 32 49 1 = inr (0, 32, count)
    /\ 32 / 1 - 1 <= count <= 32 / 1.
Proof.
  apply (reduced_count_within_one 32 49 1); lia.
Defined.

(** ** The shape normaliser, beyond its defaults *)

(** X13. For any compression factors, [_format_video_shape] raises
    [ZeroDivisionError] exactly when one of them is zero; otherwise it
    returns a tensor with the same channels and no axis longer than
    before, negative factors included. *)
Theorem format_video_shape_never_grows :
  forall (A : Type) (v : Shape.video A) (time_compress spatial_compress : Z),
    match Shape._format_video_shape v time_compress spatial_compress with
    | inl e => e = ZeroDivisionError /\ (time_compress = 0 \/ spatial_compress = 0)
    | inr out =>
        time_compress <> 0 /\ spatial_compress <> 0
        /\ Shape.channels out = Shape.channels v
        /\ (Shape.time out <= Shape.time v)%nat
        /\ (Shape.height out <= Shape.height v)%nat
        /\ (Shape.width out <= Shape.width v)%nat
    end.
Proof.
  intros A v tc sc. unfold Shape._format_video_shape.
  destruct (Z.eqb_spec tc 0) as [->|Ht]; cbn [orb].
  - split; [reflexivity | now left].
  - destruct (Z.eqb_spec sc 0) as [->|Hs].
    + split; [reflexivity | now right].
    + cbn [Shape.channels Shape.time Shape.height Shape.width].
      repeat split; try assumption; apply prefix_len_le.
Qed.

(** X14. With a time factor [c >= 2] and a video of at least one frame,
    a time length with [(time - 1) mod c = 0] is kept, and any other is cut
    to the multiple of [c] below [time - 1]: the result has between 2 and
    [c] frames fewer, and its length [t'] is a multiple of [c], so that
    [(t' - 1) mod c] is [c - 1], not zero. *)
Theorem truncated_time_is_a_multiple :
  forall (A : Type) (v : Shape.video A) (c s : Z),
    (1 <= Shape.time v)%nat -> 2 <= c -> 1 <= s ->
    exists out,
      Shape._format_video_shape v c s = inr out
      /\ ((Z.of_nat (Shape.time v) - 1) mod c = 0 -> Shape.time out = Shape.time v)
      /\ ((Z.of_nat (Shape.time v) - 1) mod c <> 0 ->
          Z.of_nat (Shape.time out) mod c = 0
          /\ (Z.of_nat (Shape.time out) - 1) mod c = c - 1
          /\ Z.of_nat (Shape.time v) - c
             <= Z.of_nat (Shape.time out) <= Z.of_nat (Shape.time v) - 2).
Proof.
  intros A v c s Ht Hc Hs. unfold Shape._format_video_shape.
  destruct (Z.eqb_spec c 0); [lia|]. destruct (Z.eqb_spec s 0); [lia|]. cbn [orb].
  eexists; split; [reflexivity|]. cbn [Shape.time].
  pose proof (new_time_exact (Shape.time v) c Ht Hc) as E. cbv zeta in E.
  set (t := Z.of_nat (Shape.time v)) in *.
  pose proof (Z.div_mod (t - 1) c ltac:(lia)) as Dm.
  pose proof (Z.mod_pos_bound (t - 1) c ltac:(lia)) as Mb.
  destruct (Z.eqb_spec ((t - 1) mod c) 0) as [E0|E0]; split; intros H0;
    try contradiction.
  - apply Nat2Z.inj. exact E.
  - rewrite E. split; [apply mod_of_multiple; lia|].
    split; [apply pred_of_multiple; lia | nia].
Qed.

Lemma truncated_time_is_a_multiple_witness :
  exists out,
    Shape._format_video_shape
      {| Shape.channels := 3; Shape.time := 18; Shape.height := 130;
         Shape.width := 70; Shape.pixel := fun _ _ _ _ => 0 |} 4 8 = inr out
    /\ ((Z.of_nat 18 - 1) mod 4 = 0 -> Shape.time out = 18%nat)
    /\ ((Z.of_nat 18 - 1) mod 4 <> 0 ->
        Z.of_nat (Shape.time out) mod 4 = 0
        /\ (Z.of_nat (Shape.time out) - 1) mod 4 = 4 - 1
        /\ Z.of_nat 18 - 4 <= Z.of_nat (Shape.time out) <= Z.of_nat 18 - 2).
Proof.
  apply (truncated_time_is_a_multiple Z
           {| Shape.channels := 3; Shape.time := 18; Shape.height := 130;
              Shape.width := 70; Shape.pixel := fun _ _ _ _ => 0 |} 4 8);
    cbn; lia.
Defined.

(** X15. Normalising twice: with a time factor [c >= 2] and a spatial
    factor [s >= 1], a second pass leaves height and width as the first
    pass made them, and leaves the time length alone only if the first pass
    did; after a cut it cuts [c] more frames (all of them when fewer than
    [c] are left). *)
Theorem format_video_shape_twice :
  forall (A : Type) (v : Shape.video A) (c s : Z),
    (1 <= Shape.time v)%nat -> 2 <= c -> 1 <= s ->
    exists out out2,
      Shape._format_video_shape v c s = inr out
      /\ Shape._format_video_shape out c s = inr out2
      /\ Shape.height out2 = Shape.height out
      /\ Shape.width out2 = Shape.width out
      /\ ((Z.of_nat (Shape.time v) - 1) mod c = 0 -> Shape.time out2 = Shape.time out)
      /\ ((Z.of_nat (Shape.time v) - 1) mod c <> 0 ->
          Shape.time out2 = (Shape.time out - Z.to_nat c)%nat).
Proof.
  intros A v c s Ht Hc Hs. unfold Shape._format_video_shape.
  destruct (Z.eqb_spec c 0); [lia|]. destruct (Z.eqb_spec s 0); [lia|]. cbn [orb].
  eexists _, _; split; [reflexivity|]. split; [reflexivity|].
  cbn [Shape.time Shape.height Shape.width].
  pose proof (new_side_exact (Shape.height v) s Hs) as Eh. cbv zeta in Eh.
  pose proof (new_side_exact (Shape.width v) s Hs) as Ew. cbv zeta in Ew.
  pose proof (new_time_exact (Shape.time v) c Ht Hc) as Et. cbv zeta in Et.
  set (h1 := Shape.prefix_len (Shape.height v) _) in *.
  set (w1 := Shape.prefix_len (Shape.width v) _) in *.
  set (t1 := Shape.prefix_len (Shape.time v) _) in *.
  pose proof (new_side_exact h1 s Hs) as Eh2. cbv zeta in Eh2.
  pose proof (new_side_exact w1 s Hs) as Ew2. cbv zeta in Ew2.
  assert (Dh : s * (Z.of_nat h1 / s) = Z.of_nat h1).
  { rewrite Eh. rewrite (Z.mul_comm s (Z.of_nat (Shape.height v) / s)), Z.div_mul by lia.
    lia. }
  assert (Dw : s * (Z.of_nat w1 / s) = Z.of_nat w1).
  { rewrite Ew. rewrite (Z.mul_comm s (Z.of_nat (Shape.width v) / s)), Z.div_mul by lia.
    lia. }
  split; [apply Nat2Z.inj; lia|]. split; [apply Nat2Z.inj; lia|].
  set (t := Z.of_nat (Shape.time v)) in *.
  pose proof (Z.div_mod (t - 1) c ltac:(lia)) as Dm.
  pose proof (Z.mod_pos_bound (t - 1) c ltac:(lia)) as Mb.
  assert (K0 : 0 <= (t - 1) / c) by (apply Z.div_pos; lia).
  destruct (Z.eqb_spec ((t - 1) mod c) 0) as [E0|E0]; split; intros H0;
    try contradiction.
  - assert (Ht1 : (1 <= t1)%nat) by lia.
    pose proof (new_time_exact t1 c Ht1 Hc) as Et2. cbv zeta in Et2.
    assert (Em : (Z.of_nat t1 - 1) mod c = 0) by (rewrite Et; exact E0).
    rewrite Em in Et2 |- *. cbn [Z.eqb negb] in Et2 |- *.
    apply Nat2Z.inj. exact Et2.
  - destruct (Z.eq_dec ((t - 1) / c) 0) as [Ek|Ek].
    + assert (t1 = 0%nat) by lia.
      match goal with |- ?x = _ => assert (x <= t1)%nat by apply prefix_len_le end.
      lia.
    + assert (Ht1 : (1 <= t1)%nat) by nia.
      pose proof (new_time_exact t1 c Ht1 Hc) as Et2. cbv zeta in Et2.
      assert (Em : (Z.of_nat t1 - 1) mod c = c - 1)
        by (rewrite Et; apply pred_of_multiple; exact Hc).
      assert (Eq : (Z.of_nat t1 - 1) / c = (t - 1) / c - 1).
      { rewrite Et. symmetry. apply (Z.div_unique_pos _ _ _ (c - 1)); lia. }
      rewrite Em, Eq in Et2. rewrite Em.
      destruct (Z.eqb_spec (c - 1) 0); [lia|]. cbn [negb] in Et2 |- *. lia.
Qed.

Lemma format_video_shape_twice_witness :
  exists out out2,
    Shape._format_video_shape
      {| Shape.channels := 3; Shape.time := 18; Shape.height := 130;
         Shape.width := 70; Shape.pixel := fun _ _ _ _ => 0 |} 4 8 = inr out
    /\ Shape._format_video_shape out 4 8 = inr out2
    /\ Shape.height out2 = Shape.height out
    /\ Shape.width out2 = Shape.width out
    /\ ((Z.of_nat 18 - 1) mod 4 = 0 -> Shape.time out2 = Shape.time out)
    /\ ((Z.of_nat 18 - 1) mod 4 <> 0 ->
        Shape.time out2 = (Shape.time out - Z.to_nat 4)%nat).
Proof.
  apply (format_video_shape_twice Z
           {| Shape.channels := 3; Shape.time := 18; Shape.height := 130;
              Shape.width := 70; Shape.pixel := fun _ _ _ _ => 0 |} 4 8);
    cbn; lia.
Defined.

(** ** The video emitter, value by value *)

(** X16. Whatever the rounding of the tensor's format, provided it is
    monotone on the non-negative numbers and leaves 0, 1, 2 and 255 as
    they are: the emitter keeps the order of values (a larger value never
    gets a smaller byte), every value at or below -1 becomes 0 and every
    value at or above 1 becomes 255. *)
Theorem emitter_keeps_order_and_saturates :
  forall (rnd : Q -> Q),
    (forall x y, 0 <= x -> x <= y -> rnd x <= rnd y)%Q ->
    (rnd 0 == 0)%Q -> (rnd 1 == 1)%Q -> (rnd 2 == 2)%Q -> (rnd 255 == 255)%Q ->
    (forall x y, (x <= y)%Q -> Emitter.to_pixel rnd x <= Emitter.to_pixel rnd y)
    /\ (forall x, (x <= -1)%Q -> Emitter.to_pixel rnd x = 0)
    /\ (forall x, (1 <= x)%Q -> Emitter.to_pixel rnd x = 255).
Proof.
  intros rnd Hmono R0 R1 R2 R255.
  split; [|split].
  - intros x y Hxy.
    rewrite !(to_pixel_scaled rnd Hmono R0 R1 R2 R255).
    apply Qfloor_resp_le. now apply scaled_mono.
  - intros x Hx.
    rewrite (to_pixel_scaled rnd Hmono R0 R1 R2 R255).
    rewrite (scaled_low rnd Hmono R0 x Hx). reflexivity.
  - intros x Hx.
    rewrite (to_pixel_scaled rnd Hmono R0 R1 R2 R255).
    rewrite (scaled_high rnd Hmono R1 R2 R255 x Hx). reflexivity.
Qed.

Lemma emitter_keeps_order_and_saturates_witness :
  (forall x y, (x <= y)%Q -> Emitter.to_pixel RN x <= Emitter.to_pixel RN y)
  /\ (forall x, (x <= -1)%Q -> Emitter.to_pixel RN x = 0)
  /\ (forall x, (1 <= x)%Q -> Emitter.to_pixel RN x = 255).
Proof.
  apply (emitter_keeps_order_and_saturates RN).
  - exact RN_mono.
  - reflexivity.
  - vm_compute; reflexivity.
  - vm_compute; reflexivity.
  - vm_compute; reflexivity.
Defined.

(** ** The dataset *)

Section DatasetProperties.
Import String Ascii Dataset.
#[local] Open Scope string_scope.

(** X17. [_combine_without_prefix] returns the paths
    [join(folder_path, name)] of exactly the names of the listing whose
    first character is not the prefix, each as often as the listing has
    it, in ascending order of [str].  (A listing with an empty name would
    raise [IndexError] at [name[0]]; [os.listdir] gives none.) *)
Theorem combine_without_prefix_sorted_visible :
  forall (listing : list string) (folder_path prefix : string),
    (In "" listing ->
     _combine_without_prefix listing folder_path prefix = inl IndexError)
    /\ (~ In "" listing ->
        exists files,
          _combine_without_prefix listing folder_path prefix = inr files
          /\ Permutation (map (join folder_path) (filter (visible prefix) listing)) files
          /\ StronglySorted (fun a b => String.leb a b = true) files).
Proof.
  intros listing folder_path prefix. unfold _combine_without_prefix. split.
  - intros Hin. now rewrite (collect_empty_name folder_path prefix listing [] Hin).
  - intros Hne.
    rewrite (collect_visible folder_path prefix listing [] Hne). cbn [app].
    eexists; split; [reflexivity|]. split.
    + apply PathSort.Permuted_sort.
    + apply PathSort.StronglySorted_sort.
      intros a b c. apply leb_trans.
Qed.

(** X18. [__getitem__] answers the indices from [-len] to [len - 1], a
    negative one counting from the end, with the loaded video of the file
    at that position and the base name of its path; any other index
    raises [IndexError]. *)
Theorem getitem_index_range :
  forall (V : Type) (_load_video : string -> V) (self : RealVideoDataset) (index : Z),
    match __getitem__ _load_video self index with
    | inr (video, file_name) =>
        (- __len__ self <= index < __len__ self)%Z
        /\ exists real_video_file,
             nth_error (real_video_files self)
               (Z.to_nat (if (index <? 0)%Z then index + __len__ self else index))
             = Some real_video_file
             /\ video = _load_video real_video_file
             /\ file_name = basename real_video_file
    | inl _ => (index < - __len__ self \/ __len__ self <= index)%Z
    end.
Proof.
  intros V load self index. unfold __getitem__.
  destruct (Z.geb_spec index (__len__ self)) as [Hge|Hlt]; [right; lia|].
  pose proof (list_index_spec (real_video_files self) index) as L. cbv zeta in L.
  fold (__len__ self) in L.
  destruct (list_index (real_video_files self) index) as [e|f].
  - exact L.
  - destruct L as [Hr Hn]. split; [exact Hr|]. exists f. auto.
Qed.

(** X19. The [file_name] of an item is the name the directory listing
    gave: for a name without a separator, the base name of
    [join(folder_path, name)] is the name, whatever the folder path. *)
Theorem file_name_is_listed_name :
  forall folder_path name : string,
    has_sep name = false -> basename (join folder_path name) = name.
Proof. exact basename_of_join. Qed.

Lemma file_name_is_listed_name_witness :
  basename (join "data/real/" "clip_07.mp4") = "clip_07.mp4".
Proof.
  apply (file_name_is_listed_name "data/real/" "clip_07.mp4"). reflexivity.
Defined.

(** X20. A dataset built from a listing of names that are not empty and
    hold no separator has one item for each name that does not begin with
    a dot, and every index from [-len] to [len - 1] gives the loaded video
    of [join(real_video_dir, name)] together with [name], for such a name
    of the listing. *)
Theorem dataset_items_are_visible_names :
  forall (V : Type) (_load_video : string -> V) (listing : list string)
         (real_video_dir : string) (num_frames sample_rate : Z)
         (crop_size : option Z) (resolution : Z),
    Forall (fun name => name <> "" /\ has_sep name = false) listing ->
    exists self,
      __init__ listing real_video_dir num_frames sample_rate crop_size resolution
      = inr self
      /\ __len__ self = Z.of_nat (List.length (filter (visible ".") listing))
      /\ forall index,
           (- __len__ self <= index < __len__ self)%Z ->
           exists name,
             __getitem__ _load_video self index
             = inr (_load_video (join real_video_dir name), name)
             /\ In name listing /\ visible "." name = true.
Proof.
  intros V load listing dir nf sr crop res Hnames.
  assert (Hne : ~ In "" listing).
  { intros Hin. rewrite Forall_forall in Hnames.
    destruct (Hnames _ Hin) as [Hn _]. now apply Hn. }
  unfold __init__, _combine_without_prefix.
  rewrite (collect_visible dir "." listing [] Hne). cbn [app].
  set (paths := map (join dir) (filter (visible ".") listing)).
  pose proof (PathSort.Permuted_sort paths) as P.
  eexists; split; [reflexivity|].
  unfold __len__. cbn [real_video_files].
  assert (Elen : List.length (PathSort.sort paths)
                 = List.length (filter (visible ".") listing)).
  { rewrite <- (Permutation_length P). subst paths. apply length_map. }
  split; [now rewrite Elen|].
  intros index Hidx. unfold __getitem__, __len__. cbn [real_video_files].
  destruct (Z.geb_spec index (Z.of_nat (List.length (PathSort.sort paths))));
    [lia|].
  pose proof (list_index_spec (PathSort.sort paths) index) as L. cbv zeta in L.
  destruct (list_index (PathSort.sort paths) index) as [e|f]; [lia|].
  destruct L as [_ Hn]. apply nth_error_In in Hn.
  apply (Permutation_in _ (Permutation_sym P)) in Hn.
  subst paths. apply in_map_iff in Hn. destruct Hn as (name & <- & Hin).
  apply filter_In in Hin. destruct Hin as [Hin Hvis].
  rewrite Forall_forall in Hnames. destruct (Hnames _ Hin) as [_ Hsep].
  exists name. rewrite (basename_of_join dir name Hsep). auto.
Qed.

Lemma dataset_items_are_visible_names_witness :
  exists self,
    __init__ ["b.mp4"; ".cache"; "a.mp4"] "videos" 17 1 None 336 = inr self
    /\ __len__ self
       = Z.of_nat (List.length (filter (visible ".") ["b.mp4"; ".cache"; "a.mp4"]))
    /\ forall index,
         (- __len__ self <= index < __len__ self)%Z ->
         exists name,
           __getitem__ (fun path : string => path) self index
           = inr (join "videos" name, name)
           /\ In name ["b.mp4"; ".cache"; "a.mp4"] /\ visible "." name = true.
Proof.
  apply (dataset_items_are_visible_names string (fun path => path)
           ["b.mp4"; ".cache"; "a.mp4"] "videos" 17 1 None 336).
  repeat constructor; discriminate.
Defined.

End DatasetProperties.
